(** * Playlist utilities: a shallow embedding and its properties

    The four scripts ([spotify.py], [analyzer.py], [clean.py], [remove.py])
    drive a remote playlist service: they page through a collection, filter
    it and write back in capped batches, backing off on HTTP 429.

    Layout: Python primitives ([Py]), the remote data and the effect model
    (exceptions, the scripted client, the trace of a run), one module per
    script holding the translated functions, the reference definitions and
    scripted inputs used to state properties, then the properties. *)

From stdpp Require Import base list strings gmap sets.
From Stdlib Require Import Ascii NArith ZArith Lia.
From Stdlib Require String DecimalString DecimalNat.

Set Default Proof Using "Type".

(* ================================================================== *)
(** ** Python primitives *)
(* ================================================================== *)

(** Text is a [string]: a sequence of code points below 256.  The operations
    are those of Python's [str] restricted to that range. *)
Module Py.

(** [len(s)] *)
Definition len (s : string) : nat := String.length s.

(** [c.lower()] on one code point: A-Z and the Latin-1 capitals
    (U+00C0..U+00DE without the multiplication sign U+00D7) move up by 32. *)
Definition lower_char (c : ascii) : ascii :=
  let n := N_of_ascii c in
  if ((65 <=? n) && (n <=? 90))%N
     || ((192 <=? n) && (n <=? 222) && negb (n =? 215))%N
  then ascii_of_N (n + 32)
  else c.

(** [s.lower()] *)
Fixpoint lower (s : string) : string :=
  match s with
  | EmptyString => EmptyString
  | String c s' => String (lower_char c) (lower s')
  end.

(** [s.startswith(p)] *)
Definition startswith (s p : string) : bool := String.prefix p s.

(** [sub in s] *)
Fixpoint contains (sub s : string) : bool :=
  String.prefix sub s
  || match s with
     | EmptyString => false
     | String _ s' => contains sub s'
     end.

(** [c.isspace()] for code points below 256. *)
Definition isspace (c : ascii) : bool :=
  let n := N_of_ascii c in
  (((9 <=? n) && (n <=? 13)) || ((28 <=? n) && (n <=? 32))
   || (n =? 133) || (n =? 160))%N.

Fixpoint lstrip (s : string) : string :=
  match s with
  | EmptyString => EmptyString
  | String c s' => if isspace c then lstrip s' else s
  end.

(** [s.rstrip()]: a character is dropped when it is blank and everything
    after it has been dropped too. *)
Fixpoint rstrip (s : string) : string :=
  match s with
  | EmptyString => EmptyString
  | String c s' =>
      match rstrip s' with
      | EmptyString => if isspace c then EmptyString else String c EmptyString
      | r => String c r
      end
  end.

(** [s.strip()] *)
Definition strip (s : string) : string := rstrip (lstrip s).

(** [s.split(sep)] for a non-empty [sep]: left-to-right, non-overlapping.
    [skip] counts the characters of a separator still to be passed over,
    [cur] is the piece being built, reversed. *)
Fixpoint split_go (sep : string) (skip : nat) (cur : string) (s : string)
  : list string :=
  match s with
  | EmptyString => [String.rev cur]
  | String c s' =>
      match skip with
      | S k => split_go sep k cur s'
      | O =>
          if String.prefix sep s
          then String.rev cur :: split_go sep (String.length sep - 1) EmptyString s'
          else split_go sep 0 (String c cur) s'
      end
  end.

Definition split (s sep : string) : list string := split_go sep 0 EmptyString s.

(** [sep.join(parts)] *)
Fixpoint join (sep : string) (parts : list string) : string :=
  match parts with
  | [] => EmptyString
  | [p] => p
  | p :: rest => p +:+ sep +:+ join sep rest
  end.

(** [l[i:j]] for [0 <= i <= j] *)
Definition slice {A} (l : list A) (i j : nat) : list A := take (j - i) (drop i l).

(** [range(start, stop, step)] for [step > 0]: [start, start+step, ...]
    below [stop]; there are [ceil((stop - start) / step)] of them. *)
Definition range (start stop step : nat) : list nat :=
  (fun k => start + k * step) <$> seq 0 ((stop - start + step - 1) / step).

(** [enumerate(l, start)] *)
Definition enumerate {A} (l : list A) (start : nat) : list (nat * A) :=
  zip (seq start (length l)) l.

(** [l[-1]] and [l[0]] on a list known to be non-empty. *)
Definition last_item (l : list string) : string := List.last l EmptyString.
Definition first_item (l : list string) : string := List.hd EmptyString l.

(** truthiness of a [str] *)
Definition truthy (s : string) : bool :=
  match s with EmptyString => false | _ => true end.

(** [int(s)] for text: [Some] of the integer, [None] where [int] raises
    [ValueError].  Blanks around the numeral are skipped (the blanks of
    [isspace] but for the separators U+001C..U+001F, which [int] rejects), a
    sign may precede the digits, and single underscores may stand between
    digits.  The interpreter's cap on the length of a numeral is left out. *)
Definition digit (c : ascii) : option nat :=
  let n := N_of_ascii c in
  if ((48 <=? n) && (n <=? 57))%N then Some (N.to_nat (n - 48)) else None.

Definition int_blank (c : ascii) : bool :=
  let n := N_of_ascii c in
  isspace c && negb ((28 <=? n) && (n <=? 31))%N.

Fixpoint all_blank (s : string) : bool :=
  match s with
  | EmptyString => true
  | String c s' => int_blank c && all_blank s'
  end.

Fixpoint int_lstrip (s : string) : string :=
  match s with
  | EmptyString => EmptyString
  | String c s' => if int_blank c then int_lstrip s' else s
  end.

(** The digits, and the blanks after them; [after_digit] tells whether the
    previous character was a digit. *)
Fixpoint int_digits (s : string) (acc : nat) (after_digit : bool) : option nat :=
  match s with
  | EmptyString => if after_digit then Some acc else None
  | String c s' =>
      match digit c with
      | Some d => int_digits s' (10 * acc + d) true
      | None =>
          if Ascii.eqb c "_"
          then (if after_digit then int_digits s' acc false else None)
          else if after_digit && all_blank s then Some acc else None
      end
  end.

Definition int (s : string) : option Z :=
  match int_lstrip s with
  | String "-" s' => (fun n => (- Z.of_nat n)%Z) <$> int_digits s' 0 false
  | String "+" s' => Z.of_nat <$> int_digits s' 0 false
  | s' => Z.of_nat <$> int_digits s' 0 false
  end.

End Py.

(* ================================================================== *)
(** ** Remote data *)
(* ================================================================== *)

(** The dict-shaped API responses, as records holding the keys the scripts
    read.  [album_label] is the one key read with [.get(..., '')]; an
    [item_track] may be null. *)
Record Artist := { artist_name : string }.
Record Album := { album_name : string; album_label : option string }.
Record Track :=
  { track_name : string; track_album : Album; track_artists : list Artist }.
Record TrackRef := { ref_id : string; ref_uri : string }.
Record Item := { item_track : option TrackRef }.
Record Response := { items : list Item; total : nat }.

(* ================================================================== *)
(** ** Effects: exceptions, the remote client, sleeping and printing *)
(* ================================================================== *)

(** [spotipy.exceptions.SpotifyException]: the status and the response
    headers (always a dict in the client library), whose values are text. *)
Record SpotifyException :=
  { http_status : nat; headers : gmap string string }.

(** The exceptions that occur; [OtherException] stands for any class that is
    neither of the first two.  All of them are caught by [except Exception]. *)
Inductive exn :=
| Spotify (e : SpotifyException)
| ValueError (msg : string)
| OtherException (msg : string).

Inductive outcome (A : Type) :=
| Returns (a : A)
| Raises (e : exn).
Arguments Returns {A} a.
Arguments Raises {A} e.

Inductive api_call :=
| CallTrack (track_id : string)
| CallPlaylistTracks (playlist_id : string) (offset : nat)
| CallPlaylistAddItems (playlist_id : string) (batch : list string)
| CallPlaylistRemoveAll (playlist_id : string) (batch : list string).

(** What a retry loop is busy with, for its error messages. *)
Inductive context :=
| ProcessingTrack (track_id : string)
| AddingBatch (batch_number : nat).

(** The messages the scripts print, with their interpolated values. *)
Inductive message :=
| MsgRateLimit (retry_after : Z) (retry_count max_retries : nat)
| MsgError (ctx : context) (e : SpotifyException)
| MsgUnexpected (ctx : context) (e : exn)
| MsgProcessing (total_tracks : nat)
| MsgProcessed (i total_tracks : nat)
| MsgFinished (found : nat)
| MsgAddingTracks (total_batches : nat)
| MsgAddedBatch (batch_number total_batches size : nat)
| MsgFetchingDetails (batch_number total_batches : nat)
| MsgNoDuplicates
| MsgFoundDuplicates (n : nat)
| MsgRemovedBatch (batch_number of_batches : nat)
| MsgRemovedDuplicates (n : nat)
| MsgNoMatching
| MsgRemoving (n : nat)
| MsgErrorRemovingBatch (e : exn)
| MsgRemoved (n : nat).

Inductive event :=
| EvCall (c : api_call)
| EvSleep (seconds : nat)
| EvPrint (m : message).

(** The state of a run: how many API calls it has made, and everything it has
    done so far, oldest first. *)
Record World := { ncalls : nat; trace : list event }.

Definition w0 : World := {| ncalls := 0; trace := [] |}.

(** The remote client, as a deterministic script: each endpoint answers from
    the number of API calls made before this one and the arguments. *)
Record Client :=
  { track : nat -> string -> outcome Track;
    playlist_tracks : nat -> string -> nat -> outcome Response;
    playlist_add_items : nat -> string -> list string -> outcome unit;
    playlist_remove_all_occurrences_of_items :
      nat -> string -> list string -> outcome unit }.

(** A computation either returns, raises, or exhausts the bound put on a
    [while True] loop. *)
Inductive result (A : Type) :=
| Ok (a : A) (w : World)
| Raise (e : exn) (w : World)
| OutOfFuel.
Arguments Ok {A} a w.
Arguments Raise {A} e w.
Arguments OutOfFuel {A}.

Definition M (A : Type) : Type := World -> result A.

Definition ret {A} (a : A) : M A := fun w => Ok a w.

Definition bind {A B} (m : M A) (k : A -> M B) : M B :=
  fun w => match m w with
           | Ok a w' => k a w'
           | Raise e w' => Raise e w'
           | OutOfFuel => OutOfFuel
           end.

Notation "x <- m ;; k" := (bind m (fun x => k))
  (at level 90, m at level 60, right associativity, only parsing).
Notation "m ;;; k" := (bind m (fun _ => k))
  (at level 90, right associativity, only parsing).

(** [try: m  except ... as e: h e] *)
Definition try_except {A} (m : M A) (h : exn -> M A) : M A :=
  fun w => match m w with
           | Raise e w' => h e w'
           | r => r
           end.

Definition out_of_fuel {A} : M A := fun _ => OutOfFuel.

Definition emit (ev : event) : M unit :=
  fun w => Ok tt {| ncalls := ncalls w; trace := trace w ++ [ev] |}.

Definition sleep (seconds : nat) : M unit := emit (EvSleep seconds).
Definition print (m : message) : M unit := emit (EvPrint m).

Definition raise {A} (e : exn) : M A := fun w => Raise e w.

(** [int(text)]: a [ValueError] when the text is no numeral (its message,
    which quotes the text, is shortened here). *)
Definition int_ (text : string) : M Z :=
  match Py.int text with
  | Some z => ret z
  | None => raise (ValueError "invalid literal for int() with base 10")
  end.

(** [time.sleep(seconds)] for an integer: a [ValueError] when it is negative.
    The upper limit of the platform's clock is left out. *)
Definition time_sleep (seconds : Z) : M unit :=
  if (seconds <? 0)%Z
  then raise (ValueError "sleep length must be non-negative")
  else sleep (Z.to_nat seconds).

(** One API call: recorded, counted, and answered by the script. *)
Definition call {A} (c : api_call) (answer : nat -> outcome A) : M A :=
  fun w =>
    let w' := {| ncalls := S (ncalls w); trace := trace w ++ [EvCall c] |} in
    match answer (ncalls w) with
    | Returns a => Ok a w'
    | Raises e => Raise e w'
    end.

(** [for x in l: s = body x s] *)
Fixpoint for_each {A S} (l : list A) (body : A -> S -> M S) (s : S) : M S :=
  match l with
  | [] => ret s
  | x :: l' => s' <- body x s ;; for_each l' body s'
  end.

(** The chunking idiom of the write loops:
    [for i in range(0, len(l), B): batch = l[i:i + B]]. *)
Definition batches {A} (B : nat) (l : list A) : list (list A) :=
  (fun i => Py.slice l i (i + B)) <$> Py.range 0 (length l) B.

(** Projections of a trace used to state the properties. *)
Definition sleeps (tr : list event) : list nat :=
  omap (fun ev => match ev with EvSleep d => Some d | _ => None end) tr.

Definition calls (tr : list event) : list api_call :=
  omap (fun ev => match ev with EvCall c => Some c | _ => None end) tr.

Definition prints (tr : list event) : list message :=
  omap (fun ev => match ev with EvPrint m => Some m | _ => None end) tr.

Definition removed_batches (tr : list event) : list (list string) :=
  omap (fun ev => match ev with
                  | EvCall (CallPlaylistRemoveAll _ b) => Some b
                  | _ => None
                  end) tr.

Definition added_batches (tr : list event) : list (list string) :=
  omap (fun ev => match ev with
                  | EvCall (CallPlaylistAddItems _ b) => Some b
                  | _ => None
                  end) tr.

(** The ids of the track calls of a trace, group by group: a sleep closes the
    group of the calls made since the previous sleep. *)
Fixpoint fetched_batches_from (cur : list string) (tr : list event)
  : list (list string) :=
  match tr with
  | [] => match cur with [] => [] | _ => [cur] end
  | EvCall (CallTrack track_id) :: tr' =>
      fetched_batches_from (cur ++ [track_id]) tr'
  | EvSleep _ :: tr' => cur :: fetched_batches_from [] tr'
  | _ :: tr' => fetched_batches_from cur tr'
  end.

Definition fetched_batches (tr : list event) : list (list string) :=
  fetched_batches_from [] tr.

(* ================================================================== *)
(** ** spotify.py: [SpotifyPlaylistManager] *)
(* ================================================================== *)

Module Spotify.

Definition BATCH_SIZE : nat := 100.
Definition RATE_LIMIT_DELAY : nat := 1.

Definition should_exclude_track (track : Track) (keyword : string) : bool :=
  let track_name := Py.lower (track_name track) in
  let album_name := Py.lower (album_name (track_album track)) in
  let artist_names :=
    Py.join " " ((fun artist => Py.lower (artist_name artist)) <$> track_artists track) in
  let record_label := Py.lower (default "" (album_label (track_album track))) in
  existsb (fun field => Py.contains keyword field)
          [track_name; album_name; artist_names; record_label].

(** [int(e.headers.get('Retry-After', self.RATE_LIMIT_DELAY))] converts the
    header's text, or the integer default.  The conversion and the sleep run
    inside the [except] clause of the caller, so what they raise leaves the
    retry loop. *)
Definition _handle_rate_limit (e : SpotifyException)
    (retry_count max_retries : nat) (ctx : context) : M nat :=
  if http_status e =? 429 then
    let retry_count := retry_count + 1 in
    retry_after <-
      match headers e !! "Retry-After" with
      | Some value => int_ value
      | None => ret (Z.of_nat RATE_LIMIT_DELAY)
      end ;;
    print (MsgRateLimit retry_after retry_count max_retries) ;;;
    time_sleep retry_after ;;;
    ret retry_count
  else
    print (MsgError ctx e) ;;;
    ret max_retries.

Section WithClient.
Variable sp : Client.

Definition sp_track (track_id : string) : M Track :=
  call (CallTrack track_id) (fun n => track sp n track_id).

Definition sp_playlist_add_items (playlist_id : string) (batch : list string)
  : M unit :=
  call (CallPlaylistAddItems playlist_id batch)
       (fun n => playlist_add_items sp n playlist_id batch).

(** The [while retry_count < max_retries] loop of
    [_process_track_with_retry]; falling out of the loop returns [None]. *)
Fixpoint _process_track_with_retry_loop (fuel : nat)
    (retry_count max_retries : nat) (track_id exclude_keyword : string)
  : M (option string) :=
  match fuel with
  | O => out_of_fuel
  | S fuel' =>
      if retry_count <? max_retries then
        try_except
          (track <- sp_track track_id ;;
           if negb (should_exclude_track track exclude_keyword)
           then ret (Some track_id)
           else ret None)
          (fun e =>
             match e with
             | Spotify e =>
                 retry_count <- _handle_rate_limit e retry_count max_retries
                                  (ProcessingTrack track_id) ;;
                 _process_track_with_retry_loop fuel' retry_count max_retries
                   track_id exclude_keyword
             | _ =>
                 print (MsgUnexpected (ProcessingTrack track_id) e) ;;;
                 ret None
             end)
      else ret None
  end.

Definition _process_track_with_retry (track_id exclude_keyword : string)
  : M (option string) :=
  let max_retries := 3 in
  let retry_count := 0 in
  _process_track_with_retry_loop (S max_retries) retry_count max_retries
    track_id exclude_keyword.

(** One round of the [for] loop of [filter_tracks]. *)
Definition filter_tracks_body (exclude_keyword : string) (total_tracks : nat)
    (entry : nat * string) (filtered_tracks : list string)
  : M (list string) :=
  let '(i, track_id) := entry in
  processed <- _process_track_with_retry track_id exclude_keyword ;;
  let filtered_tracks :=
    match processed with
    | Some processed_track_id =>
        if Py.truthy processed_track_id
        then filtered_tracks ++ [processed_track_id]
        else filtered_tracks
    | None => filtered_tracks
    end in
  (if i mod 50 =? 0 then print (MsgProcessed i total_tracks) else ret tt) ;;;
  (if i mod 10 =? 0 then sleep RATE_LIMIT_DELAY else ret tt) ;;;
  ret filtered_tracks.

Definition filter_tracks (track_ids : list string) (exclude_keyword : string)
  : M (list string) :=
  let total_tracks := length track_ids in
  print (MsgProcessing total_tracks) ;;;
  filtered_tracks <-
    for_each (Py.enumerate track_ids 1)
      (filter_tracks_body exclude_keyword total_tracks) [] ;;
  print (MsgFinished (length filtered_tracks)) ;;;
  ret filtered_tracks.

Fixpoint _add_batch_with_retry_loop (fuel : nat)
    (retry_count max_retries : nat) (playlist_id : string)
    (batch : list string) (batch_number total_batches : nat) : M bool :=
  match fuel with
  | O => out_of_fuel
  | S fuel' =>
      if retry_count <? max_retries then
        try_except
          (sp_playlist_add_items playlist_id batch ;;;
           print (MsgAddedBatch batch_number total_batches (length batch)) ;;;
           ret true)
          (fun e =>
             match e with
             | Spotify e =>
                 retry_count <- _handle_rate_limit e retry_count max_retries
                                  (AddingBatch batch_number) ;;
                 _add_batch_with_retry_loop fuel' retry_count max_retries
                   playlist_id batch batch_number total_batches
             | _ =>
                 print (MsgUnexpected (AddingBatch batch_number) e) ;;;
                 ret false
             end)
      else ret false
  end.

Definition _add_batch_with_retry (playlist_id : string) (batch : list string)
    (batch_number total_batches : nat) : M bool :=
  let max_retries := 3 in
  let retry_count := 0 in
  _add_batch_with_retry_loop (S max_retries) retry_count max_retries
    playlist_id batch batch_number total_batches.

Definition add_tracks_to_playlist (playlist_id : string)
    (track_ids : list string) : M unit :=
  let total_batches := (length track_ids + BATCH_SIZE - 1) / BATCH_SIZE in
  print (MsgAddingTracks total_batches) ;;;
  for_each (Py.range 0 (length track_ids) BATCH_SIZE)
    (fun i _ =>
       let batch := Py.slice track_ids i (i + BATCH_SIZE) in
       let batch_number := i / BATCH_SIZE + 1 in
       success <- _add_batch_with_retry playlist_id batch batch_number
                    total_batches ;;
       if success && (batch_number <? total_batches)
       then sleep RATE_LIMIT_DELAY
       else ret tt)
    tt.

End WithClient.
End Spotify.

(* ================================================================== *)
(** ** analyzer.py: [SpotifyAnalyzer] and [extract_playlist_id] *)
(* ================================================================== *)

Module Analyzer.

Definition BATCH_SIZE : nat := 50.
Definition RATE_LIMIT_DELAY : nat := 1.

(** [[item['track']['id'] for item in response['items'] if item['track']]] *)
Definition track_ids_of (response_items : list Item) : list string :=
  omap (fun item => ref_id <$> item_track item) response_items.

Section WithClient.
Variable sp : Client.

Definition sp_playlist_tracks (playlist_id : string) (offset : nat)
  : M Response :=
  call (CallPlaylistTracks playlist_id offset)
       (fun n => playlist_tracks sp n playlist_id offset).

Definition sp_track (track_id : string) : M Track :=
  call (CallTrack track_id) (fun n => track sp n track_id).

(** The [while True] loop of [get_playlist_tracks], at most [fuel] rounds. *)
Fixpoint get_playlist_tracks_loop (fuel : nat) (playlist_id : string)
    (tracks : list string) (offset : nat) : M (list string) :=
  match fuel with
  | O => out_of_fuel
  | S fuel' =>
      response <- sp_playlist_tracks playlist_id offset ;;
      match items response with
      | [] => ret tracks
      | _ =>
          let tracks := tracks ++ track_ids_of (items response) in
          let offset := offset + length (items response) in
          if total response <=? offset then ret tracks
          else
            sleep RATE_LIMIT_DELAY ;;;
            get_playlist_tracks_loop fuel' playlist_id tracks offset
      end
  end.

Definition get_playlist_tracks (fuel : nat) (playlist_id : string)
  : M (list string) :=
  get_playlist_tracks_loop fuel playlist_id [] 0.

Definition get_track_details (track_ids : list string) : M (list Track) :=
  for_each (Py.range 0 (length track_ids) BATCH_SIZE)
    (fun i details =>
       let batch := Py.slice track_ids i (i + BATCH_SIZE) in
       let batch_number := i / BATCH_SIZE + 1 in
       let total_batches := (length track_ids + BATCH_SIZE - 1) / BATCH_SIZE in
       print (MsgFetchingDetails batch_number total_batches) ;;;
       batch_tracks <-
         for_each batch
           (fun id acc => t <- sp_track id ;; ret (acc ++ [t])) [] ;;
       sleep RATE_LIMIT_DELAY ;;;
       ret (details ++ batch_tracks))
    [].

End WithClient.

Definition nl : string := String (ascii_of_nat 10) EmptyString.

Definition msg_empty : string := "Please provide a Spotify playlist URL".
Definition msg_bad_url : string := "Invalid Spotify playlist URL format".
Definition msg_bad_format : string :=
  "Invalid playlist URL format. Please provide either:" +:+ nl +:+
  "- Spotify URL (https://open.spotify.com/playlist/...)" +:+ nl +:+
  "- Spotify URI (spotify:playlist:...)" +:+ nl +:+
  "- Playlist ID (22 characters)".

(** [extract_playlist_id].  The inner [try] catches the [ValueError] it raises
    itself on an empty result and re-raises it with a message; [split] never
    yields an empty list, so the indexing cannot fail. *)
Definition extract_playlist_id (url : string) : outcome string :=
  if negb (Py.truthy url) then Raises (ValueError msg_empty)
  else if Py.startswith url "spotify:playlist:" then
    Returns (Py.last_item (Py.split url ":"))
  else if Py.contains "open.spotify.com" url then
    let playlist_id :=
      Py.first_item (Py.split (Py.last_item (Py.split url "playlist/")) "?") in
    if negb (Py.truthy playlist_id) then Raises (ValueError msg_bad_url)
    else Returns playlist_id
  else if Py.len (Py.strip url) =? 22 then Returns (Py.strip url)
  else Raises (ValueError msg_bad_format).

End Analyzer.

(* ================================================================== *)
(** ** clean.py: [SpotifyPlaylistCleaner] *)
(* ================================================================== *)

Module Clean.

Definition RATE_LIMIT_DELAY : nat := 1.

(** [[{"id": ..., "uri": ...} for item in response['items'] if item['track']]] *)
Definition track_refs_of (response_items : list Item) : list TrackRef :=
  omap item_track response_items.

(** The scan of [remove_duplicate_tracks]: the [seen_tracks] set and the
    [duplicates] list after the [for] loop. *)
Definition scan_step (state : gset string * list string) (track : TrackRef)
  : gset string * list string :=
  let '(seen_tracks, duplicates) := state in
  if decide (ref_id track ∈ seen_tracks)
  then (seen_tracks, duplicates ++ [ref_uri track])
  else (seen_tracks ∪ {[ref_id track]}, duplicates).

Definition scan (tracks : list TrackRef) : gset string * list string :=
  foldl scan_step (∅, []) tracks.

Definition find_duplicates (tracks : list TrackRef) : list string :=
  (scan tracks).2.

Section WithClient.
Variable sp : Client.

Definition sp_playlist_tracks (playlist_id : string) (offset : nat)
  : M Response :=
  call (CallPlaylistTracks playlist_id offset)
       (fun n => playlist_tracks sp n playlist_id offset).

Definition sp_playlist_remove_all_occurrences_of_items
    (playlist_id : string) (batch : list string) : M unit :=
  call (CallPlaylistRemoveAll playlist_id batch)
       (fun n => playlist_remove_all_occurrences_of_items sp n playlist_id batch).

Fixpoint get_playlist_tracks_loop (fuel : nat) (playlist_id : string)
    (track_list : list TrackRef) (offset : nat) : M (list TrackRef) :=
  match fuel with
  | O => out_of_fuel
  | S fuel' =>
      response <- sp_playlist_tracks playlist_id offset ;;
      let track_list := track_list ++ track_refs_of (items response) in
      if length (items response) <? 100 then ret track_list
      else get_playlist_tracks_loop fuel' playlist_id track_list (offset + 100)
  end.

Definition get_playlist_tracks (fuel : nat) (playlist_id : string)
  : M (list TrackRef) :=
  get_playlist_tracks_loop fuel playlist_id [] 0.

Definition remove_duplicate_tracks (fuel : nat) (playlist_id : string)
  : M unit :=
  tracks <- get_playlist_tracks fuel playlist_id ;;
  let duplicates := find_duplicates tracks in
  match duplicates with
  | [] => print MsgNoDuplicates
  | _ =>
      print (MsgFoundDuplicates (length duplicates)) ;;;
      for_each (Py.range 0 (length duplicates) 100)
        (fun i _ =>
           sp_playlist_remove_all_occurrences_of_items playlist_id
             (Py.slice duplicates i (i + 100)) ;;;
           print (MsgRemovedBatch (i / 100 + 1) (length duplicates / 100 + 1)) ;;;
           sleep RATE_LIMIT_DELAY)
        tt ;;;
      print (MsgRemovedDuplicates (length duplicates))
  end.

End WithClient.
End Clean.

(* ================================================================== *)
(** ** remove.py: [SpotifyTrackRemover] *)
(* ================================================================== *)

Module Remove.

Definition RATE_LIMIT_DELAY : nat := 1.

Definition track_ids_of (response_items : list Item) : list string :=
  omap (fun item => ref_id <$> item_track item) response_items.

(** [f"spotify:track:{track_id}"] *)
Definition track_uri (track_id : string) : string := "spotify:track:" +:+ track_id.

(** The comprehension building [tracks_to_remove], with the [{"uri": ...}]
    wrapper already flattened as the batch loop does. *)
Definition tracks_to_remove (existing_tracks : gset string)
    (track_ids_to_remove : list string) : list string :=
  track_uri <$>
    filter (fun track_id => track_id ∈ existing_tracks) track_ids_to_remove.

Section WithClient.
Variable sp : Client.

Definition sp_playlist_tracks (playlist_id : string) (offset : nat)
  : M Response :=
  call (CallPlaylistTracks playlist_id offset)
       (fun n => playlist_tracks sp n playlist_id offset).

Definition sp_playlist_remove_all_occurrences_of_items
    (playlist_id : string) (batch : list string) : M unit :=
  call (CallPlaylistRemoveAll playlist_id batch)
       (fun n => playlist_remove_all_occurrences_of_items sp n playlist_id batch).

Fixpoint get_playlist_tracks_loop (fuel : nat) (playlist_id : string)
    (existing_tracks : list string) (offset : nat) : M (list string) :=
  match fuel with
  | O => out_of_fuel
  | S fuel' =>
      response <- sp_playlist_tracks playlist_id offset ;;
      let existing_tracks := existing_tracks ++ track_ids_of (items response) in
      if length (items response) <? 100 then ret existing_tracks
      else get_playlist_tracks_loop fuel' playlist_id existing_tracks
             (offset + 100)
  end.

Definition get_playlist_tracks (fuel : nat) (playlist_id : string)
  : M (list string) :=
  get_playlist_tracks_loop fuel playlist_id [] 0.

Definition remove_tracks_from_playlist (fuel : nat) (playlist_id : string)
    (track_ids_to_remove : list string) : M unit :=
  fetched <- get_playlist_tracks fuel playlist_id ;;
  let existing_tracks : gset string := list_to_set fetched in
  let tracks_to_remove := tracks_to_remove existing_tracks track_ids_to_remove in
  match tracks_to_remove with
  | [] => print MsgNoMatching
  | _ =>
      print (MsgRemoving (length tracks_to_remove)) ;;;
      for_each (Py.range 0 (length tracks_to_remove) 100)
        (fun i _ =>
           let batch := Py.slice tracks_to_remove i (i + 100) in
           try_except
             (sp_playlist_remove_all_occurrences_of_items playlist_id batch ;;;
              print (MsgRemovedBatch (i / 100 + 1)
                       (length tracks_to_remove / 100 + 1)) ;;;
              sleep RATE_LIMIT_DELAY)
             (fun e => print (MsgErrorRemovingBatch e)))
        tt ;;;
      print (MsgRemoved (length tracks_to_remove))
  end.

End WithClient.
End Remove.

(* ================================================================== *)
(** ** Reference definitions used to state the properties *)
(* ================================================================== *)

(** An entry is a repeat when its id already occurs at an earlier position. *)
Definition is_repeat (tracks : list TrackRef) (i : nat) : bool :=
  match tracks !! i with
  | Some t => bool_decide (ref_id t ∈ ref_id <$> take i tracks)
  | None => false
  end.

(** The uris of the repeats, position by position, in scan order. *)
Definition repeat_uris (tracks : list TrackRef) : list string :=
  omap (fun i => if is_repeat tracks i then ref_uri <$> tracks !! i else None)
       (seq 0 (length tracks)).

(** The wait a rate-limit response asks for: the [Retry-After] header, or one
    time unit when the header is absent. *)
Definition suggested_wait (hdrs : gmap string nat) : nat :=
  default 1 (hdrs !! "Retry-After").

(** A number as text: its decimal numeral, ["0"] for zero. *)
Definition decimal (n : nat) : string :=
  DecimalString.NilZero.string_of_uint (Nat.to_uint n).

(** A rate-limit failure whose headers carry the given numbers, written in
    decimal. *)
Definition rate_limited {A} (hdrs : gmap string nat) : outcome A :=
  Raises (Spotify {| http_status := 429; headers := decimal <$> hdrs |}).

(** The integer [_handle_rate_limit] makes of a rate-limit response: [None]
    when the conversion of the header raises. *)
Definition retry_after (e : SpotifyException) : option Z :=
  match headers e !! "Retry-After" with
  | Some value => Py.int value
  | None => Some (Z.of_nat Spotify.RATE_LIMIT_DELAY)
  end.

(** A rate-limit response with a plain wait: the [Retry-After] header is
    absent, or it is the decimal numeral of a number of seconds of at most one
    day. *)
Definition plain_wait (e : SpotifyException) : bool :=
  match headers e !! "Retry-After" with
  | None => true
  | Some value =>
      match Py.int value with
      | Some z =>
          (0 <=? z)%Z && (z <=? 86400)%Z
          && String.eqb value (decimal (Z.to_nat z))
      | None => false
      end
  end.

(** What [k] consecutive rate-limited attempts of the call [c] leave in the
    trace, when the attempt counter stands at [retry_count] before the first
    of them and the [i]-th failure carries the headers [hs i]. *)
Fixpoint backoff_trace (c : api_call) (max_retries retry_count k : nat)
    (hs : nat -> gmap string nat) : list event :=
  match k with
  | O => []
  | S k' =>
      [EvCall c;
       EvPrint (MsgRateLimit (Z.of_nat (suggested_wait (hs 0))) (retry_count + 1)
                  max_retries);
       EvSleep (suggested_wait (hs 0))]
      ++ backoff_trace c max_retries (retry_count + 1) k' (fun i => hs (S i))
  end.

(** *** Scripted clients used in the examples *)

Definition lofi_track : Track :=
  {| track_name := "Night Drive";
     track_album := {| album_name := "Lofi Beats Vol. 2"; album_label := None |};
     track_artists := [ {| artist_name := "DJ Quiet" |} ] |}.

Definition rock_track : Track :=
  {| track_name := "Thunder Road";
     track_album := {| album_name := "Born to Run";
                       album_label := Some "Columbia" |};
     track_artists := [ {| artist_name := "Bruce" |}; {| artist_name := "The Band" |} ] |}.

(** Every endpoint answers at once. *)
Definition steady_client : Client :=
  {| track := fun _ _ => Returns rock_track;
     playlist_tracks := fun _ _ _ => Returns {| items := []; total := 0 |};
     playlist_add_items := fun _ _ _ => Returns tt;
     playlist_remove_all_occurrences_of_items := fun _ _ _ => Returns tt |}.

(** The headers of the successive rate-limit responses of [flaky_client]:
    the first suggests a wait of 5, the others suggest nothing. *)
Definition flaky_headers (i : nat) : gmap string nat :=
  match i with
  | O => {[ "Retry-After" := 5 ]}
  | _ => ∅
  end.

(** The first [k] API calls of the run are rate limited, the rest succeed. *)
Definition flaky_client (k : nat) : Client :=
  {| track := fun n _ =>
       if n <? k then rate_limited (flaky_headers n) else Returns rock_track;
     playlist_tracks := fun _ _ _ => Returns {| items := []; total := 0 |};
     playlist_add_items := fun n _ _ =>
       if n <? k then rate_limited (flaky_headers n) else Returns tt;
     playlist_remove_all_occurrences_of_items := fun _ _ _ => Returns tt |}.

(** Every call is rate limited, with the given text as [Retry-After]. *)
Definition rude_client (wait : string) : Client :=
  {| track := fun _ _ =>
       Raises (Spotify {| http_status := 429;
                          headers := {[ "Retry-After" := wait ]} |});
     playlist_tracks := fun _ _ _ => Returns {| items := []; total := 0 |};
     playlist_add_items := fun _ _ _ =>
       Raises (Spotify {| http_status := 429;
                          headers := {[ "Retry-After" := wait ]} |});
     playlist_remove_all_occurrences_of_items := fun _ _ _ => Returns tt |}.

(** The case-insensitive substring test: both sides are lower-cased. *)
Definition icontains (keyword field : string) : bool :=
  Py.contains (Py.lower keyword) (Py.lower field).

(** The exclusion predicate as specified: the keyword occurs, case
    insensitively, in the track name, the album name, the artist names joined
    by a blank, or the record label (empty when absent). *)
Definition exclusion_spec (t : Track) (keyword : string) : bool :=
  icontains keyword (track_name t)
  || icontains keyword (album_name (track_album t))
  || icontains keyword (Py.join " " (artist_name <$> track_artists t))
  || icontains keyword (default "" (album_label (track_album t))).

(** [ceil(a / b)] *)
Definition ceil_div (a b : nat) : nat := (a + b - 1) / b.

(** A source that answers the successive requests of a paginator with the
    pages [page 0], [page 1], ...: the offset reached after [i] pages, and the
    ids the first [n] pages carry (entries without a track carry none). *)
Definition offset_after (page : nat -> Response) (i : nat) : nat :=
  sum_list ((fun j => length (items (page j))) <$> seq 0 i).

Definition ids_of (response_items : list Item) : list string :=
  omap (fun item => ref_id <$> item_track item) response_items.

Definition fetched_ids (page : nat -> Response) (n : nat) : list string :=
  concat ((fun j => ids_of (items (page j))) <$> seq 0 n).

(** A remote collection served honestly: a request at [offset] is answered
    with the next [limit] entries and the size of the collection. *)
Definition page_of (remote : list Item) (limit offset : nat) : Response :=
  {| items := take limit (drop offset remote); total := length remote |}.

Definition serves (sp : Client) (remote : list Item) (limit : nat) : Prop :=
  forall n playlist_id offset,
    playlist_tracks sp n playlist_id offset = Returns (page_of remote limit offset).

Definition paged_client (remote : list Item) (limit : nat) : Client :=
  {| track := fun _ _ => Returns rock_track;
     playlist_tracks := fun _ _ offset => Returns (page_of remote limit offset);
     playlist_add_items := fun _ _ _ => Returns tt;
     playlist_remove_all_occurrences_of_items := fun _ _ _ => Returns tt |}.

(** Playlist entries: one with a track, one whose track is null. *)
Definition entry (track_id : string) : Item :=
  {| item_track := Some {| ref_id := track_id;
                           ref_uri := "spotify:track:" +:+ track_id |} |}.

Definition null_entry : Item := {| item_track := None |}.

(** A playlist of 101 entries: two pages for a page size of 100. *)
Definition long_playlist : list Item := replicate 100 (entry "a") ++ [entry "b"].

Definition long_playlist_page (i : nat) : Response :=
  page_of long_playlist 100 (100 * i).

Definition empty_page (i : nat) : Response := {| items := []; total := 0 |}.

(** The paginator property as claimed: the run returns [T] elements after at
    most [ceil(T / page_size)] calls of the fetch function. *)
Definition paginator_claim {A} (run : M (list A)) (w : World)
    (T page_size : nat) : Prop :=
  exists r w',
    run w = Ok r w'
    ∧ length r = T
    ∧ ncalls w' - ncalls w ≤ ceil_div T page_size.

(** One full page of 100 entries, the first of which has no track. *)
Definition hundred_with_null : list Item := null_entry :: replicate 99 (entry "a").

Definition three_entries : list Item := [entry "a"; entry "b"; entry "c"].

(** A failure is a rate-limit failure when it is a [SpotifyException] with
    status 429. *)
Definition is_rate_limit (e : exn) : Prop :=
  exists e', e = Spotify e' ∧ http_status e' = 429.

(** A computation result whose trace holds the same removal calls as [w]. *)
Definition keeps_removals {A} (r : result A) (w : World) : Prop :=
  match r with
  | Ok _ w' | Raise _ w' => removed_batches (trace w') = removed_batches (trace w)
  | OutOfFuel => True
  end.

(** The removal endpoint fails with a server error on every call; playlist
    reads are served honestly in pages of 100. *)
Definition server_error : exn := Spotify {| http_status := 500; headers := ∅ |}.

Definition failing_removal_client (remote : list Item) : Client :=
  {| track := fun _ _ => Returns rock_track;
     playlist_tracks := fun _ _ offset => Returns (page_of remote 100 offset);
     playlist_add_items := fun _ _ _ => Returns tt;
     playlist_remove_all_occurrences_of_items := fun _ _ _ => Raises server_error |}.

(** The same track 102 times: 101 duplicates, two removal batches. *)
Definition duplicated_playlist : list Item := replicate 102 (entry "a").

(** The entries of the worked example: ids a, b, a, c, b. *)
Definition example_tracks (u1 u2 u3 u4 u5 : string) : list TrackRef :=
  [ {| ref_id := "a"; ref_uri := u1 |}; {| ref_id := "b"; ref_uri := u2 |};
    {| ref_id := "a"; ref_uri := u3 |}; {| ref_id := "c"; ref_uri := u4 |};
    {| ref_id := "b"; ref_uri := u5 |} ].

Definition abc_playlist : list Item := [entry "a"; entry "b"; entry "c"].

(** A playlist with the ids a, b, a, c, b. *)
Definition example_playlist : list Item :=
  [entry "a"; entry "b"; entry "a"; entry "c"; entry "b"].

(** What the service does on [playlist_remove_all_occurrences_of_items]:
    every entry whose track bears one of the given uris leaves the playlist,
    wherever it stands. *)
Definition remove_all_occurrences (uris : list string) (remote : list Item)
  : list Item :=
  List.filter
    (fun item => match item_track item with
                 | Some t => negb (bool_decide (ref_uri t ∈ uris))
                 | None => true
                 end)
    remote.

(** The playlist that the removal calls of a trace leave behind. *)
Definition playlist_after (tr : list event) (remote : list Item) : list Item :=
  foldl (fun playlist batch => remove_all_occurrences batch playlist) remote
        (removed_batches tr).

(** Deduplication as specified: the first entry of every id stays, the
    entries whose id occurred earlier go. *)
Fixpoint keep_first_occurrences_from (seen : list string) (remote : list Item)
  : list Item :=
  match remote with
  | [] => []
  | item :: rest =>
      match item_track item with
      | Some t =>
          if bool_decide (ref_id t ∈ seen)
          then keep_first_occurrences_from seen rest
          else item :: keep_first_occurrences_from (ref_id t :: seen) rest
      | None => item :: keep_first_occurrences_from seen rest
      end
  end.

Definition keep_first_occurrences_spec (remote : list Item) : list Item :=
  keep_first_occurrences_from [] remote.

(** The world after one playlist read at offset 0. *)
Definition after_one_read : World :=
  {| ncalls := 1; trace := [EvCall (CallPlaylistTracks "pl" 0)] |}.

(** A catalogue of tracks: every fetch of an id succeeds with its record. *)
Definition catalog_client (catalog : string -> Track) : Client :=
  {| track := fun _ track_id => Returns (catalog track_id);
     playlist_tracks := fun _ _ _ => Returns {| items := []; total := 0 |};
     playlist_add_items := fun _ _ _ => Returns tt;
     playlist_remove_all_occurrences_of_items := fun _ _ _ => Returns tt |}.

Definition demo_catalog (track_id : string) : Track :=
  if String.eqb track_id "lofi1" then lofi_track else rock_track.

(** The ids [filter_tracks] keeps when every fetch succeeds: the non-empty
    ids whose record is not excluded. *)
Definition kept_ids (catalog : string -> Track) (exclude_keyword : string)
    (track_ids : list string) : list string :=
  List.filter
    (fun track_id =>
       Py.truthy track_id
       && negb (Spotify.should_exclude_track (catalog track_id) exclude_keyword))
    track_ids.

(** Every fetch succeeds except that of the id [bad]. *)
Definition timeout_error : exn := OtherException "connection timed out".

Definition failing_track_client (bad : string) : Client :=
  {| track := fun _ track_id =>
       if String.eqb track_id bad then Raises timeout_error
       else Returns (demo_catalog track_id);
     playlist_tracks := fun _ _ _ => Returns {| items := []; total := 0 |};
     playlist_add_items := fun _ _ _ => Returns tt;
     playlist_remove_all_occurrences_of_items := fun _ _ _ => Returns tt |}.

(* ================================================================== *)
(** ** The account endpoints, the analysis workflow and their effects *)
(* ================================================================== *)

(** The functions below use endpoints, messages and an output file besides
    those of the playlist workflows.  Their runs are recorded in a trace of
    their own, which embeds the events above. *)

(** An entry of [current_user_playlists()['items']], and the result of
    [user_playlist_create]. *)
Record Playlist := { pl_name : string; pl_id : string }.

(** The keys [analyze_playlist] reads from [sp.track(...)]. *)
Record AlbumInfo :=
  { info_name : string; info_release_date : option string;
    info_album_type : string }.
Record TrackDetail :=
  { detail_id : string; detail_name : string; detail_artists : list Artist;
    detail_album : AlbumInfo; detail_duration_ms : nat;
    detail_popularity : nat; detail_preview_url : option string;
    detail_external_url : string; detail_track_number : nat }.

(** The float [round(duration_ms / 60000, 2)], kept as the integer it is
    computed from. *)
Inductive rounded_minutes := RoundedMinutes (duration_ms : nat).

(** A row of the exported table. *)
Record Row :=
  { row_track_id : string; row_track_name : string; row_artists : string;
    row_album : string; row_release_date : string; row_duration_ms : nat;
    row_duration_min : rounded_minutes; row_popularity : nat;
    row_preview_url : option string; row_external_url : string;
    row_track_number : nat; row_album_type : string }.

(** An element of [sp.audio_features(...)]: a dict of measurements, of which
    nothing is read. *)
Record AudioFeatures := { features_track_id : string }.

Inductive account_call :=
| CallCurrentUserPlaylists (offset : nat)
| CallUserPlaylistCreate (user_id name : string) (public : bool)
    (description : string)
| CallTrackDetail (track_id : string)
| CallAudioFeatures (track_id : string).

Inductive note :=
| NoteFoundExisting (name : string)
| NoteCreating (name : string)
| NoteFetchingFeatures (total_tracks : nat)
| NoteProcessingTrack (i total_tracks : nat)
| NoteNoFeatures (track_id : string)
| NoteFeaturesError (track_id : string) (e : SpotifyException)
| NoteStartingAnalysis
| NoteFetchingPlaylistTracks
| NoteFoundTracks (total_tracks : nat)
| NoteFetchingTrackDetails
| NoteProcessedTracks (i total_tracks : nat)
| NoteTrackError (track_id : string) (e : exn)
| NoteAnalysisComplete (output_file : string).

Inductive xevent :=
| XBase (ev : event)
| XCall (c : account_call)
| XNote (n : note)
| XWriteCsv (output_file : string) (rows : list Row).

Record XWorld := { xncalls : nat; xtrace : list xevent }.

Definition xw0 : XWorld := {| xncalls := 0; xtrace := [] |}.

(** The account side of the remote client and the file system, scripted like
    [Client]: answers depend on the number of API calls made before. *)
Record Account :=
  { current_user_playlists : nat -> nat -> outcome (list Playlist);
    user_playlist_create :
      nat -> string -> string -> bool -> string -> outcome Playlist;
    track_detail : nat -> string -> outcome TrackDetail;
    audio_features : nat -> string -> outcome (list (option AudioFeatures));
    to_csv : string -> list Row -> outcome unit }.

Inductive xresult (A : Type) :=
| XOk (a : A) (w : XWorld)
| XRaise (e : exn) (w : XWorld)
| XOutOfFuel.
Arguments XOk {A} a w.
Arguments XRaise {A} e w.
Arguments XOutOfFuel {A}.

Definition XM (A : Type) : Type := XWorld -> xresult A.

Definition xret {A} (a : A) : XM A := fun w => XOk a w.

Definition xbind {A B} (m : XM A) (k : A -> XM B) : XM B :=
  fun w => match m w with
           | XOk a w' => k a w'
           | XRaise e w' => XRaise e w'
           | XOutOfFuel => XOutOfFuel
           end.

Notation "x <-- m ;; k" := (xbind m (fun x => k))
  (at level 90, m at level 60, right associativity, only parsing).
Notation "m ;;;; k" := (xbind m (fun _ => k))
  (at level 90, right associativity, only parsing).

Definition xtry_except {A} (m : XM A) (h : exn -> XM A) : XM A :=
  fun w => match m w with
           | XRaise e w' => h e w'
           | r => r
           end.

Definition xout_of_fuel {A} : XM A := fun _ => XOutOfFuel.

Definition xemit (ev : xevent) : XM unit :=
  fun w => XOk tt {| xncalls := xncalls w; xtrace := xtrace w ++ [ev] |}.

Definition xprint (n : note) : XM unit := xemit (XNote n).
Definition xsleep (seconds : nat) : XM unit := xemit (XBase (EvSleep seconds)).

Definition xcall {A} (c : account_call) (answer : nat -> outcome A) : XM A :=
  fun w =>
    let w' := {| xncalls := S (xncalls w); xtrace := xtrace w ++ [XCall c] |} in
    match answer (xncalls w) with
    | Returns a => XOk a w'
    | Raises e => XRaise e w'
    end.

(** Running a computation of the first model: it starts from the current
    call count, and its events are appended to the trace. *)
Definition lift {A} (m : M A) : XM A :=
  fun w =>
    match m {| ncalls := xncalls w; trace := [] |} with
    | Ok a w' =>
        XOk a {| xncalls := ncalls w'; xtrace := xtrace w ++ (XBase <$> trace w') |}
    | Raise e w' =>
        XRaise e {| xncalls := ncalls w'; xtrace := xtrace w ++ (XBase <$> trace w') |}
    | OutOfFuel => XOutOfFuel
    end.

Fixpoint xfor_each {A S} (l : list A) (body : A -> S -> XM S) (s : S) : XM S :=
  match l with
  | [] => xret s
  | x :: l' => s' <-- body x s ;; xfor_each l' body s'
  end.

(** Projections of the extended trace. *)
Definition account_calls (tr : list xevent) : list account_call :=
  omap (fun ev => match ev with XCall c => Some c | _ => None end) tr.

Definition created_playlists (tr : list xevent) : list account_call :=
  omap (fun ev => match ev with
                  | XCall (CallUserPlaylistCreate u n p d) =>
                      Some (CallUserPlaylistCreate u n p d)
                  | _ => None
                  end) tr.

Definition written_tables (tr : list xevent) : list (string * list Row) :=
  omap (fun ev => match ev with
                  | XWriteCsv f rows => Some (f, rows)
                  | _ => None
                  end) tr.

Definition xsleeps (tr : list xevent) : list nat :=
  omap (fun ev => match ev with XBase (EvSleep d) => Some d | _ => None end) tr.

(* ================================================================== *)
(** ** spotify.py: playlist lookup and creation *)
(* ================================================================== *)

Module SpotifyAccount.

Section WithAccount.
Variable acct : Account.
Variable user_id : string.

Definition sp_current_user_playlists (offset : nat) : XM (list Playlist) :=
  xcall (CallCurrentUserPlaylists offset)
        (fun n => current_user_playlists acct n offset).

Definition sp_user_playlist_create (name : string) (public : bool)
    (description : string) : XM Playlist :=
  xcall (CallUserPlaylistCreate user_id name public description)
        (fun n => user_playlist_create acct n user_id name public description).

(** The [while True] loop of [get_all_playlists]. *)
Fixpoint get_all_playlists_loop (fuel : nat) (playlists : list Playlist)
    (offset : nat) : XM (list Playlist) :=
  match fuel with
  | O => xout_of_fuel
  | S fuel' =>
      response_items <-- sp_current_user_playlists offset ;;
      let playlists := playlists ++ response_items in
      if length response_items <? 50 then xret playlists
      else get_all_playlists_loop fuel' playlists (offset + 50)
  end.

Definition get_all_playlists (fuel : nat) : XM (list Playlist) :=
  get_all_playlists_loop fuel [] 0.

(** [next((p for p in playlists if p['name'] == playlist_name), None)],
    then its id. *)
Definition first_named (playlists : list Playlist) (playlist_name : string)
  : option string :=
  pl_id <$> List.find (fun playlist => String.eqb (pl_name playlist) playlist_name)
                      playlists.

Definition find_playlist_by_name (fuel : nat) (playlist_name : string)
  : XM (option string) :=
  playlists <-- get_all_playlists fuel ;;
  xret (first_named playlists playlist_name).

Definition create_playlist (name description : string) (public : bool)
  : XM string :=
  playlist <-- sp_user_playlist_create name public description ;;
  xret (pl_id playlist).

(** [if playlist_id:] is false for [None] and for the empty string. *)
Definition get_or_create_playlist (fuel : nat) (name description : string)
  : XM string :=
  playlist_id <-- find_playlist_by_name fuel name ;;
  match playlist_id with
  | Some id =>
      if Py.truthy id then xprint (NoteFoundExisting name) ;;;; xret id
      else xprint (NoteCreating name) ;;;; create_playlist name description false
  | None => xprint (NoteCreating name) ;;;; create_playlist name description false
  end.

End WithAccount.
End SpotifyAccount.

(* ================================================================== *)
(** ** clean.py and remove.py: [get_playlist_id] *)
(* ================================================================== *)

(** The two scripts hold the same function, word for word. *)
Module CleanLookup.

Section WithAccount.
Variable acct : Account.

Definition sp_current_user_playlists (offset : nat) : XM (list Playlist) :=
  xcall (CallCurrentUserPlaylists offset)
        (fun n => current_user_playlists acct n offset).

Fixpoint get_playlist_id_loop (fuel : nat) (playlists : list Playlist)
    (offset : nat) : XM (list Playlist) :=
  match fuel with
  | O => xout_of_fuel
  | S fuel' =>
      response_items <-- sp_current_user_playlists offset ;;
      let playlists := playlists ++ response_items in
      if length response_items <? 50 then xret playlists
      else get_playlist_id_loop fuel' playlists (offset + 50)
  end.

Definition get_playlist_id (fuel : nat) (playlist_name : string)
  : XM (option string) :=
  playlists <-- get_playlist_id_loop fuel [] 0 ;;
  xret (pl_id <$> List.find (fun pl => String.eqb (pl_name pl) playlist_name)
                            playlists).

End WithAccount.
End CleanLookup.

Module RemoveLookup.

Section WithAccount.
Variable acct : Account.

Definition sp_current_user_playlists (offset : nat) : XM (list Playlist) :=
  xcall (CallCurrentUserPlaylists offset)
        (fun n => current_user_playlists acct n offset).

Fixpoint get_playlist_id_loop (fuel : nat) (playlists : list Playlist)
    (offset : nat) : XM (list Playlist) :=
  match fuel with
  | O => xout_of_fuel
  | S fuel' =>
      response_items <-- sp_current_user_playlists offset ;;
      let playlists := playlists ++ response_items in
      if length response_items <? 50 then xret playlists
      else get_playlist_id_loop fuel' playlists (offset + 50)
  end.

Definition get_playlist_id (fuel : nat) (playlist_name : string)
  : XM (option string) :=
  playlists <-- get_playlist_id_loop fuel [] 0 ;;
  xret (pl_id <$> List.find (fun pl => String.eqb (pl_name pl) playlist_name)
                            playlists).

End WithAccount.
End RemoveLookup.

(* ================================================================== *)
(** ** analyzer.py: [get_audio_features] and [analyze_playlist] *)
(* ================================================================== *)

Module AnalyzerReport.

Definition RATE_LIMIT_DELAY : nat := 1.

(** The row built from one track record. *)
Definition track_data (track : TrackDetail) : Row :=
  let artists := Py.join ", " (artist_name <$> detail_artists track) in
  {| row_track_id := detail_id track;
     row_track_name := detail_name track;
     row_artists := artists;
     row_album := info_name (detail_album track);
     row_release_date := default "" (info_release_date (detail_album track));
     row_duration_ms := detail_duration_ms track;
     row_duration_min := RoundedMinutes (detail_duration_ms track);
     row_popularity := detail_popularity track;
     row_preview_url := detail_preview_url track;
     row_external_url := detail_external_url track;
     row_track_number := detail_track_number track;
     row_album_type := info_album_type (detail_album track) |}.

Section WithClients.
Variable sp : Client.
Variable acct : Account.

Definition sp_track (track_id : string) : XM TrackDetail :=
  xcall (CallTrackDetail track_id) (fun n => track_detail acct n track_id).

Definition sp_audio_features (track_id : string)
  : XM (list (option AudioFeatures)) :=
  xcall (CallAudioFeatures track_id) (fun n => audio_features acct n track_id).

Definition df_to_csv (output_file : string) (rows : list Row) : XM unit :=
  fun w =>
    let w' := {| xncalls := xncalls w;
                 xtrace := xtrace w ++ [XWriteCsv output_file rows] |} in
    match to_csv acct output_file rows with
    | Returns _ => XOk tt w'
    | Raises e => XRaise e w
    end.

(** One round of the [for] loop of [get_audio_features]. *)
Definition get_audio_features_body (total_tracks : nat) (entry : nat * string)
    (features : list AudioFeatures) : XM (list AudioFeatures) :=
  let '(i, track_id) := entry in
  xtry_except
    (xprint (NoteProcessingTrack i total_tracks) ;;;;
     feature <-- sp_audio_features track_id ;;
     features <--
       match feature with
       | Some first :: _ => xret (features ++ [first])
       | _ => xprint (NoteNoFeatures track_id) ;;;; xret features
       end ;;
     (if i mod 10 =? 0 then xsleep RATE_LIMIT_DELAY else xret tt) ;;;;
     xret features)
    (fun e =>
       match e with
       | Spotify e' => xprint (NoteFeaturesError track_id e') ;;;; xret features
       | _ => fun w => XRaise e w
       end).

Definition get_audio_features (track_ids : list string)
  : XM (list AudioFeatures) :=
  let total_tracks := length track_ids in
  xprint (NoteFetchingFeatures total_tracks) ;;;;
  xfor_each (Py.enumerate track_ids 1) (get_audio_features_body total_tracks) [].

(** One round of the [for] loop of [analyze_playlist]. *)
Definition analyze_playlist_body (total_tracks : nat) (entry : nat * string)
    (export_data : list Row) : XM (list Row) :=
  let '(i, track_id) := entry in
  xtry_except
    (track <-- sp_track track_id ;;
     let export_data := export_data ++ [track_data track] in
     (if i mod 20 =? 0
      then xprint (NoteProcessedTracks i total_tracks) ;;;;
           xsleep RATE_LIMIT_DELAY
      else xret tt) ;;;;
     xret export_data)
    (fun e => xprint (NoteTrackError track_id e) ;;;; xret export_data).

Definition analyze_playlist (fuel : nat) (playlist_id output_file : string)
  : XM unit :=
  xprint NoteStartingAnalysis ;;;;
  xprint NoteFetchingPlaylistTracks ;;;;
  track_ids <-- lift (Analyzer.get_playlist_tracks sp fuel playlist_id) ;;
  let total_tracks := length track_ids in
  xprint (NoteFoundTracks total_tracks) ;;;;
  xprint NoteFetchingTrackDetails ;;;;
  export_data <--
    xfor_each (Py.enumerate track_ids 1) (analyze_playlist_body total_tracks) [] ;;
  df_to_csv output_file export_data ;;;;
  xprint (NoteAnalysisComplete output_file).

End WithClients.
End AnalyzerReport.

(** *** Reference definitions and scripted accounts for the account side *)

(** A listing of playlists served honestly, 50 per page. *)
Definition serves_playlists (acct : Account) (listing : list Playlist) : Prop :=
  forall n offset,
    current_user_playlists acct n offset = Returns (take 50 (drop offset listing)).

(** The rows of the tracks whose fetch succeeds, when the fetch of the first
    id is the [n]-th API call of the run and every id costs one call. *)
Fixpoint fetched_rows (acct : Account) (n : nat) (track_ids : list string)
  : list Row :=
  match track_ids with
  | [] => []
  | track_id :: rest =>
      match track_detail acct n track_id with
      | Returns track => [AnalyzerReport.track_data track]
      | Raises _ => []
      end ++ fetched_rows acct (S n) rest
  end.

(** The features gathered from the answers that are a non-empty list whose
    first element is not null. *)
Fixpoint fetched_features (acct : Account) (n : nat) (track_ids : list string)
  : list AudioFeatures :=
  match track_ids with
  | [] => []
  | track_id :: rest =>
      match audio_features acct n track_id with
      | Returns (Some first :: _) => [first]
      | _ => []
      end ++ fetched_features acct (S n) rest
  end.

Definition demo_detail (track_id : string) : TrackDetail :=
  {| detail_id := track_id; detail_name := "Song " +:+ track_id;
     detail_artists := [ {| artist_name := "A" |}; {| artist_name := "B" |} ];
     detail_album := {| info_name := "Album"; info_release_date := None;
                        info_album_type := "single" |};
     detail_duration_ms := 2400; detail_popularity := 50;
     detail_preview_url := None;
     detail_external_url := "https://open.spotify.com/track/" +:+ track_id;
     detail_track_number := 1 |}.

Definition not_found : exn := Spotify {| http_status := 404; headers := ∅ |}.

(** An account holding the playlists [listing], where the track [bad] cannot
    be fetched (404 from the track endpoint, a timeout from the features
    endpoint) and the track [dull] has no features. *)
Definition demo_account (listing : list Playlist) (bad dull : string) : Account :=
  {| current_user_playlists := fun _ offset =>
       Returns (take 50 (drop offset listing));
     user_playlist_create := fun _ _ name _ _ =>
       Returns {| pl_name := name; pl_id := "new-" +:+ name |};
     track_detail := fun _ track_id =>
       if String.eqb track_id bad then Raises not_found
       else Returns (demo_detail track_id);
     audio_features := fun _ track_id =>
       if String.eqb track_id bad then Raises timeout_error
       else if String.eqb track_id dull then Returns [None]
       else Returns [Some {| features_track_id := track_id |}];
     to_csv := fun _ _ => Returns tt |}.

Definition demo_listing : list Playlist :=
  [ {| pl_name := "Focus"; pl_id := "id1" |};
    {| pl_name := "Run"; pl_id := "id2" |};
    {| pl_name := "Focus"; pl_id := "id3" |} ].





(* ================================================================== *)
(** * Properties *)
(* ================================================================== *)

(** ** The primitives on examples *)

Example split_colons : Py.split "a:b::c" ":" = ["a"; "b"; ""; "c"].
Proof. reflexivity. Qed.

Example split_long_separator :
  Py.split "xplaylist/yplaylist/" "playlist/" = ["x"; "y"; ""].
Proof. reflexivity. Qed.

Example split_no_overlap : Py.split "aaa" "aa" = [""; "a"].
Proof. reflexivity. Qed.

Example split_absent : Py.split "abc" "?" = ["abc"].
Proof. reflexivity. Qed.

Example strip_blanks : Py.strip "  a b  " = "a b".
Proof. reflexivity. Qed.

Example lower_mixed : Py.lower "Lofi Beats" = "lofi beats".
Proof. reflexivity. Qed.

Example range_uneven : Py.range 0 250 100 = [0; 100; 200].
Proof. reflexivity. Qed.

Example range_even : Py.range 0 200 100 = [0; 100].
Proof. reflexivity. Qed.

Example range_empty : Py.range 0 0 100 = [].
Proof. reflexivity. Qed.

Example join_blank : Py.join " " ["a"; "b"; "c"] = "a b c".
Proof. reflexivity. Qed.

Example enumerate_from_one : Py.enumerate ["x"; "y"] 1 = [(1, "x"); (2, "y")].
Proof. reflexivity. Qed.

Example exclude_by_artist : Spotify.should_exclude_track rock_track "the band" = true.
Proof. reflexivity. Qed.

Example exclude_by_label : Spotify.should_exclude_track rock_track "columbia" = true.
Proof. reflexivity. Qed.

Example keep_unrelated : Spotify.should_exclude_track rock_track "lofi" = false.
Proof. reflexivity. Qed.

(** [split] never yields an empty list, so [[-1]] and [[0]] are defined. *)
Lemma split_go_nonempty sep : forall s skip cur, Py.split_go sep skip cur s ≠ [].
Proof.
  induction s as [|c s IH]; intros skip cur; [done |].
  cbn [Py.split_go]. destruct skip; [| apply IH].
  destruct (String.prefix sep (String c s)); [done | apply IH].
Qed.

Lemma split_nonempty s sep : Py.split s sep ≠ [].
Proof. apply split_go_nonempty. Qed.

(** ** Arithmetic of chunk counts *)

Lemma ceil_div_covers (n B : nat) : 0 < B -> n ≤ (n + B - 1) / B * B.
Proof.
  intros HB.
  pose proof (Nat.div_mod_eq (n + B - 1) B) as Hd.
  pose proof (Nat.mod_upper_bound (n + B - 1) B) as Hm.
  lia.
Qed.

Lemma ceil_div_tight (n B : nat) :
  0 < B -> 0 < n -> ((n + B - 1) / B - 1) * B < n.
Proof.
  intros HB Hn.
  pose proof (Nat.div_mod_eq (n + B - 1) B) as Hd.
  pose proof (Nat.mod_upper_bound (n + B - 1) B) as Hm.
  assert (0 < (n + B - 1) / B) by (apply Nat.div_str_pos; lia).
  nia.
Qed.

(** ** The batcher *)

Section Batcher.
Context {A : Type}.
Implicit Types (l : list A) (B : nat).

Lemma batches_unfold B l :
  batches B l = (fun k => take B (drop (k * B) l)) <$> seq 0 ((length l + B - 1) / B).
Proof.
  unfold batches, Py.range, Py.slice.
  rewrite Nat.sub_0_r, <- list_fmap_compose.
  apply list_fmap_ext. intros _ k _. simpl.
  f_equal. lia.
Qed.

Lemma chunks_concat B n : forall l,
  length l ≤ n * B ->
  concat ((fun k => take B (drop (k * B) l)) <$> seq 0 n) = l.
Proof.
  induction n as [|n IH]; intros l Hlen.
  - destruct l; [reflexivity | simpl in Hlen; lia].
  - rewrite <- cons_seq, <- fmap_S_seq. simpl.
    rewrite <- list_fmap_compose.
    rewrite (list_fmap_ext _ (fun k => take B (drop (k * B) (drop B l)))).
    + rewrite IH; [apply take_drop |]. rewrite length_drop. lia.
    + intros _ k _. simpl. rewrite drop_drop. reflexivity.
Qed.

Lemma batches_concat B l : 0 < B -> concat (batches B l) = l.
Proof.
  intros HB. rewrite batches_unfold. apply chunks_concat.
  apply ceil_div_covers, HB.
Qed.

Lemma batches_length B l : length (batches B l) = (length l + B - 1) / B.
Proof. rewrite batches_unfold, length_fmap, length_seq. reflexivity. Qed.

Lemma batches_lookup B l i chunk :
  batches B l !! i = Some chunk ->
  i < (length l + B - 1) / B ∧ chunk = take B (drop (i * B) l).
Proof.
  rewrite batches_unfold, list_lookup_fmap.
  destruct (seq 0 _ !! i) as [k|] eqn:Hk; simpl; [|discriminate].
  apply lookup_seq in Hk as [-> Hlt]. intros [= <-]. split; [lia | reflexivity].
Qed.

End Batcher.

(** ** Deduplication: the scan *)

Lemma scan_snoc tracks t :
  Clean.scan (tracks ++ [t]) = Clean.scan_step (Clean.scan tracks) t.
Proof. unfold Clean.scan. apply foldl_snoc. Qed.

Lemma scan_seen tracks :
  (Clean.scan tracks).1 = list_to_set (ref_id <$> tracks).
Proof.
  induction tracks as [|t tracks IH] using rev_ind; [reflexivity |].
  rewrite scan_snoc, fmap_app, list_to_set_app_L. simpl.
  destruct (Clean.scan tracks) as [seen dups]. simpl in *. subst seen.
  rewrite union_empty_r_L.
  destruct (decide _) as [Hin | Hnin]; simpl; [| reflexivity].
  apply leibniz_equiv. intros x.
  rewrite elem_of_union, elem_of_singleton. split; [by left |].
  intros [Hx | ->]; [exact Hx | exact Hin].
Qed.

Lemma repeat_uris_snoc tracks t :
  repeat_uris (tracks ++ [t]) =
  repeat_uris tracks
  ++ (if bool_decide (ref_id t ∈ ref_id <$> tracks) then [ref_uri t] else []).
Proof.
  unfold repeat_uris. rewrite length_app. simpl.
  rewrite Nat.add_1_r, seq_S, omap_app. f_equal.
  - apply list_omap_ext, Forall_Forall2_diag, Forall_seq.
    intros i [_ Hi]. simpl in Hi. unfold is_repeat.
    rewrite lookup_app_l by lia. rewrite take_app_le by lia. reflexivity.
  - simpl. unfold is_repeat.
    rewrite list_lookup_middle by reflexivity.
    rewrite take_app_length. simpl.
    destruct (bool_decide _); reflexivity.
Qed.

Lemma find_duplicates_repeat_uris tracks :
  Clean.find_duplicates tracks = repeat_uris tracks.
Proof.
  unfold Clean.find_duplicates.
  induction tracks as [|t tracks IH] using rev_ind; [reflexivity |].
  rewrite scan_snoc, repeat_uris_snoc.
  pose proof (scan_seen tracks) as Hseen.
  destruct (Clean.scan tracks) as [seen dups]. simpl in *. subst seen dups.
  destruct (decide _) as [Hin | Hnin]; simpl.
  - rewrite bool_decide_eq_true_2; [reflexivity |].
    by apply elem_of_list_to_set in Hin.
  - rewrite bool_decide_eq_false_2; [by rewrite app_nil_r |].
    intros Hin. apply Hnin. by apply elem_of_list_to_set.
Qed.

(** ** Running computations *)

Lemma world_eta w : {| ncalls := ncalls w; trace := trace w |} = w.
Proof. by destruct w. Qed.

Lemma sleeps_app tr1 tr2 : sleeps (tr1 ++ tr2) = sleeps tr1 ++ sleeps tr2.
Proof. apply omap_app. Qed.

Lemma calls_app tr1 tr2 : calls (tr1 ++ tr2) = calls tr1 ++ calls tr2.
Proof. apply omap_app. Qed.

Lemma added_batches_app tr1 tr2 :
  added_batches (tr1 ++ tr2) = added_batches tr1 ++ added_batches tr2.
Proof. apply omap_app. Qed.

Lemma sleeps_backoff c R rc k hs :
  sleeps (backoff_trace c R rc k hs) = (fun i => suggested_wait (hs i)) <$> seq 0 k.
Proof.
  revert rc hs. induction k as [|k IH]; intros rc hs; [reflexivity |].
  simpl. rewrite IH, <- fmap_S_seq, <- list_fmap_compose. reflexivity.
Qed.

Lemma calls_backoff c R rc k hs :
  calls (backoff_trace c R rc k hs) = replicate k c.
Proof.
  revert rc hs. induction k as [|k IH]; intros rc hs; [reflexivity |].
  simpl. by rewrite IH.
Qed.

(** ** Reading the wait of a rate-limit response *)

Example int_plain : Py.int "30" = Some 30%Z.
Proof. reflexivity. Qed.

Example int_signed_and_padded : Py.int " -1_0 " = Some (-10)%Z.
Proof. reflexivity. Qed.

Example int_date : Py.int "Wed, 21 Oct 2015 07:28:00 GMT" = None.
Proof. reflexivity. Qed.

Example int_fraction : Py.int "1.5" = None.
Proof. reflexivity. Qed.

Lemma int_digits_numeral u : forall acc,
  Py.int_digits (DecimalString.NilEmpty.string_of_uint u) acc true
  = Some (Nat.of_uint_acc u acc).
Proof.
  induction u as [|u IH|u IH|u IH|u IH|u IH|u IH|u IH|u IH|u IH|u IH];
    intros acc; [reflexivity | ..];
    cbn [DecimalString.NilEmpty.string_of_uint Py.int_digits Nat.of_uint_acc];
    (etransitivity; [apply IH |]); do 2 f_equal;
    rewrite Nat.tail_mul_spec; cbn; lia.
Qed.

(** [int] reads a decimal numeral back. *)
Lemma int_decimal n : Py.int (decimal n) = Some (Z.of_nat n).
Proof.
  pose proof (DecimalNat.Unsigned.of_to n) as Hn.
  unfold decimal, Nat.of_uint in *.
  destruct (Nat.to_uint n) as [|u|u|u|u|u|u|u|u|u|u];
    cbn [Nat.of_uint_acc] in Hn; [by subst n | ..];
    unfold Py.int, DecimalString.NilZero.string_of_uint;
    cbn [DecimalString.NilEmpty.string_of_uint Py.int_lstrip Py.int_digits];
    (etransitivity; [apply (f_equal (fmap Z.of_nat)), int_digits_numeral |]);
    cbn [fmap option_fmap option_map]; do 2 f_equal; exact Hn.
Qed.

Lemma retry_after_rendered status hdrs :
  retry_after {| http_status := status; headers := decimal <$> hdrs |}
  = Some (Z.of_nat (suggested_wait hdrs)).
Proof.
  unfold retry_after, suggested_wait. cbn [headers]. rewrite lookup_fmap.
  destruct (hdrs !! "Retry-After") as [d|]; [apply int_decimal | reflexivity].
Qed.

Lemma plain_wait_retry_after e :
  plain_wait e = true -> exists d : nat, retry_after e = Some (Z.of_nat d).
Proof.
  unfold plain_wait, retry_after.
  destruct (headers e !! "Retry-After") as [value|]; [| by exists 1].
  destruct (Py.int value) as [z|]; [| discriminate].
  intros Hplain. exists (Z.to_nat z). f_equal.
  apply andb_prop in Hplain as [Hrange _].
  apply andb_prop in Hrange as [Hpos _]. lia.
Qed.

Lemma retry_after_none_not_plain e : retry_after e = None -> plain_wait e = false.
Proof.
  unfold plain_wait, retry_after.
  destruct (headers e !! "Retry-After") as [value|]; [| discriminate].
  by intros ->.
Qed.

Lemma retry_after_negative_not_plain e z :
  retry_after e = Some z -> (z < 0)%Z -> plain_wait e = false.
Proof.
  unfold plain_wait, retry_after.
  destruct (headers e !! "Retry-After") as [value|].
  - intros -> Hneg. rewrite (proj2 (Z.leb_gt 0 z)) by lia. reflexivity.
  - intros [= <-] Hneg. unfold Spotify.RATE_LIMIT_DELAY in Hneg. lia.
Qed.

(** What the handler does with a rate-limit response. *)
Lemma handle_rate_limit_429 e retry_count max_retries ctx w :
  http_status e = 429 ->
  Spotify._handle_rate_limit e retry_count max_retries ctx w
  = match retry_after e with
    | Some z =>
        if (z <? 0)%Z
        then Raise (ValueError "sleep length must be non-negative")
               {| ncalls := ncalls w;
                  trace := trace w
                    ++ [EvPrint (MsgRateLimit z (retry_count + 1) max_retries)] |}
        else Ok (retry_count + 1)
               {| ncalls := ncalls w;
                  trace := trace w
                    ++ [EvPrint (MsgRateLimit z (retry_count + 1) max_retries);
                        EvSleep (Z.to_nat z)] |}
    | None => Raise (ValueError "invalid literal for int() with base 10") w
    end.
Proof.
  intros Hstatus. unfold Spotify._handle_rate_limit, retry_after.
  rewrite Hstatus, Nat.eqb_refl. unfold bind at 1.
  destruct (headers e !! "Retry-After") as [value|].
  - unfold int_. destruct (Py.int value) as [z|]; [| reflexivity].
    unfold ret at 1, bind at 1, print at 1, emit at 1, bind at 1, time_sleep.
    destruct (z <? 0)%Z; [reflexivity |].
    unfold sleep, emit, ret. cbn [ncalls trace]. by rewrite <- app_assoc.
  - unfold ret at 1, bind at 1, print at 1, emit at 1, bind at 1, time_sleep.
    change (Z.of_nat Spotify.RATE_LIMIT_DELAY <? 0)%Z with false.
    unfold sleep, emit, ret. cbn [ncalls trace]. by rewrite <- app_assoc.
Qed.

(** ** The retry wrapper around [sp.track] *)

Section ProcessTrack.
Variable sp : Client.
Variables track_id exclude_keyword : string.

Local Abbreviation loop := (Spotify._process_track_with_retry_loop sp).

(** One rate-limited attempt: the handler converts the wait and sleeps, or
    what it raises leaves the loop. *)
Lemma process_loop_rate_limited fuel retry_count max_retries e w :
  retry_count < max_retries ->
  track sp (ncalls w) track_id = Raises (Spotify e) ->
  http_status e = 429 ->
  loop (S fuel) retry_count max_retries track_id exclude_keyword w
  = match retry_after e with
    | Some z =>
        if (z <? 0)%Z
        then Raise (ValueError "sleep length must be non-negative")
               {| ncalls := S (ncalls w);
                  trace := trace w
                    ++ [EvCall (CallTrack track_id);
                        EvPrint (MsgRateLimit z (retry_count + 1) max_retries)] |}
        else loop fuel (retry_count + 1) max_retries track_id exclude_keyword
               {| ncalls := S (ncalls w);
                  trace := trace w
                    ++ [EvCall (CallTrack track_id);
                        EvPrint (MsgRateLimit z (retry_count + 1) max_retries);
                        EvSleep (Z.to_nat z)] |}
    | None =>
        Raise (ValueError "invalid literal for int() with base 10")
          {| ncalls := S (ncalls w);
             trace := trace w ++ [EvCall (CallTrack track_id)] |}
    end.
Proof.
  intros Hrc Hraise Hstatus.
  cbn [Spotify._process_track_with_retry_loop].
  rewrite (proj2 (Nat.ltb_lt retry_count max_retries)) by lia.
  unfold try_except at 1, bind at 1, Spotify.sp_track, call.
  rewrite Hraise. unfold bind at 1.
  rewrite handle_rate_limit_429 by exact Hstatus.
  destruct (retry_after e) as [z|]; [| reflexivity].
  destruct (z <? 0)%Z; cbn [ncalls trace]; by rewrite <- app_assoc.
Qed.

(** [k] rate-limited attempts in a row move the loop [k] rounds ahead. *)
Lemma process_loop_backoff k : forall fuel retry_count max_retries hs w,
  k ≤ fuel ->
  retry_count + k ≤ max_retries ->
  (forall i, i < k -> track sp (ncalls w + i) track_id = rate_limited (hs i)) ->
  loop fuel retry_count max_retries track_id exclude_keyword w =
  loop (fuel - k) (retry_count + k) max_retries track_id exclude_keyword
    {| ncalls := ncalls w + k;
       trace := trace w ++ backoff_trace (CallTrack track_id) max_retries
                             retry_count k hs |}.
Proof.
  induction k as [|k IH]; intros fuel rc R hs w Hfuel Hrc Hfail.
  - rewrite Nat.sub_0_r, !Nat.add_0_r, app_nil_r, world_eta. reflexivity.
  - destruct fuel as [|fuel]; [lia |].
    specialize (Hfail 0 ltac:(lia)) as H0. rewrite Nat.add_0_r in H0.
    rewrite (process_loop_rate_limited fuel rc R _ w ltac:(lia) H0 eq_refl).
    rewrite retry_after_rendered.
    rewrite (proj2 (Z.ltb_ge _ 0)) by lia.
    rewrite Nat2Z.id.
    rewrite (IH fuel (rc + 1) R (fun i => hs (S i))); [| lia | lia |].
    + cbn [ncalls trace backoff_trace Nat.sub]. f_equal; [lia |].
      f_equal; [lia |]. rewrite <- !app_assoc. reflexivity.
    + intros i Hi. cbn [ncalls]. rewrite <- (Hfail (S i)) by lia. f_equal. lia.
Qed.

Lemma process_loop_success fuel retry_count max_retries t w :
  retry_count < max_retries ->
  track sp (ncalls w) track_id = Returns t ->
  loop (S fuel) retry_count max_retries track_id exclude_keyword w =
  Ok (if Spotify.should_exclude_track t exclude_keyword then None
      else Some track_id)
     {| ncalls := S (ncalls w);
        trace := trace w ++ [EvCall (CallTrack track_id)] |}.
Proof.
  intros Hrc Hret. simpl.
  rewrite (proj2 (Nat.ltb_lt _ _)) by lia.
  unfold try_except, bind, Spotify.sp_track, call. rewrite Hret.
  destruct (Spotify.should_exclude_track t exclude_keyword); reflexivity.
Qed.

Lemma process_loop_exhausted fuel retry_count max_retries w :
  max_retries ≤ retry_count ->
  loop (S fuel) retry_count max_retries track_id exclude_keyword w = Ok None w.
Proof.
  intros Hrc. simpl. rewrite (proj2 (Nat.ltb_ge _ _)) by lia. reflexivity.
Qed.

(** A [SpotifyException] that is not a 429 forces the counter to the bound:
    the next test of the loop condition fails. *)
Lemma process_loop_spotify_error fuel retry_count max_retries e w :
  retry_count < max_retries ->
  http_status e ≠ 429 ->
  track sp (ncalls w) track_id = Raises (Spotify e) ->
  loop (S (S fuel)) retry_count max_retries track_id exclude_keyword w =
  Ok None
     {| ncalls := S (ncalls w);
        trace := trace w ++ [EvCall (CallTrack track_id);
                             EvPrint (MsgError (ProcessingTrack track_id) e)] |}.
Proof.
  intros Hrc Hstatus Hraise.
  simpl Spotify._process_track_with_retry_loop at 1.
  rewrite (proj2 (Nat.ltb_lt _ _)) by lia.
  unfold try_except at 1, bind at 1, Spotify.sp_track, call. rewrite Hraise.
  unfold bind at 1, Spotify._handle_rate_limit.
  rewrite (proj2 (Nat.eqb_neq _ _)) by assumption.
  unfold bind at 1, print, emit. unfold ret at 1.
  rewrite Nat.ltb_irrefl. simpl.
  rewrite <- app_assoc. reflexivity.
Qed.

(** Any other exception leaves the loop at once. *)
Lemma process_loop_other_error fuel retry_count max_retries e w :
  retry_count < max_retries ->
  (forall e', e ≠ Spotify e') ->
  track sp (ncalls w) track_id = Raises e ->
  loop (S fuel) retry_count max_retries track_id exclude_keyword w =
  Ok None
     {| ncalls := S (ncalls w);
        trace := trace w ++ [EvCall (CallTrack track_id);
                             EvPrint (MsgUnexpected (ProcessingTrack track_id) e)] |}.
Proof.
  intros Hrc Hother Hraise. simpl.
  rewrite (proj2 (Nat.ltb_lt _ _)) by lia.
  unfold try_except, bind at 1, Spotify.sp_track, call. rewrite Hraise.
  destruct e as [e' | msg | msg]; [by destruct (Hother e') | |];
    unfold bind, print, emit, ret; simpl; rewrite <- app_assoc; reflexivity.
Qed.

(** Whatever the remote does, the loop ends within the attempts left, having
    slept at most once per attempt: it returns the given id or [None], or an
    exception leaves it from the handler of a rate-limit response whose wait
    is not plain. *)
Lemma process_loop_bounded fuel : forall retry_count max_retries w,
  max_retries - retry_count < fuel ->
  exists delta n,
    calls delta = replicate n (CallTrack track_id)
    ∧ n ≤ max_retries - retry_count
    ∧ (retry_count < max_retries -> 1 ≤ n)
    ∧ length (sleeps delta) ≤ n
    ∧ ((exists r,
          loop fuel retry_count max_retries track_id exclude_keyword w
          = Ok r {| ncalls := ncalls w + n; trace := trace w ++ delta |}
          ∧ (r = None ∨ r = Some track_id))
       ∨ (exists e e0 i,
            loop fuel retry_count max_retries track_id exclude_keyword w
            = Raise e {| ncalls := ncalls w + n; trace := trace w ++ delta |}
            ∧ track sp (ncalls w + i) track_id = Raises (Spotify e0)
            ∧ http_status e0 = 429
            ∧ plain_wait e0 = false)).
Proof.
  induction fuel as [|fuel IH]; intros rc R w Hfuel; [lia |].
  destruct (decide (rc < R)) as [Hlt | Hge].
  2: { rewrite process_loop_exhausted by lia. exists [], 0.
       rewrite Nat.add_0_r, app_nil_r, world_eta.
       split; [reflexivity |]. split; [lia |]. split; [lia |].
       split; [simpl; lia |]. left. eauto. }
  replace (ncalls w + 1) with (S (ncalls w)) by lia.
  destruct (track sp (ncalls w) track_id) as [t | e] eqn:Hcall.
  { rewrite (process_loop_success _ _ _ t) by assumption.
    exists [EvCall (CallTrack track_id)], 1.
    replace (ncalls w + 1) with (S (ncalls w)) by lia.
    split; [reflexivity |]. split; [lia |]. split; [lia |].
    split; [simpl; lia |]. left. eexists.
    split; [reflexivity |]. destruct (Spotify.should_exclude_track _ _); auto. }
  destruct e as [e | msg | msg].
  - destruct (decide (http_status e = 429)) as [Hrl | Hother].
    + rewrite (process_loop_rate_limited fuel rc R e w Hlt Hcall Hrl).
      destruct (retry_after e) as [z|] eqn:Hwait.
      * destruct (z <? 0)%Z eqn:Hneg.
        -- exists [EvCall (CallTrack track_id);
                   EvPrint (MsgRateLimit z (rc + 1) R)], 1.
           replace (ncalls w + 1) with (S (ncalls w)) by lia.
           split; [reflexivity |]. split; [lia |]. split; [lia |].
           split; [simpl; lia |]. right.
           exists (ValueError "sleep length must be non-negative"), e, 0.
           rewrite Nat.add_0_r.
           split; [reflexivity |]. split; [exact Hcall |]. split; [exact Hrl |].
           apply (retry_after_negative_not_plain e z Hwait). lia.
        -- edestruct (IH (rc + 1) R) as (delta & n & Hc & Hn & _ & Hs & Hend);
             [lia |]. cbn [ncalls trace] in Hend.
           exists ([EvCall (CallTrack track_id);
                    EvPrint (MsgRateLimit z (rc + 1) R);
                    EvSleep (Z.to_nat z)] ++ delta), (S n).
           rewrite calls_app, sleeps_app, length_app, Hc.
           split; [reflexivity |]. split; [lia |]. split; [lia |].
           split; [cbn; lia |].
           destruct Hend as [(r & -> & Hr) | (e1 & e0 & i & -> & He0 & Hst & Hpl)].
           ++ left. exists r. split; [| exact Hr]. cbn [ncalls trace].
              f_equal. f_equal; [lia | by rewrite app_assoc].
           ++ right. exists e1, e0, (S i). split; [| split; [| by split]].
              ** cbn [ncalls trace].
                 f_equal. f_equal; [lia | by rewrite app_assoc].
              ** rewrite <- He0. cbn [ncalls]. f_equal. lia.
      * exists [EvCall (CallTrack track_id)], 1.
        replace (ncalls w + 1) with (S (ncalls w)) by lia.
        split; [reflexivity |]. split; [lia |]. split; [lia |].
        split; [simpl; lia |]. right.
        exists (ValueError "invalid literal for int() with base 10"), e, 0.
        rewrite Nat.add_0_r.
        split; [reflexivity |]. split; [exact Hcall |]. split; [exact Hrl |].
        by apply retry_after_none_not_plain.
    + destruct fuel as [|fuel]; [lia |].
      rewrite (process_loop_spotify_error fuel rc R e w) by assumption.
      exists [EvCall (CallTrack track_id);
              EvPrint (MsgError (ProcessingTrack track_id) e)], 1.
      replace (ncalls w + 1) with (S (ncalls w)) by lia.
      split; [reflexivity |]. split; [lia |]. split; [lia |].
      split; [simpl; lia |]. left. eauto.
  - rewrite (process_loop_other_error _ _ _ (ValueError msg))
      by (assumption || (intros e'; discriminate)).
    exists [EvCall (CallTrack track_id);
            EvPrint (MsgUnexpected (ProcessingTrack track_id) (ValueError msg))], 1.
    replace (ncalls w + 1) with (S (ncalls w)) by lia.
    split; [reflexivity |]. split; [lia |]. split; [lia |].
    split; [simpl; lia |]. left. eauto.
  - rewrite (process_loop_other_error _ _ _ (OtherException msg))
      by (assumption || (intros e'; discriminate)).
    exists [EvCall (CallTrack track_id);
            EvPrint (MsgUnexpected (ProcessingTrack track_id)
                       (OtherException msg))], 1.
    replace (ncalls w + 1) with (S (ncalls w)) by lia.
    split; [reflexivity |]. split; [lia |]. split; [lia |].
    split; [simpl; lia |]. left. eauto.
Qed.

(** When the waits of the rate-limit responses are plain, the loop returns. *)
Lemma process_loop_plain fuel retry_count max_retries w :
  max_retries - retry_count < fuel ->
  (forall n e, track sp n track_id = Raises (Spotify e) ->
     http_status e = 429 -> plain_wait e = true) ->
  exists r delta n,
    loop fuel retry_count max_retries track_id exclude_keyword w
    = Ok r {| ncalls := ncalls w + n; trace := trace w ++ delta |}
    ∧ (r = None ∨ r = Some track_id)
    ∧ calls delta = replicate n (CallTrack track_id)
    ∧ n ≤ max_retries - retry_count
    ∧ (retry_count < max_retries -> 1 ≤ n)
    ∧ length (sleeps delta) ≤ n.
Proof.
  intros Hfuel Hplain.
  destruct (process_loop_bounded fuel retry_count max_retries w Hfuel)
    as (delta & n & Hc & Hn & Hpos & Hs & Hend).
  destruct Hend as [(r & Hrun & Hr) | (e & e0 & i & _ & He0 & Hst & Hpl)].
  - exists r, delta, n. repeat split; assumption.
  - rewrite (Hplain _ _ He0 Hst) in Hpl. discriminate.
Qed.

End ProcessTrack.

(** ** The retry wrapper around [sp.playlist_add_items] *)

Section AddBatch.
Variable sp : Client.
Variable playlist_id : string.
Variable batch : list string.
Variables batch_number total_batches : nat.

Local Abbreviation add_loop := (Spotify._add_batch_with_retry_loop sp).
Local Abbreviation add_call := (CallPlaylistAddItems playlist_id batch).

Lemma add_loop_rate_limited fuel retry_count max_retries e w :
  retry_count < max_retries ->
  playlist_add_items sp (ncalls w) playlist_id batch = Raises (Spotify e) ->
  http_status e = 429 ->
  add_loop (S fuel) retry_count max_retries playlist_id batch batch_number
    total_batches w
  = match retry_after e with
    | Some z =>
        if (z <? 0)%Z
        then Raise (ValueError "sleep length must be non-negative")
               {| ncalls := S (ncalls w);
                  trace := trace w
                    ++ [EvCall add_call;
                        EvPrint (MsgRateLimit z (retry_count + 1) max_retries)] |}
        else add_loop fuel (retry_count + 1) max_retries playlist_id batch
               batch_number total_batches
               {| ncalls := S (ncalls w);
                  trace := trace w
                    ++ [EvCall add_call;
                        EvPrint (MsgRateLimit z (retry_count + 1) max_retries);
                        EvSleep (Z.to_nat z)] |}
    | None =>
        Raise (ValueError "invalid literal for int() with base 10")
          {| ncalls := S (ncalls w); trace := trace w ++ [EvCall add_call] |}
    end.
Proof.
  intros Hrc Hraise Hstatus.
  cbn [Spotify._add_batch_with_retry_loop].
  rewrite (proj2 (Nat.ltb_lt retry_count max_retries)) by lia.
  unfold try_except at 1, bind at 1, Spotify.sp_playlist_add_items, call.
  rewrite Hraise. unfold bind at 1.
  rewrite handle_rate_limit_429 by exact Hstatus.
  destruct (retry_after e) as [z|]; [| reflexivity].
  destruct (z <? 0)%Z; cbn [ncalls trace]; by rewrite <- app_assoc.
Qed.

Lemma add_loop_backoff k : forall fuel retry_count max_retries hs w,
  k ≤ fuel ->
  retry_count + k ≤ max_retries ->
  (forall i, i < k ->
     playlist_add_items sp (ncalls w + i) playlist_id batch = rate_limited (hs i)) ->
  add_loop fuel retry_count max_retries playlist_id batch batch_number
    total_batches w =
  add_loop (fuel - k) (retry_count + k) max_retries playlist_id batch
    batch_number total_batches
    {| ncalls := ncalls w + k;
       trace := trace w ++ backoff_trace add_call max_retries retry_count k hs |}.
Proof.
  induction k as [|k IH]; intros fuel rc R hs w Hfuel Hrc Hfail.
  - rewrite Nat.sub_0_r, !Nat.add_0_r, app_nil_r, world_eta. reflexivity.
  - destruct fuel as [|fuel]; [lia |].
    specialize (Hfail 0 ltac:(lia)) as H0. rewrite Nat.add_0_r in H0.
    rewrite (add_loop_rate_limited fuel rc R _ w ltac:(lia) H0 eq_refl).
    rewrite retry_after_rendered.
    rewrite (proj2 (Z.ltb_ge _ 0)) by lia.
    rewrite Nat2Z.id.
    rewrite (IH fuel (rc + 1) R (fun i => hs (S i))); [| lia | lia |].
    + cbn [ncalls trace backoff_trace Nat.sub]. f_equal; [lia |].
      f_equal; [lia |]. rewrite <- !app_assoc. reflexivity.
    + intros i Hi. cbn [ncalls]. rewrite <- (Hfail (S i)) by lia. f_equal. lia.
Qed.

Lemma add_loop_success fuel retry_count max_retries w :
  retry_count < max_retries ->
  playlist_add_items sp (ncalls w) playlist_id batch = Returns tt ->
  add_loop (S fuel) retry_count max_retries playlist_id batch batch_number
    total_batches w =
  Ok true
     {| ncalls := S (ncalls w);
        trace := trace w ++
                 [EvCall add_call;
                  EvPrint (MsgAddedBatch batch_number total_batches
                             (length batch))] |}.
Proof.
  intros Hrc Hret. simpl.
  rewrite (proj2 (Nat.ltb_lt _ _)) by lia.
  unfold try_except, bind, Spotify.sp_playlist_add_items, call. rewrite Hret.
  simpl. rewrite <- app_assoc. reflexivity.
Qed.

Lemma add_loop_exhausted fuel retry_count max_retries w :
  max_retries ≤ retry_count ->
  add_loop (S fuel) retry_count max_retries playlist_id batch batch_number
    total_batches w = Ok false w.
Proof.
  intros Hrc. simpl. rewrite (proj2 (Nat.ltb_ge _ _)) by lia. reflexivity.
Qed.

Lemma add_loop_spotify_error fuel retry_count max_retries e w :
  retry_count < max_retries ->
  http_status e ≠ 429 ->
  playlist_add_items sp (ncalls w) playlist_id batch = Raises (Spotify e) ->
  add_loop (S (S fuel)) retry_count max_retries playlist_id batch batch_number
    total_batches w =
  Ok false
     {| ncalls := S (ncalls w);
        trace := trace w ++ [EvCall add_call;
                             EvPrint (MsgError (AddingBatch batch_number) e)] |}.
Proof.
  intros Hrc Hstatus Hraise.
  simpl Spotify._add_batch_with_retry_loop at 1.
  rewrite (proj2 (Nat.ltb_lt _ _)) by lia.
  unfold try_except at 1, bind at 1, Spotify.sp_playlist_add_items, call.
  rewrite Hraise.
  unfold bind at 1, Spotify._handle_rate_limit.
  rewrite (proj2 (Nat.eqb_neq _ _)) by assumption.
  unfold bind at 1, print, emit. unfold ret at 1.
  rewrite Nat.ltb_irrefl. simpl.
  rewrite <- app_assoc. reflexivity.
Qed.

Lemma add_loop_other_error fuel retry_count max_retries e w :
  retry_count < max_retries ->
  (forall e', e ≠ Spotify e') ->
  playlist_add_items sp (ncalls w) playlist_id batch = Raises e ->
  add_loop (S fuel) retry_count max_retries playlist_id batch batch_number
    total_batches w =
  Ok false
     {| ncalls := S (ncalls w);
        trace := trace w ++
                 [EvCall add_call;
                  EvPrint (MsgUnexpected (AddingBatch batch_number) e)] |}.
Proof.
  intros Hrc Hother Hraise. simpl.
  rewrite (proj2 (Nat.ltb_lt _ _)) by lia.
  unfold try_except, bind at 1, Spotify.sp_playlist_add_items, call.
  rewrite Hraise.
  destruct e as [e' | msg | msg]; [by destruct (Hother e') | |];
    unfold bind, print, emit, ret; simpl; rewrite <- app_assoc; reflexivity.
Qed.

(** Whatever the remote does, the loop ends within the attempts left: it
    returns, or an exception leaves it from the handler of a rate-limit
    response whose wait is not plain. *)
Lemma add_loop_bounded fuel : forall retry_count max_retries w,
  max_retries - retry_count < fuel ->
  exists delta n,
    calls delta = replicate n add_call
    ∧ added_batches delta = replicate n batch
    ∧ n ≤ max_retries - retry_count
    ∧ (retry_count < max_retries -> 1 ≤ n)
    ∧ length (sleeps delta) ≤ n
    ∧ ((exists success : bool,
          add_loop fuel retry_count max_retries playlist_id batch batch_number
            total_batches w
          = Ok success {| ncalls := ncalls w + n; trace := trace w ++ delta |})
       ∨ (exists e e0 i,
            add_loop fuel retry_count max_retries playlist_id batch batch_number
              total_batches w
            = Raise e {| ncalls := ncalls w + n; trace := trace w ++ delta |}
            ∧ playlist_add_items sp (ncalls w + i) playlist_id batch
              = Raises (Spotify e0)
            ∧ http_status e0 = 429
            ∧ plain_wait e0 = false)).
Proof.
  induction fuel as [|fuel IH]; intros rc R w Hfuel; [lia |].
  destruct (decide (rc < R)) as [Hlt | Hge].
  2: { rewrite add_loop_exhausted by lia. exists [], 0.
       rewrite Nat.add_0_r, app_nil_r, world_eta.
       split; [reflexivity |]. split; [reflexivity |]. split; [lia |].
       split; [lia |]. split; [simpl; lia |]. left. eauto. }
  destruct (playlist_add_items sp (ncalls w) playlist_id batch) as [[] | e]
    eqn:Hcall.
  { rewrite add_loop_success by assumption.
    exists [EvCall add_call;
            EvPrint (MsgAddedBatch batch_number total_batches (length batch))], 1.
    replace (ncalls w + 1) with (S (ncalls w)) by lia.
    split; [reflexivity |]. split; [reflexivity |]. split; [lia |].
    split; [lia |]. split; [simpl; lia |]. left. eauto. }
  destruct e as [e | msg | msg].
  - destruct (decide (http_status e = 429)) as [Hrl | Hother].
    + rewrite (add_loop_rate_limited fuel rc R e w Hlt Hcall Hrl).
      destruct (retry_after e) as [z|] eqn:Hwait.
      * destruct (z <? 0)%Z eqn:Hneg.
        -- exists [EvCall add_call; EvPrint (MsgRateLimit z (rc + 1) R)], 1.
           replace (ncalls w + 1) with (S (ncalls w)) by lia.
           split; [reflexivity |]. split; [reflexivity |]. split; [lia |].
           split; [lia |]. split; [simpl; lia |]. right.
           exists (ValueError "sleep length must be non-negative"), e, 0.
           rewrite Nat.add_0_r.
           split; [reflexivity |]. split; [exact Hcall |]. split; [exact Hrl |].
           apply (retry_after_negative_not_plain e z Hwait). lia.
        -- edestruct (IH (rc + 1) R)
             as (delta & n & Hc & Ha & Hn & _ & Hs & Hend); [lia |].
           exists ([EvCall add_call; EvPrint (MsgRateLimit z (rc + 1) R);
                    EvSleep (Z.to_nat z)] ++ delta), (S n).
           rewrite calls_app, added_batches_app, sleeps_app, length_app, Hc, Ha.
           split; [reflexivity |]. split; [reflexivity |]. split; [lia |].
           split; [lia |]. split; [cbn; lia |].
           destruct Hend as [(success & ->) | (e1 & e0 & i & -> & He0 & Hst & Hpl)].
           ++ left. exists success. cbn [ncalls trace].
              f_equal. f_equal; [lia | by rewrite app_assoc].
           ++ right. exists e1, e0, (S i). split; [| split; [| by split]].
              ** cbn [ncalls trace].
                 f_equal. f_equal; [lia | by rewrite app_assoc].
              ** rewrite <- He0. cbn [ncalls]. f_equal. lia.
      * exists [EvCall add_call], 1.
        replace (ncalls w + 1) with (S (ncalls w)) by lia.
        split; [reflexivity |]. split; [reflexivity |]. split; [lia |].
        split; [lia |]. split; [simpl; lia |]. right.
        exists (ValueError "invalid literal for int() with base 10"), e, 0.
        rewrite Nat.add_0_r.
        split; [reflexivity |]. split; [exact Hcall |]. split; [exact Hrl |].
        by apply retry_after_none_not_plain.
    + destruct fuel as [|fuel]; [lia |].
      rewrite (add_loop_spotify_error fuel rc R e w) by assumption.
      exists [EvCall add_call; EvPrint (MsgError (AddingBatch batch_number) e)], 1.
      replace (ncalls w + 1) with (S (ncalls w)) by lia.
      split; [reflexivity |]. split; [reflexivity |]. split; [lia |].
      split; [lia |]. split; [simpl; lia |]. left. eauto.
  - rewrite (add_loop_other_error _ _ _ (ValueError msg))
      by (assumption || (intros e'; discriminate)).
    exists [EvCall add_call;
            EvPrint (MsgUnexpected (AddingBatch batch_number) (ValueError msg))], 1.
    replace (ncalls w + 1) with (S (ncalls w)) by lia.
    split; [reflexivity |]. split; [reflexivity |]. split; [lia |].
    split; [lia |]. split; [simpl; lia |]. left. eauto.
  - rewrite (add_loop_other_error _ _ _ (OtherException msg))
      by (assumption || (intros e'; discriminate)).
    exists [EvCall add_call;
            EvPrint (MsgUnexpected (AddingBatch batch_number)
                       (OtherException msg))], 1.
    replace (ncalls w + 1) with (S (ncalls w)) by lia.
    split; [reflexivity |]. split; [reflexivity |]. split; [lia |].
    split; [lia |]. split; [simpl; lia |]. left. eauto.
Qed.

(** When the waits of the rate-limit responses are plain, the loop returns. *)
Lemma add_loop_plain fuel retry_count max_retries w :
  max_retries - retry_count < fuel ->
  (forall n e, playlist_add_items sp n playlist_id batch = Raises (Spotify e) ->
     http_status e = 429 -> plain_wait e = true) ->
  exists (success : bool) delta n,
    add_loop fuel retry_count max_retries playlist_id batch batch_number
      total_batches w
    = Ok success {| ncalls := ncalls w + n; trace := trace w ++ delta |}
    ∧ calls delta = replicate n add_call
    ∧ added_batches delta = replicate n batch
    ∧ n ≤ max_retries - retry_count
    ∧ (retry_count < max_retries -> 1 ≤ n)
    ∧ length (sleeps delta) ≤ n.
Proof.
  intros Hfuel Hplain.
  destruct (add_loop_bounded fuel retry_count max_retries w Hfuel)
    as (delta & n & Hc & Ha & Hn & Hpos & Hs & Hend).
  destruct Hend as [(success & Hrun) | (e & e0 & i & _ & He0 & Hst & Hpl)].
  - exists success, delta, n. repeat split; assumption.
  - rewrite (Hplain _ _ He0 Hst) in Hpl. discriminate.
Qed.

End AddBatch.



(** ** Adding in batches *)

(** While the add calls succeed, [add_tracks_to_playlist] sends exactly the
    chunks of the batcher, one call each, in order. *)
Lemma add_tracks_sends_batches sp playlist_id track_ids w :
  (forall n b, playlist_add_items sp n playlist_id b = Returns tt) ->
  exists delta,
    Spotify.add_tracks_to_playlist sp playlist_id track_ids w
    = Ok tt {| ncalls := ncalls w + length (batches Spotify.BATCH_SIZE track_ids);
               trace := trace w ++ delta |}
    ∧ added_batches delta = batches Spotify.BATCH_SIZE track_ids.
Proof.
  intros Hok. unfold Spotify.add_tracks_to_playlist, batches.
  set (total_batches := (length track_ids + Spotify.BATCH_SIZE - 1)
                        / Spotify.BATCH_SIZE).
  generalize (Py.range 0 (length track_ids) Spotify.BATCH_SIZE) as indices.
  intros indices. cbv zeta.
  unfold bind at 1, print at 1, emit at 1.
  set (w1 := {| ncalls := ncalls w;
                trace := trace w ++ [EvPrint (MsgAddingTracks total_batches)] |}).
  assert (forall w2, exists delta,
    for_each indices
      (fun i _ =>
         success <- Spotify._add_batch_with_retry sp playlist_id
                      (Py.slice track_ids i (i + Spotify.BATCH_SIZE))
                      (i / Spotify.BATCH_SIZE + 1) total_batches ;;
         if success && (i / Spotify.BATCH_SIZE + 1 <? total_batches)
         then sleep Spotify.RATE_LIMIT_DELAY
         else ret tt)
      tt w2
    = Ok tt {| ncalls := ncalls w2 + length indices; trace := trace w2 ++ delta |}
    ∧ added_batches delta
      = (fun i => Py.slice track_ids i (i + Spotify.BATCH_SIZE)) <$> indices)
    as Hloop.
  { clear w w1. induction indices as [|i indices IH]; intros w2.
    - exists []. cbn [for_each length]. unfold ret.
      rewrite Nat.add_0_r, app_nil_r, world_eta. done.
    - cbn [for_each length]. unfold bind at 1. unfold bind at 1.
      unfold Spotify._add_batch_with_retry.
      rewrite add_loop_success by (lia || apply Hok).
      destruct (true && (i / Spotify.BATCH_SIZE + 1 <? total_batches));
        unfold sleep, emit, ret;
        edestruct IH as (delta & -> & Hdelta);
        (eexists; split;
         [ cbn [ncalls trace]; f_equal; f_equal; [lia |];
           rewrite <- !app_assoc; reflexivity
         | rewrite !added_batches_app, Hdelta; reflexivity ]). }
  destruct (Hloop w1) as (delta & -> & Hdelta).
  exists ([EvPrint (MsgAddingTracks total_batches)] ++ delta). split.
  - subst w1. cbn [ncalls trace]. rewrite length_fmap, <- app_assoc.
    reflexivity.
  - rewrite added_batches_app, Hdelta. reflexivity.
Qed.

(** ** Filtering a list of track ids *)

Lemma process_track_bounded sp track_id exclude_keyword w :
  exists delta n,
    calls delta = replicate n (CallTrack track_id)
    ∧ 1 ≤ n ≤ 3
    ∧ length (sleeps delta) ≤ n
    ∧ ((exists r,
          Spotify._process_track_with_retry sp track_id exclude_keyword w
          = Ok r {| ncalls := ncalls w + n; trace := trace w ++ delta |}
          ∧ (r = None ∨ r = Some track_id))
       ∨ (exists e e0 i,
            Spotify._process_track_with_retry sp track_id exclude_keyword w
            = Raise e {| ncalls := ncalls w + n; trace := trace w ++ delta |}
            ∧ track sp (ncalls w + i) track_id = Raises (Spotify e0)
            ∧ http_status e0 = 429
            ∧ plain_wait e0 = false)).
Proof.
  unfold Spotify._process_track_with_retry.
  destruct (process_loop_bounded sp track_id exclude_keyword 4 0 3 w)
    as (delta & n & Hc & Hn & Hpos & Hs & Hend); [lia |].
  exists delta, n. repeat split; (assumption || lia).
Qed.

(** One round of the loop of [filter_tracks] appends the round's own id or
    nothing, after one to three calls; or an exception leaves it, raised in
    the handler of a rate-limit response whose wait is not plain. *)
Lemma filter_body_outcome sp exclude_keyword total_tracks i track_id acc w :
  (exists kept w',
      Spotify.filter_tracks_body sp exclude_keyword total_tracks (i, track_id)
        acc w
      = Ok (acc ++ kept) w'
      ∧ (kept = [] ∨ kept = [track_id])
      ∧ ncalls w + 1 ≤ ncalls w' ≤ ncalls w + 3)
  ∨ (exists e w' n e0,
        Spotify.filter_tracks_body sp exclude_keyword total_tracks (i, track_id)
          acc w
        = Raise e w'
        ∧ track sp n track_id = Raises (Spotify e0)
        ∧ http_status e0 = 429
        ∧ plain_wait e0 = false).
Proof.
  destruct (process_track_bounded sp track_id exclude_keyword w)
    as (delta & n & _ & Hn & _ & Hend).
  destruct Hend as [(r & Hrun & Hr) | (e & e0 & k & Hrun & He0 & Hst & Hpl)].
  2: { right. eexists e, _, (ncalls w + k), e0.
       unfold Spotify.filter_tracks_body. unfold bind at 1. rewrite Hrun.
       split; [reflexivity |]. by repeat split. }
  left. unfold Spotify.filter_tracks_body. unfold bind at 1. rewrite Hrun.
  assert (forall acc1 : list string, exists w2,
    ((if i mod 50 =? 0 then print (MsgProcessed i total_tracks) else ret tt) ;;;
     (if i mod 10 =? 0 then sleep Spotify.RATE_LIMIT_DELAY else ret tt) ;;;
     ret acc1) {| ncalls := ncalls w + n; trace := trace w ++ delta |}
    = Ok acc1 w2 ∧ ncalls w2 = ncalls w + n) as Htail.
  { intros acc1. unfold bind, print, sleep, emit, ret.
    destruct (i mod 50 =? 0), (i mod 10 =? 0); eauto. }
  destruct Hr as [-> | ->]; [| destruct (Py.truthy track_id)].
  - destruct (Htail acc) as (w2 & -> & Hw2). exists [], w2.
    rewrite app_nil_r. repeat split; (auto || lia).
  - destruct (Htail (acc ++ [track_id])) as (w2 & -> & Hw2).
    exists [track_id], w2. repeat split; (auto || lia).
  - destruct (Htail acc) as (w2 & -> & Hw2). exists [], w2.
    rewrite app_nil_r. repeat split; (auto || lia).
Qed.

Lemma filter_loop_outcome sp exclude_keyword total_tracks track_ids :
  forall start acc w,
  (exists kept w',
      for_each (zip (seq start (length track_ids)) track_ids)
        (Spotify.filter_tracks_body sp exclude_keyword total_tracks) acc w
      = Ok (acc ++ kept) w'
      ∧ kept `sublist_of` track_ids
      ∧ ncalls w + length track_ids ≤ ncalls w'
      ∧ ncalls w' ≤ ncalls w + 3 * length track_ids)
  ∨ (exists e w' n track_id e0,
        for_each (zip (seq start (length track_ids)) track_ids)
          (Spotify.filter_tracks_body sp exclude_keyword total_tracks) acc w
        = Raise e w'
        ∧ track sp n track_id = Raises (Spotify e0)
        ∧ http_status e0 = 429
        ∧ plain_wait e0 = false).
Proof.
  induction track_ids as [|track_id track_ids IH]; intros start acc w.
  - left. exists [], w. cbn [length seq zip zip_with for_each]. unfold ret.
    rewrite app_nil_r. repeat split; [constructor | lia | lia].
  - cbn [length seq zip zip_with for_each].
    destruct (filter_body_outcome sp exclude_keyword total_tracks start
                track_id acc w)
      as [(k1 & w1 & Hbody & Hk1 & Hw1)
         | (e & w' & n & e0 & Hbody & He0 & Hst & Hpl)].
    2: { right. exists e, w', n, track_id, e0. unfold bind. rewrite Hbody.
         by repeat split. }
    destruct (IH (S start) (acc ++ k1) w1)
      as [(kept & w' & Hrest & Hsub & Hw')
         | (e & w' & n & id & e0 & Hrest & Hbad)].
    2: { right. exists e, w', n, id, e0. unfold bind. rewrite Hbody, Hrest.
         split; [reflexivity | exact Hbad]. }
    left. exists (k1 ++ kept), w'. unfold bind. rewrite Hbody, Hrest, app_assoc.
    split; [reflexivity |]. split; [| lia].
    destruct Hk1 as [-> | ->]; simpl; by constructor.
Qed.

Lemma filter_tracks_outcome sp track_ids exclude_keyword w :
  (exists kept w',
      Spotify.filter_tracks sp track_ids exclude_keyword w = Ok kept w'
      ∧ kept `sublist_of` track_ids
      ∧ ncalls w + length track_ids ≤ ncalls w'
      ∧ ncalls w' ≤ ncalls w + 3 * length track_ids)
  ∨ (exists e w' n track_id e0,
        Spotify.filter_tracks sp track_ids exclude_keyword w = Raise e w'
        ∧ track sp n track_id = Raises (Spotify e0)
        ∧ http_status e0 = 429
        ∧ plain_wait e0 = false).
Proof.
  destruct (filter_loop_outcome sp exclude_keyword (length track_ids) track_ids
              1 []
              {| ncalls := ncalls w;
                 trace := trace w
                          ++ [EvPrint (MsgProcessing (length track_ids))] |})
    as [(kept & w1 & Hloop & Hsub & Hw1) | (e & w' & n & id & e0 & Hloop & Hbad)].
  - left. exists kept. eexists.
    unfold Spotify.filter_tracks, Py.enumerate. cbv zeta.
    unfold bind at 1, print at 1, emit at 1. unfold bind at 1.
    rewrite Hloop. unfold bind, print, emit, ret.
    split; [reflexivity |]. split; [exact Hsub |]. cbn [ncalls] in *. lia.
  - right. exists e, w', n, id, e0.
    unfold Spotify.filter_tracks, Py.enumerate. cbv zeta.
    unfold bind at 1, print at 1, emit at 1. unfold bind at 1.
    rewrite Hloop. split; [reflexivity | exact Hbad].
Qed.

(** C10.  Whatever [filter_tracks] returns is a subsequence of its input: ids
    of the input, in the input's order, none occurring more often than in the
    input.  The function always ends; it returns unless an exception leaves
    the handler of a rate-limit response (a [Retry-After] header that [int]
    or [time.sleep] rejects), so it returns whenever the waits of the
    rate-limit responses are plain. *)
Theorem filter_tracks_subsequence (sp : Client) (track_ids : list string)
    (exclude_keyword : string) (w : World) :
  (forall kept w',
      Spotify.filter_tracks sp track_ids exclude_keyword w = Ok kept w' ->
      kept `sublist_of` track_ids)
  ∧ Spotify.filter_tracks sp track_ids exclude_keyword w ≠ OutOfFuel
  ∧ ((forall n track_id e,
         track sp n track_id = Raises (Spotify e) ->
         http_status e = 429 -> plain_wait e = true) ->
     exists kept w',
       Spotify.filter_tracks sp track_ids exclude_keyword w = Ok kept w'
       ∧ kept `sublist_of` track_ids).
Proof.
  destruct (filter_tracks_outcome sp track_ids exclude_keyword w)
    as [(kept & w1 & Hrun & Hsub & _) | (e & w1 & n & id & e0 & Hrun & He0 & Hst & Hpl)];
    rewrite Hrun.
  - split; [| split].
    + intros kept' w' [= <- _]. exact Hsub.
    + discriminate.
    + intros _. by exists kept, w1.
  - split; [| split].
    + intros kept' w' Hok. discriminate Hok.
    + discriminate.
    + intros Hplain. rewrite (Hplain _ _ _ He0 Hst) in Hpl. discriminate.
Qed.

Lemma filter_tracks_subsequence_witness :
  exists kept w',
    Spotify.filter_tracks (flaky_client 1) ["t1"; ""; "t2"] "lofi" w0
    = Ok kept w'
    ∧ kept `sublist_of` ["t1"; ""; "t2"].
Proof.
  destruct (filter_tracks_subsequence (flaky_client 1) ["t1"; ""; "t2"] "lofi" w0)
    as (Hsub & _ & Hreturns).
  destruct Hreturns as (kept & w' & Hrun & _).
  - intros [|n] track_id e Hraise _; [| discriminate Hraise].
    injection Hraise as <-. reflexivity.
  - exists kept, w'. split; [exact Hrun | exact (Hsub kept w' Hrun)].
Defined.

(** ** The exclusion predicate *)

Lemma lower_app s1 s2 : Py.lower (s1 +:+ s2) = Py.lower s1 +:+ Py.lower s2.
Proof. induction s1 as [|c s1 IH]; simpl; [reflexivity | by rewrite IH]. Qed.

Lemma lower_join_blank names :
  Py.lower (Py.join " " names) = Py.join " " (Py.lower <$> names).
Proof.
  induction names as [|n names IH]; [reflexivity |].
  destruct names as [|n' names]; [reflexivity |].
  change (Py.join " " (n :: n' :: names))
    with (n +:+ " " +:+ Py.join " " (n' :: names)).
  rewrite !lower_app, IH. reflexivity.
Qed.

Lemma should_exclude_track_fields t keyword :
  Spotify.should_exclude_track t keyword =
  Py.contains keyword (Py.lower (track_name t))
  || Py.contains keyword (Py.lower (album_name (track_album t)))
  || Py.contains keyword
       (Py.lower (Py.join " " (artist_name <$> track_artists t)))
  || Py.contains keyword (Py.lower (default "" (album_label (track_album t)))).
Proof.
  unfold Spotify.should_exclude_track. simpl.
  rewrite lower_join_blank, <- list_fmap_compose, orb_false_r, !orb_assoc.
  reflexivity.
Qed.

(** For a keyword that is already in lower case the code computes the
    specified predicate. *)
Lemma should_exclude_track_lowercase_keyword t keyword :
  Py.lower keyword = keyword ->
  Spotify.should_exclude_track t keyword = exclusion_spec t keyword.
Proof.
  intros Hlow. rewrite should_exclude_track_fields.
  unfold exclusion_spec, icontains. rewrite Hlow. reflexivity.
Qed.

(** A track is kept exactly when none of the four fields matches. *)
Lemma should_exclude_track_false t keyword :
  Spotify.should_exclude_track t keyword = false <->
  Py.contains keyword (Py.lower (track_name t)) = false
  ∧ Py.contains keyword (Py.lower (album_name (track_album t))) = false
  ∧ Py.contains keyword
      (Py.lower (Py.join " " (artist_name <$> track_artists t))) = false
  ∧ Py.contains keyword
      (Py.lower (default "" (album_label (track_album t)))) = false.
Proof.
  rewrite should_exclude_track_fields, !orb_false_iff. tauto.
Qed.

(** Substring facts: [sub in s] holds exactly when [s] splits around [sub]. *)
Lemma string_app_assoc (s1 s2 s3 : string) :
  (s1 +:+ s2) +:+ s3 = s1 +:+ s2 +:+ s3.
Proof.
  induction s1 as [|c s1 IH]; [reflexivity |].
  change (String c ((s1 +:+ s2) +:+ s3) = String c (s1 +:+ s2 +:+ s3)).
  by rewrite IH.
Qed.

Lemma prefix_spec p s : String.prefix p s = true <-> exists t, s = p +:+ t.
Proof.
  revert s. induction p as [|a p IH]; intros s; simpl.
  - split; [intros _; by exists s | intros _; by destruct s].
  - destruct s as [|b s]; simpl.
    + split; [discriminate | intros [t Ht]; discriminate].
    + destruct (ascii_dec a b) as [-> | Hne].
      * rewrite IH. split; intros [t Ht]; exists t.
        -- simpl. by rewrite Ht.
        -- simpl in Ht. by injection Ht.
      * split; [discriminate | intros [t Ht]].
        change (String b s = String a (p +:+ t)) in Ht.
        injection Ht as Hab _. by destruct Hne.
Qed.

Lemma contains_spec sub s :
  Py.contains sub s = true <-> exists pre post, s = pre +:+ sub +:+ post.
Proof.
  induction s as [|c s IH].
  - change (Py.contains sub "") with (String.prefix sub "" || false).
    rewrite orb_false_r, prefix_spec. split.
    + intros [t Ht]. by exists "", t.
    + intros (pre & post & Hs). destruct pre; [| discriminate]. by exists post.
  - change (Py.contains sub (String c s))
      with (String.prefix sub (String c s) || Py.contains sub s).
    rewrite orb_true_iff, prefix_spec, IH. split.
    + intros [[t Ht] | (pre & post & Hs)].
      * by exists "", t.
      * exists (String c pre), post. simpl. by rewrite Hs.
    + intros (pre & post & Hs). destruct pre as [|c' pre].
      * left. by exists post.
      * right. exists pre, post.
        change (String c s = String c' (pre +:+ sub +:+ post)) in Hs.
        by injection Hs.
Qed.

Lemma contains_lower sub s :
  Py.contains sub s = true -> Py.contains (Py.lower sub) (Py.lower s) = true.
Proof.
  rewrite !contains_spec. intros (pre & post & ->).
  exists (Py.lower pre), (Py.lower post). by rewrite !lower_app.
Qed.

Lemma contains_trans a b c :
  Py.contains a b = true -> Py.contains b c = true -> Py.contains a c = true.
Proof.
  rewrite !contains_spec. intros (p1 & q1 & ->) (p2 & q2 & ->).
  exists (p2 +:+ p1), (q1 +:+ q2). by rewrite !string_app_assoc.
Qed.

(** The worked case of the specification: whatever else a track holds, an
    album name containing ["Lofi Beats"] excludes it for the keyword
    ["lofi"]. *)
Lemma should_exclude_track_lofi_album t :
  Py.contains "Lofi Beats" (album_name (track_album t)) = true ->
  Spotify.should_exclude_track t "lofi" = true.
Proof.
  intros Halbum. rewrite should_exclude_track_fields.
  apply contains_lower in Halbum.
  assert (Py.contains "lofi" (Py.lower "Lofi Beats") = true) as Hkw
    by reflexivity.
  rewrite (contains_trans _ _ _ Hkw Halbum).
  by rewrite orb_true_r.
Qed.

(** C8 (the code departs from the claim).  The fields are lower-cased but the
    keyword is not: with the keyword ["Lofi"] a track of the album
    ["Lofi Beats Vol. 2"] is kept, although the keyword occurs in the album
    name under the case-insensitive test. *)
Theorem should_exclude_track_misses_capitalised_keyword :
  Py.contains "Lofi Beats" (album_name (track_album lofi_track)) = true
  ∧ exclusion_spec lofi_track "Lofi" = true
  ∧ Spotify.should_exclude_track lofi_track "Lofi" = false
  ∧ Spotify.should_exclude_track lofi_track "lofi" = true.
Proof. repeat split; reflexivity. Qed.

(** ** Playlist id extraction *)

(** A bare string of 22 characters, blanks at the ends not counted, that is
    neither of the two other forms is returned stripped. *)
Lemma extract_playlist_id_bare url :
  Py.startswith url "spotify:playlist:" = false ->
  Py.contains "open.spotify.com" url = false ->
  Py.len (Py.strip url) = 22 ->
  Analyzer.extract_playlist_id url = Returns (Py.strip url).
Proof.
  intros Huri Hweb Hlen. unfold Analyzer.extract_playlist_id.
  destruct url as [|c url]; [discriminate Hlen |].
  simpl Py.truthy. simpl negb. cbv iota.
  rewrite Huri, Hweb, Hlen. reflexivity.
Qed.

(** A non-empty string that is neither of the two other forms and whose
    stripped length is not 22 is rejected with the format message. *)
Lemma extract_playlist_id_rejects url :
  url ≠ "" ->
  Py.startswith url "spotify:playlist:" = false ->
  Py.contains "open.spotify.com" url = false ->
  Py.len (Py.strip url) ≠ 22 ->
  Analyzer.extract_playlist_id url
  = Raises (ValueError Analyzer.msg_bad_format).
Proof.
  intros Hne Huri Hweb Hlen. unfold Analyzer.extract_playlist_id.
  destruct url as [|c url]; [done |].
  simpl Py.truthy. simpl negb. cbv iota.
  rewrite Huri, Hweb, (proj2 (Nat.eqb_neq _ _) Hlen). reflexivity.
Qed.

(** The URI form: everything after the last colon is returned, unchecked. *)
Lemma extract_playlist_id_uri url :
  Py.startswith url "spotify:playlist:" = true ->
  Analyzer.extract_playlist_id url = Returns (Py.last_item (Py.split url ":")).
Proof.
  intros Huri. unfold Analyzer.extract_playlist_id.
  destruct url as [|c url]; [discriminate Huri |].
  simpl Py.truthy. simpl negb. cbv iota. rewrite Huri. reflexivity.
Qed.

(** The link form: the test is that the host name occurs; what follows the
    last [playlist/] (the whole text when there is none), cut at the first
    [?], is returned when it is not empty. *)
Lemma extract_playlist_id_link url :
  Py.startswith url "spotify:playlist:" = false ->
  Py.contains "open.spotify.com" url = true ->
  let playlist_id :=
    Py.first_item (Py.split (Py.last_item (Py.split url "playlist/")) "?") in
  Analyzer.extract_playlist_id url
  = if Py.truthy playlist_id then Returns playlist_id
    else Raises (ValueError Analyzer.msg_bad_url).
Proof.
  intros Huri Hweb playlist_id. unfold Analyzer.extract_playlist_id.
  destruct url as [|c url]; [discriminate Hweb |].
  simpl Py.truthy. simpl negb. cbv iota. rewrite Huri, Hweb.
  fold playlist_id. destruct (Py.truthy playlist_id); reflexivity.
Qed.

(** C9 (the code departs from the claim).  A link to the service that holds no
    [playlist/] segment is not rejected: the whole link, up to the first [?],
    comes back as the identifier; and the URI prefix alone yields the empty
    identifier.  The three documented forms are accepted and a bare string of
    21 characters is rejected, as claimed. *)
Theorem extract_playlist_id_accepts_other_links :
  Py.contains "playlist/" "https://open.spotify.com/track/4uLU6hMCjMI75M1A2tKUQC?si=x"
  = false
  ∧ Analyzer.extract_playlist_id
      "https://open.spotify.com/track/4uLU6hMCjMI75M1A2tKUQC?si=x"
    = Returns "https://open.spotify.com/track/4uLU6hMCjMI75M1A2tKUQC"
  ∧ Analyzer.extract_playlist_id "spotify:playlist:" = Returns ""
  ∧ Analyzer.extract_playlist_id
      "https://open.spotify.com/playlist/37i9dQZF1DXcBWIGoYBM5M?si=x"
    = Returns "37i9dQZF1DXcBWIGoYBM5M"
  ∧ Analyzer.extract_playlist_id "spotify:playlist:37i9dQZF1DXcBWIGoYBM5M"
    = Returns "37i9dQZF1DXcBWIGoYBM5M"
  ∧ Analyzer.extract_playlist_id "37i9dQZF1DXcBWIGoYBM5M"
    = Returns "37i9dQZF1DXcBWIGoYBM5M"
  ∧ Analyzer.extract_playlist_id "37i9dQZF1DXcBWIGoYBM5"
    = Raises (ValueError Analyzer.msg_bad_format).
Proof. repeat split; reflexivity. Qed.

(** ** Pagination: when the loops stop *)

Lemma offset_after_shift page i :
  offset_after page (S i)
  = length (items (page 0)) + offset_after (fun j => page (S j)) i.
Proof.
  unfold offset_after. rewrite <- cons_seq, <- fmap_S_seq. simpl.
  by rewrite <- list_fmap_compose.
Qed.

Lemma fetched_ids_shift page n :
  fetched_ids page (S n)
  = ids_of (items (page 0)) ++ fetched_ids (fun j => page (S j)) n.
Proof.
  unfold fetched_ids. rewrite <- cons_seq, <- fmap_S_seq. simpl.
  by rewrite <- list_fmap_compose.
Qed.

Section PaginationStops.
Variable sp : Client.
Variable playlist_id : string.

(** [remove.py] (and, with entries in place of ids, [clean.py]): the loop
    runs through full pages and stops at the first short one. *)
Lemma remove_loop_stops_at_short_page k : forall fuel page offset acc w,
  k < fuel ->
  (forall i, i ≤ k ->
     playlist_tracks sp (ncalls w + i) playlist_id (offset + 100 * i)
     = Returns (page i)) ->
  (forall i, i < k -> 100 ≤ length (items (page i))) ->
  length (items (page k)) < 100 ->
  exists w',
    Remove.get_playlist_tracks_loop sp fuel playlist_id acc offset w
    = Ok (acc ++ fetched_ids page (S k)) w'
    ∧ ncalls w' = ncalls w + S k.
Proof.
  induction k as [|k IH]; intros fuel page offset acc w Hfuel Hpage Hfull Hshort;
    (destruct fuel as [|fuel]; [lia |]);
    pose proof (Hpage 0 ltac:(lia)) as H0;
    rewrite Nat.mul_0_r, !Nat.add_0_r in H0;
    simpl Remove.get_playlist_tracks_loop;
    unfold bind at 1, Remove.sp_playlist_tracks, call; rewrite H0.
  - rewrite (proj2 (Nat.ltb_lt _ _)) by lia.
    eexists. split.
    { unfold ret. rewrite fetched_ids_shift. unfold fetched_ids. simpl.
      rewrite app_nil_r. reflexivity. }
    simpl; lia.
  - rewrite (proj2 (Nat.ltb_ge _ _)) by (apply Hfull; lia).
    edestruct (IH fuel (fun j => page (S j)) (offset + 100)) as (w' & -> & Hn);
      [lia | | | exact Hshort |].
    + intros i Hi. simpl. rewrite <- (Hpage (S i)) by lia. f_equal; lia.
    + intros i Hi. apply Hfull. lia.
    + exists w'. split; [| simpl in Hn; lia].
      rewrite (fetched_ids_shift page (S k)), app_assoc. reflexivity.
Qed.

(** [analyzer.py]: the loop runs while pages are non-empty and the offset
    stays below the reported total, and stops at the first page where either
    fails. *)
Lemma analyzer_loop_stops_at_total k : forall fuel page offset acc w,
  k < fuel ->
  (forall i, i ≤ k ->
     playlist_tracks sp (ncalls w + i) playlist_id (offset + offset_after page i)
     = Returns (page i)) ->
  (forall i, i < k ->
     items (page i) ≠ []
     ∧ offset + offset_after page (S i) < total (page i)) ->
  (items (page k) = [] ∨ total (page k) ≤ offset + offset_after page (S k)) ->
  exists w',
    Analyzer.get_playlist_tracks_loop sp fuel playlist_id acc offset w
    = Ok (acc ++ fetched_ids page (S k)) w'
    ∧ ncalls w' = ncalls w + S k.
Proof.
  induction k as [|k IH]; intros fuel page offset acc w Hfuel Hpage Hmore Hstop;
    (destruct fuel as [|fuel]; [lia |]);
    pose proof (Hpage 0 ltac:(lia)) as H0;
    unfold offset_after in H0; simpl in H0; rewrite !Nat.add_0_r in H0;
    simpl Analyzer.get_playlist_tracks_loop;
    unfold bind at 1, Analyzer.sp_playlist_tracks, call; rewrite H0.
  - rewrite fetched_ids_shift. unfold fetched_ids at 1. simpl.
    rewrite app_nil_r.
    destruct (items (page 0)) as [|it its] eqn:Hits.
    + eexists. unfold ret. split; [simpl; rewrite app_nil_r; reflexivity |].
      simpl; lia.
    + destruct Hstop as [Hnil | Htot]; [discriminate |].
      rewrite offset_after_shift, Hits in Htot.
      unfold offset_after in Htot. simpl in Htot.
      rewrite (proj2 (Nat.leb_le _ _)) by (simpl; lia).
      eexists. unfold ret. split; [reflexivity | simpl; lia].
  - destruct (Hmore 0 ltac:(lia)) as [Hne Hlt].
    rewrite offset_after_shift in Hlt. unfold offset_after in Hlt. simpl in Hlt.
    destruct (items (page 0)) as [|it its] eqn:Hits; [done |].
    rewrite (proj2 (Nat.leb_gt _ _)) by (simpl; simpl in Hlt; lia).
    unfold bind at 1, sleep, emit.
    edestruct (IH fuel (fun j => page (S j)) (offset + length (it :: its)))
      as (w' & -> & Hn); [lia | | | |].
    + intros i Hi. simpl ncalls.
      rewrite <- (Hpage (S i)) by lia. rewrite offset_after_shift, Hits.
      f_equal; simpl; lia.
    + intros i Hi. destruct (Hmore (S i) ltac:(lia)) as [Hne' Hlt'].
      split; [exact Hne' |].
      rewrite (offset_after_shift page (S i)), Hits in Hlt'. simpl in *. lia.
    + rewrite (offset_after_shift page (S k)), Hits in Hstop.
      simpl in *. destruct Hstop as [? | ?]; [by left | right; lia].
    + exists w'. split; [| simpl in Hn; lia].
      rewrite (fetched_ids_shift page (S k)), Hits, app_assoc. reflexivity.
Qed.

End PaginationStops.

(** C4.  The pagination loops stop.  [remove.py]'s loop, which knows no total,
    returns at the first page shorter than the page size 100, after one call
    per page; [analyzer.py]'s loop, which is told a total, returns at the
    first page that is empty or brings the accumulated offset up to the
    reported total.  In particular both return after a single call when the
    first page is empty. *)
Theorem pagination_loops_terminate
    (sp : Client) (playlist_id : string) (page : nat -> Response) (k : nat)
    (w : World) :
  ((forall i, i ≤ k ->
      playlist_tracks sp (ncalls w + i) playlist_id (100 * i) = Returns (page i)) ->
   (forall i, i < k -> 100 ≤ length (items (page i))) ->
   length (items (page k)) < 100 ->
   forall fuel, k < fuel ->
   exists w',
     Remove.get_playlist_tracks sp fuel playlist_id w
     = Ok (fetched_ids page (S k)) w'
     ∧ ncalls w' = ncalls w + S k)
  ∧ ((forall i, i ≤ k ->
        playlist_tracks sp (ncalls w + i) playlist_id (offset_after page i)
        = Returns (page i)) ->
     (forall i, i < k ->
        items (page i) ≠ [] ∧ offset_after page (S i) < total (page i)) ->
     (items (page k) = [] ∨ total (page k) ≤ offset_after page (S k)) ->
     forall fuel, k < fuel ->
     exists w',
       Analyzer.get_playlist_tracks sp fuel playlist_id w
       = Ok (fetched_ids page (S k)) w'
       ∧ ncalls w' = ncalls w + S k)
  ∧ (playlist_tracks sp (ncalls w) playlist_id 0 = Returns (page 0) ->
     items (page 0) = [] ->
     forall fuel, 0 < fuel ->
     (exists w',
         Remove.get_playlist_tracks sp fuel playlist_id w = Ok [] w'
         ∧ ncalls w' = ncalls w + 1)
     ∧ (exists w',
           Analyzer.get_playlist_tracks sp fuel playlist_id w = Ok [] w'
           ∧ ncalls w' = ncalls w + 1)).
Proof.
  split; [| split].
  - intros Hpage Hfull Hshort fuel Hfuel.
    apply (remove_loop_stops_at_short_page sp playlist_id k fuel page 0 [] w);
      auto.
  - intros Hpage Hmore Hstop fuel Hfuel.
    apply (analyzer_loop_stops_at_total sp playlist_id k fuel page 0 [] w);
      auto.
  - intros Hfirst Hempty fuel Hfuel.
    assert (fetched_ids page 1 = []) as Hnone.
    { unfold fetched_ids. simpl. by rewrite Hempty. }
    rewrite <- Hnone. split.
    + apply (remove_loop_stops_at_short_page sp playlist_id 0 fuel page 0 [] w);
        [lia | | lia | rewrite Hempty; simpl; lia].
      intros i Hi. assert (i = 0) as -> by lia.
      rewrite Nat.add_0_r. exact Hfirst.
    + apply (analyzer_loop_stops_at_total sp playlist_id 0 fuel page 0 [] w);
        [lia | | lia | by left].
      intros i Hi. assert (i = 0) as -> by lia.
      rewrite Nat.add_0_r. exact Hfirst.
Qed.

Lemma pagination_loops_terminate_witness :
  (exists w',
      Remove.get_playlist_tracks (paged_client long_playlist 100) 2 "pl" w0
      = Ok (replicate 100 "a" ++ ["b"]) w'
      ∧ ncalls w' = 2)
  ∧ (exists w',
        Analyzer.get_playlist_tracks (paged_client long_playlist 100) 2 "pl" w0
        = Ok (replicate 100 "a" ++ ["b"]) w'
        ∧ ncalls w' = 2)
  ∧ (exists w',
        Remove.get_playlist_tracks steady_client 1 "pl" w0 = Ok [] w'
        ∧ ncalls w' = 1)
  ∧ (exists w',
        Analyzer.get_playlist_tracks steady_client 1 "pl" w0 = Ok [] w'
        ∧ ncalls w' = 1).
Proof.
  destruct (pagination_loops_terminate
              (paged_client long_playlist 100) "pl" long_playlist_page 1 w0)
    as (Hremove & Hanalyze & _).
  destruct (pagination_loops_terminate steady_client "pl" empty_page 0 w0)
    as (_ & _ & Hempty).
  split; [| split].
  - destruct (Hremove) with (fuel := 2) as (w' & Hrun & Hn).
    + intros i Hi. reflexivity.
    + intros i Hi. assert (i = 0) as -> by lia. vm_compute. lia.
    + vm_compute. lia.
    + lia.
    + exists w'. split; [exact Hrun | exact Hn].
  - destruct (Hanalyze) with (fuel := 2) as (w' & Hrun & Hn).
    + intros i Hi. destruct i as [|[|i]]; [reflexivity | reflexivity | lia].
    + intros i Hi. assert (i = 0) as -> by lia.
      split; [discriminate | vm_compute; lia].
    + right. vm_compute. lia.
    + lia.
    + exists w'. split; [exact Hrun | exact Hn].
  - destruct (Hempty eq_refl eq_refl 1 ltac:(lia))
      as [(w1 & Hrun1 & Hn1) (w2 & Hrun2 & Hn2)].
    split; [exists w1 | exists w2]; split; assumption.
Defined.

(** ** Pagination over an honest source *)

Lemma div_step a c : 0 < c -> c ≤ a -> a / c = (a - c) / c + 1.
Proof.
  intros Hc Hle. replace a with ((a - c) + 1 * c) at 1 by lia.
  apply Nat.div_add. lia.
Qed.

Lemma ceil_div_step a c : 0 < c -> c < a -> ceil_div a c = ceil_div (a - c) c + 1.
Proof.
  intros Hc Hlt. unfold ceil_div.
  rewrite (div_step (a + c - 1) c) by lia. do 2 f_equal. lia.
Qed.

Lemma ceil_div_one a c : 0 < a -> a ≤ c -> ceil_div a c = 1.
Proof.
  intros Ha Hle. unfold ceil_div.
  rewrite (div_step (a + c - 1) c) by lia.
  rewrite Nat.div_small by lia. reflexivity.
Qed.

Lemma ceil_div_pos a c : 0 < c -> 0 < a -> 0 < ceil_div a c.
Proof. intros Hc Ha. unfold ceil_div. apply Nat.div_str_pos. lia. Qed.

Lemma ceil_div_zero c : 0 < c -> ceil_div 0 c = 0.
Proof. intros Hc. unfold ceil_div. apply Nat.div_small. lia. Qed.

(** The call count of the short-page loops against the claimed ceiling: one
    more when the size is a multiple of the page size. *)
Lemma floor_succ_ceil_div a c :
  0 < c -> a / c + 1 = ceil_div a c + (if a mod c =? 0 then 1 else 0).
Proof.
  intros Hc. unfold ceil_div.
  pose proof (Nat.div_mod_eq a c) as Ha.
  pose proof (Nat.mod_upper_bound a c ltac:(lia)) as Hm.
  destruct (a mod c =? 0) eqn:Hz.
  - apply Nat.eqb_eq in Hz.
    assert ((a + c - 1) / c = a / c) as ->; [| lia].
    symmetry. apply (Nat.div_unique _ _ _ (c - 1)); [lia | nia].
  - apply Nat.eqb_neq in Hz.
    assert ((a + c - 1) / c = a / c + 1) as ->; [| lia].
    symmetry. apply (Nat.div_unique _ _ _ (a mod c - 1)); [lia | nia].
Qed.

Section HonestSource.
Variable sp : Client.
Variable remote : list Item.
Variable playlist_id : string.

Lemma clean_loop_honest fuel : forall offset acc w,
  serves sp remote 100 ->
  offset ≤ length remote ->
  (length remote - offset) / 100 < fuel ->
  exists w',
    Clean.get_playlist_tracks_loop sp fuel playlist_id acc offset w
    = Ok (acc ++ Clean.track_refs_of (drop offset remote)) w'
    ∧ ncalls w' = ncalls w + ((length remote - offset) / 100 + 1).
Proof.
  induction fuel as [|fuel IH]; intros offset acc w Hserves Hoff Hfuel; [lia |].
  simpl Clean.get_playlist_tracks_loop.
  unfold bind at 1, Clean.sp_playlist_tracks, call. rewrite Hserves.
  unfold page_of. cbn [items]. rewrite length_take, length_drop.
  destruct (decide (length remote - offset < 100)) as [Hshort | Hfull].
  - rewrite (proj2 (Nat.ltb_lt _ _)) by lia.
    rewrite take_ge by (rewrite length_drop; lia).
    rewrite Nat.div_small by lia.
    eexists. split; [reflexivity | cbn [ncalls]; lia].
  - rewrite (proj2 (Nat.ltb_ge _ _)) by lia.
    rewrite (div_step (length remote - offset) 100) in * by lia.
    destruct (IH (offset + 100)
                (acc ++ Clean.track_refs_of (take 100 (drop offset remote)))
                {| ncalls := S (ncalls w);
                   trace := trace w
                            ++ [EvCall (CallPlaylistTracks playlist_id offset)] |}
                Hserves)
      as (w' & -> & Hn); [lia | |].
    { replace (length remote - (offset + 100))
        with (length remote - offset - 100) by lia. lia. }
    exists w'. split.
    + rewrite <- app_assoc. do 2 f_equal. unfold Clean.track_refs_of.
      rewrite <- omap_app. f_equal.
      rewrite <- drop_drop. apply take_drop.
    + cbn [ncalls] in Hn.
      replace (length remote - (offset + 100))
        with (length remote - offset - 100) in Hn by lia. lia.
Qed.

Lemma analyzer_loop_honest limit fuel : forall offset acc w,
  0 < limit ->
  serves sp remote limit ->
  offset < length remote ->
  ceil_div (length remote - offset) limit ≤ fuel ->
  exists w',
    Analyzer.get_playlist_tracks_loop sp fuel playlist_id acc offset w
    = Ok (acc ++ Analyzer.track_ids_of (drop offset remote)) w'
    ∧ ncalls w' = ncalls w + ceil_div (length remote - offset) limit.
Proof.
  induction fuel as [|fuel IH]; intros offset acc w Hlimit Hserves Hoff Hfuel.
  { pose proof (ceil_div_pos (length remote - offset) limit). lia. }
  simpl Analyzer.get_playlist_tracks_loop.
  unfold bind at 1, Analyzer.sp_playlist_tracks, call. rewrite Hserves.
  unfold page_of. cbn [items total].
  destruct (take limit (drop offset remote)) as [|it its] eqn:Hpage.
  { apply (f_equal length) in Hpage.
    rewrite length_take, length_drop in Hpage. simpl in Hpage. lia. }
  rewrite <- Hpage. rewrite length_take, length_drop.
  destruct (decide (length remote - offset ≤ limit)) as [Hlast | Hmore].
  - rewrite (proj2 (Nat.leb_le _ _)) by lia.
    rewrite take_ge by (rewrite length_drop; lia).
    rewrite ceil_div_one by lia.
    eexists. split; [reflexivity | cbn [ncalls]; lia].
  - rewrite (proj2 (Nat.leb_gt _ _)) by lia.
    unfold bind at 1, sleep, emit.
    rewrite (ceil_div_step (length remote - offset) limit) in * by lia.
    rewrite Nat.min_l by lia.
    edestruct (IH (offset + limit)
                 (acc ++ Analyzer.track_ids_of (take limit (drop offset remote))))
      as (w' & -> & Hn); [exact Hlimit | exact Hserves | lia | |].
    { replace (length remote - (offset + limit))
        with (length remote - offset - limit) by lia. lia. }
    exists w'. split.
    + rewrite <- app_assoc. do 2 f_equal. unfold Analyzer.track_ids_of.
      rewrite <- omap_app. f_equal.
      rewrite <- drop_drop. apply take_drop.
    + cbn [ncalls] in Hn.
      replace (length remote - (offset + limit))
        with (length remote - offset - limit) in Hn by lia. lia.
Qed.

End HonestSource.

Lemma track_refs_all_present remote :
  Forall (fun item => is_Some (item_track item)) remote ->
  Some <$> Clean.track_refs_of remote = item_track <$> remote.
Proof.
  induction 1 as [|item remote [ref Href] _ IH]; [reflexivity |].
  unfold Clean.track_refs_of in *. simpl. rewrite Href. simpl.
  f_equal. exact IH.
Qed.

Lemma track_ids_all_present remote :
  Forall (fun item => is_Some (item_track item)) remote ->
  Some <$> Analyzer.track_ids_of remote
  = (fun item => ref_id <$> item_track item) <$> remote.
Proof.
  induction 1 as [|item remote [ref Href] _ IH]; [reflexivity |].
  unfold Analyzer.track_ids_of in *. simpl. rewrite Href. simpl.
  f_equal. exact IH.
Qed.

(** C3, as the code has it.  Against a source that serves a collection of [T]
    entries honestly (page by page, reporting the total [T]):
    - [analyzer.py]'s paginator, for any page size [limit > 0] of the source,
      returns the ids of the entries in order and calls the source
      [max 1 (ceil (T / limit))] times: a first call is needed even when the
      collection is empty;
    - [clean.py]'s paginator, whose page size 100 is fixed, returns the
      entries in order and calls the source [T / 100 + 1] times, that is
      [ceil (T / 100)] times and once more when [T] is a multiple of 100,
      because only a short page stops it;
    - entries without a track are dropped by both; when every entry has a
      track the result lists exactly the [T] entries, in the original order. *)
Theorem paginator_honest_source
    (sp : Client) (remote : list Item) (playlist_id : string) (w : World) :
  (forall limit fuel,
      0 < limit ->
      serves sp remote limit ->
      max 1 (ceil_div (length remote) limit) ≤ fuel ->
      exists w',
        Analyzer.get_playlist_tracks sp fuel playlist_id w
        = Ok (Analyzer.track_ids_of remote) w'
        ∧ ncalls w' = ncalls w + max 1 (ceil_div (length remote) limit))
  ∧ (forall fuel,
        serves sp remote 100 ->
        length remote / 100 + 1 ≤ fuel ->
        exists w',
          Clean.get_playlist_tracks sp fuel playlist_id w
          = Ok (Clean.track_refs_of remote) w'
          ∧ ncalls w' = ncalls w + (length remote / 100 + 1)
          ∧ length remote / 100 + 1
            = ceil_div (length remote) 100
              + (if length remote mod 100 =? 0 then 1 else 0))
  ∧ (Forall (fun item => is_Some (item_track item)) remote ->
     Some <$> Clean.track_refs_of remote = item_track <$> remote
     ∧ Some <$> Analyzer.track_ids_of remote
       = (fun item => ref_id <$> item_track item) <$> remote
     ∧ length (Clean.track_refs_of remote) = length remote
     ∧ length (Analyzer.track_ids_of remote) = length remote).
Proof.
  split; [| split].
  - intros limit fuel Hlimit Hserves Hfuel.
    unfold Analyzer.get_playlist_tracks.
    destruct remote as [|item rest] eqn:Hremote.
    + destruct fuel as [|fuel]; [lia |].
      simpl Analyzer.get_playlist_tracks_loop.
      unfold bind, Analyzer.sp_playlist_tracks, call. rewrite Hserves.
      unfold page_of. rewrite drop_nil, take_nil. cbn [items].
      rewrite ceil_div_zero by exact Hlimit.
      eexists. split; [reflexivity | cbn [ncalls]; lia].
    + rewrite <- Hremote in *.
      assert (0 < length remote) as Hpos by (rewrite Hremote; simpl; lia).
      pose proof (ceil_div_pos (length remote) limit Hlimit Hpos) as Hc.
      rewrite Nat.max_r in * by lia.
      destruct (analyzer_loop_honest sp remote playlist_id limit fuel 0 [] w)
        as (w' & Hrun & Hn); [lia | exact Hserves | lia | | ].
      { rewrite Nat.sub_0_r. lia. }
      exists w'. rewrite Nat.sub_0_r in Hn. split; [exact Hrun | exact Hn].
  - intros fuel Hserves Hfuel. unfold Clean.get_playlist_tracks.
    destruct (clean_loop_honest sp remote playlist_id fuel 0 [] w Hserves)
      as (w' & Hrun & Hn); [lia | rewrite Nat.sub_0_r; lia |].
    exists w'. rewrite Nat.sub_0_r in Hn.
    split; [exact Hrun | split; [exact Hn |]].
    apply floor_succ_ceil_div. lia.
  - intros Hall.
    pose proof (track_refs_all_present remote Hall) as Hrefs.
    pose proof (track_ids_all_present remote Hall) as Hids.
    split; [exact Hrefs | split; [exact Hids |]].
    apply (f_equal length) in Hrefs. apply (f_equal length) in Hids.
    rewrite !length_fmap in Hrefs. rewrite !length_fmap in Hids. by split.
Qed.

Lemma paginator_honest_source_witness :
  (exists w',
      Analyzer.get_playlist_tracks (paged_client three_entries 2) 2 "pl" w0
      = Ok ["a"; "b"; "c"] w'
      ∧ ncalls w' = 2)
  ∧ (exists w',
        Clean.get_playlist_tracks (paged_client three_entries 100) 1 "pl" w0
        = Ok (Clean.track_refs_of three_entries) w'
        ∧ ncalls w' = 1)
  ∧ length (Clean.track_refs_of three_entries) = 3.
Proof.
  destruct (paginator_honest_source
              (paged_client three_entries 2) three_entries "pl" w0)
    as (Hanalyze & _ & _).
  destruct (paginator_honest_source
              (paged_client three_entries 100) three_entries "pl" w0)
    as (_ & Hclean & Hall).
  split; [| split].
  - destruct (Hanalyze 2 2) as (w' & Hrun & Hn).
    + lia.
    + intros n p o. reflexivity.
    + vm_compute. lia.
    + exists w'. split; [exact Hrun | exact Hn].
  - destruct (Hclean 1) as (w' & Hrun & Hn & _).
    + intros n p o. reflexivity.
    + vm_compute. lia.
    + exists w'. split; [exact Hrun | exact Hn].
  - apply Hall. repeat constructor; by eexists.
Defined.

(** C3 as stated fails.  A collection of exactly one full page, one of whose
    entries has no track: [clean.py]'s paginator returns 99 elements, not
    100, and calls the source twice, not [ceil (100 / 100) = 1] times.  An
    empty collection: [analyzer.py]'s paginator calls the source once, not
    [ceil (0 / 100) = 0] times. *)
Lemma paginator_claim_fails :
  length hundred_with_null = 100
  ∧ (exists r w',
        Clean.get_playlist_tracks (paged_client hundred_with_null 100) 3 "pl" w0
        = Ok r w'
        ∧ length r = 99 ∧ ncalls w' = 2 ∧ ceil_div 100 100 = 1)
  ∧ ¬ paginator_claim
        (Clean.get_playlist_tracks (paged_client hundred_with_null 100) 3 "pl")
        w0 100 100
  ∧ (exists w',
        Analyzer.get_playlist_tracks (paged_client [] 100) 3 "pl" w0 = Ok [] w'
        ∧ ncalls w' = 1 ∧ ceil_div 0 100 = 0)
  ∧ ¬ paginator_claim
        (Analyzer.get_playlist_tracks (paged_client [] 100) 3 "pl") w0 0 100.
Proof.
  split; [reflexivity |].
  split; [do 2 eexists; split; [vm_compute; reflexivity | by vm_compute] |].
  split.
  { intros (r & w' & Hrun & Hlen & Hcalls).
    vm_compute in Hrun. injection Hrun as <- <-.
    vm_compute in Hlen. discriminate. }
  split; [eexists; split; [vm_compute; reflexivity | by vm_compute] |].
  intros (r & w' & Hrun & Hlen & Hcalls).
  vm_compute in Hrun. injection Hrun as <- <-.
  vm_compute in Hcalls. lia.
Qed.

(** ** Errors other than rate limiting *)

(** After [j < 3] rate-limited attempts, a failure of any other kind ends
    [_process_track_with_retry]: no further attempt, no further sleep, and
    the item is reported as [None]. *)
Lemma process_track_abandons_other_errors
    (sp : Client) (track_id exclude_keyword : string) (j : nat)
    (hs : nat -> gmap string nat) (e : exn) (w : World) :
  j < 3 ->
  (forall i, i < j -> track sp (ncalls w + i) track_id = rate_limited (hs i)) ->
  track sp (ncalls w + j) track_id = Raises e ->
  ¬ is_rate_limit e ->
  exists delta,
    Spotify._process_track_with_retry sp track_id exclude_keyword w
    = Ok None {| ncalls := ncalls w + (j + 1); trace := trace w ++ delta |}
    ∧ calls delta = replicate (j + 1) (CallTrack track_id)
    ∧ sleeps delta = (fun i => suggested_wait (hs i)) <$> seq 0 j.
Proof.
  intros Hj Hfail Hraise Hother.
  unfold Spotify._process_track_with_retry.
  rewrite (process_loop_backoff sp track_id exclude_keyword j _ _ _ hs)
    by (lia || done).
  assert (exists last,
    Spotify._process_track_with_retry_loop sp (4 - j) (0 + j) 3 track_id
      exclude_keyword
      {| ncalls := ncalls w + j;
         trace := trace w ++ backoff_trace (CallTrack track_id) 3 0 j hs |}
    = Ok None
        {| ncalls := S (ncalls w + j);
           trace := (trace w ++ backoff_trace (CallTrack track_id) 3 0 j hs)
                    ++ [EvCall (CallTrack track_id); EvPrint last] |})
    as [last ->].
  { replace (4 - j) with (S (S (2 - j))) by lia.
    destruct e as [e' | msg | msg].
    - eexists. apply process_loop_spotify_error; [simpl; lia | | exact Hraise].
      intros Hstatus. apply Hother. by exists e'.
    - eexists. apply process_loop_other_error; [simpl; lia | | exact Hraise].
      intros e'; discriminate.
    - eexists. apply process_loop_other_error; [simpl; lia | | exact Hraise].
      intros e'; discriminate. }
  eexists. split; [| split].
  - rewrite <- app_assoc. f_equal. f_equal. lia.
  - rewrite calls_app, calls_backoff, replicate_add. reflexivity.
  - rewrite sleeps_app, sleeps_backoff. simpl. by rewrite app_nil_r.
Qed.

(** The same for [_add_batch_with_retry], which reports [False]. *)
Lemma add_batch_abandons_other_errors
    (sp : Client) (playlist_id : string) (batch : list string)
    (batch_number total_batches : nat) (j : nat)
    (hs : nat -> gmap string nat) (e : exn) (w : World) :
  j < 3 ->
  (forall i, i < j ->
     playlist_add_items sp (ncalls w + i) playlist_id batch = rate_limited (hs i)) ->
  playlist_add_items sp (ncalls w + j) playlist_id batch = Raises e ->
  ¬ is_rate_limit e ->
  exists delta,
    Spotify._add_batch_with_retry sp playlist_id batch batch_number
      total_batches w
    = Ok false {| ncalls := ncalls w + (j + 1); trace := trace w ++ delta |}
    ∧ calls delta = replicate (j + 1) (CallPlaylistAddItems playlist_id batch)
    ∧ sleeps delta = (fun i => suggested_wait (hs i)) <$> seq 0 j.
Proof.
  intros Hj Hfail Hraise Hother.
  unfold Spotify._add_batch_with_retry.
  rewrite (add_loop_backoff sp playlist_id batch batch_number total_batches
             j _ _ _ hs) by (lia || done).
  assert (exists last,
    Spotify._add_batch_with_retry_loop sp (4 - j) (0 + j) 3 playlist_id batch
      batch_number total_batches
      {| ncalls := ncalls w + j;
         trace := trace w ++ backoff_trace
                               (CallPlaylistAddItems playlist_id batch) 3 0 j hs |}
    = Ok false
        {| ncalls := S (ncalls w + j);
           trace := (trace w ++ backoff_trace
                                  (CallPlaylistAddItems playlist_id batch) 3 0 j hs)
                    ++ [EvCall (CallPlaylistAddItems playlist_id batch);
                        EvPrint last] |})
    as [last ->].
  { replace (4 - j) with (S (S (2 - j))) by lia.
    destruct e as [e' | msg | msg].
    - eexists. apply add_loop_spotify_error; [simpl; lia | | exact Hraise].
      intros Hstatus. apply Hother. by exists e'.
    - eexists. apply add_loop_other_error; [simpl; lia | | exact Hraise].
      intros e'; discriminate.
    - eexists. apply add_loop_other_error; [simpl; lia | | exact Hraise].
      intros e'; discriminate. }
  eexists. split; [| split].
  - rewrite <- app_assoc. f_equal. f_equal. lia.
  - rewrite calls_app, calls_backoff, replicate_add. reflexivity.
  - rewrite sleeps_app, sleeps_backoff. simpl. by rewrite app_nil_r.
Qed.

(** ** Removal calls *)

Lemma removed_batches_app tr1 tr2 :
  removed_batches (tr1 ++ tr2) = removed_batches tr1 ++ removed_batches tr2.
Proof. apply omap_app. Qed.

Lemma clean_loop_keeps_removals sp playlist_id fuel : forall acc offset w,
  keeps_removals
    (Clean.get_playlist_tracks_loop sp fuel playlist_id acc offset w) w.
Proof.
  induction fuel as [|fuel IH]; intros acc offset w; [exact I |].
  simpl Clean.get_playlist_tracks_loop.
  unfold bind at 1, Clean.sp_playlist_tracks, call.
  destruct (playlist_tracks sp (ncalls w) playlist_id offset) as [response | e].
  - destruct (length (items response) <? 100).
    + unfold ret, keeps_removals. cbn [trace].
      rewrite removed_batches_app. simpl. by rewrite app_nil_r.
    + specialize (IH (acc ++ Clean.track_refs_of (items response)) (offset + 100)
                    {| ncalls := S (ncalls w);
                       trace := trace w
                                ++ [EvCall (CallPlaylistTracks playlist_id offset)] |}).
      unfold keeps_removals in *.
      destruct (Clean.get_playlist_tracks_loop _ _ _ _ _ _); try exact I;
        rewrite IH; cbn [trace]; rewrite removed_batches_app; simpl;
        by rewrite app_nil_r.
  - unfold keeps_removals. cbn [trace].
    rewrite removed_batches_app. simpl. by rewrite app_nil_r.
Qed.

Lemma remove_loop_keeps_removals sp playlist_id fuel : forall acc offset w,
  keeps_removals
    (Remove.get_playlist_tracks_loop sp fuel playlist_id acc offset w) w.
Proof.
  induction fuel as [|fuel IH]; intros acc offset w; [exact I |].
  simpl Remove.get_playlist_tracks_loop.
  unfold bind at 1, Remove.sp_playlist_tracks, call.
  destruct (playlist_tracks sp (ncalls w) playlist_id offset) as [response | e].
  - destruct (length (items response) <? 100).
    + unfold ret, keeps_removals. cbn [trace].
      rewrite removed_batches_app. simpl. by rewrite app_nil_r.
    + specialize (IH (acc ++ Remove.track_ids_of (items response)) (offset + 100)
                    {| ncalls := S (ncalls w);
                       trace := trace w
                                ++ [EvCall (CallPlaylistTracks playlist_id offset)] |}).
      unfold keeps_removals in *.
      destruct (Remove.get_playlist_tracks_loop _ _ _ _ _ _); try exact I;
        rewrite IH; cbn [trace]; rewrite removed_batches_app; simpl;
        by rewrite app_nil_r.
  - unfold keeps_removals. cbn [trace].
    rewrite removed_batches_app. simpl. by rewrite app_nil_r.
Qed.

(** ** Deduplication: the workflow *)

(** While the removal calls succeed, the removal loop of [clean.py] issues one
    call per index, each with the slice starting there. *)
Lemma clean_removal_loop_success sp playlist_id (duplicates : list string) :
  (forall n b,
     playlist_remove_all_occurrences_of_items sp n playlist_id b = Returns tt) ->
  forall indices w,
  exists delta,
    for_each indices
      (fun i _ =>
         Clean.sp_playlist_remove_all_occurrences_of_items sp playlist_id
           (Py.slice duplicates i (i + 100)) ;;;
         print (MsgRemovedBatch (i / 100 + 1) (length duplicates / 100 + 1)) ;;;
         sleep Clean.RATE_LIMIT_DELAY)
      tt w
    = Ok tt {| ncalls := ncalls w + length indices; trace := trace w ++ delta |}
    ∧ removed_batches delta
      = (fun i => Py.slice duplicates i (i + 100)) <$> indices.
Proof.
  intros Hok indices.
  induction indices as [|i indices IH]; intros w.
  - exists []. cbn [for_each length]. unfold ret.
    rewrite Nat.add_0_r, app_nil_r, world_eta. done.
  - cbn [for_each length]. unfold bind at 1. unfold bind at 1.
    unfold Clean.sp_playlist_remove_all_occurrences_of_items, call.
    rewrite Hok. unfold bind at 1, print at 1, emit at 1.
    unfold sleep, emit. cbn [ncalls trace].
    edestruct IH as (delta & -> & Hdelta).
    eexists. split.
    + cbn [ncalls trace]. f_equal. f_equal; [lia |].
      rewrite <- !app_assoc. reflexivity.
    + rewrite !removed_batches_app, Hdelta. reflexivity.
Qed.

(** X23.  What the deduplication sends.  On the fetched entries the scan
    collects, in scan order, exactly the uris of the entries whose id already
    occurred earlier.  When there is no repeat the workflow prints that none
    was found and issues no removal call; otherwise, the calls succeeding, it
    sends the collected uris in batches of at most 100.  For the ids
    a, b, a, c, b the uris collected are those of the third and fifth
    entries. *)
Theorem dedupe_collects_repeats
    (sp : Client) (fuel : nat) (playlist_id : string) (w w1 : World)
    (tracks : list TrackRef) :
  Clean.get_playlist_tracks sp fuel playlist_id w = Ok tracks w1 ->
  Clean.find_duplicates tracks = repeat_uris tracks
  ∧ removed_batches (trace w1) = removed_batches (trace w)
  ∧ (repeat_uris tracks = [] ->
     Clean.remove_duplicate_tracks sp fuel playlist_id w
     = Ok tt {| ncalls := ncalls w1;
                trace := trace w1 ++ [EvPrint MsgNoDuplicates] |}
     ∧ removed_batches (trace w1 ++ [EvPrint MsgNoDuplicates])
       = removed_batches (trace w))
  ∧ (repeat_uris tracks ≠ [] ->
     (forall n b,
        playlist_remove_all_occurrences_of_items sp n playlist_id b = Returns tt) ->
     exists delta,
       Clean.remove_duplicate_tracks sp fuel playlist_id w
       = Ok tt {| ncalls := ncalls w1 + length (batches 100 (repeat_uris tracks));
                  trace := trace w1 ++ delta |}
       ∧ removed_batches delta = batches 100 (repeat_uris tracks)
       ∧ concat (removed_batches delta) = repeat_uris tracks)
  ∧ (forall u1 u2 u3 u4 u5,
        Clean.find_duplicates (example_tracks u1 u2 u3 u4 u5) = [u3; u5]).
Proof.
  intros Hfetch.
  assert (removed_batches (trace w1) = removed_batches (trace w)) as Hkeep.
  { pose proof (clean_loop_keeps_removals sp playlist_id fuel [] 0 w) as Hk.
    unfold Clean.get_playlist_tracks in Hfetch. rewrite Hfetch in Hk.
    exact Hk. }
  split; [apply find_duplicates_repeat_uris |].
  split; [exact Hkeep |].
  split; [| split].
  - intros Hnone. unfold Clean.remove_duplicate_tracks.
    unfold bind at 1. rewrite Hfetch, find_duplicates_repeat_uris, Hnone.
    split; [reflexivity |].
    rewrite removed_batches_app, Hkeep. simpl. by rewrite app_nil_r.
  - intros Hsome Hok. unfold Clean.remove_duplicate_tracks.
    unfold bind at 1. rewrite Hfetch, find_duplicates_repeat_uris.
    destruct (repeat_uris tracks) as [|u us] eqn:Hdups; [done |].
    rewrite <- Hdups.
    unfold bind at 1, print at 1, emit at 1. unfold bind at 1.
    edestruct (clean_removal_loop_success sp playlist_id (repeat_uris tracks) Hok)
      as (delta & -> & Hdelta).
    unfold print, emit. cbn [ncalls trace].
    eexists. split; [| split].
    + f_equal. f_equal.
      * unfold batches. rewrite length_fmap. reflexivity.
      * rewrite <- !app_assoc. reflexivity.
    + rewrite !removed_batches_app, Hdelta. simpl. by rewrite app_nil_r.
    + rewrite !removed_batches_app, Hdelta. simpl. rewrite app_nil_r.
      apply batches_concat. lia.
  - intros u1 u2 u3 u4 u5. reflexivity.
Qed.

Lemma dedupe_collects_repeats_witness :
  (exists delta,
      Clean.remove_duplicate_tracks (paged_client example_playlist 100) 1 "pl" w0
      = Ok tt {| ncalls := 2; trace := trace after_one_read ++ delta |}
      ∧ removed_batches delta = [["spotify:track:a"; "spotify:track:b"]])
  ∧ Clean.remove_duplicate_tracks (paged_client three_entries 100) 1 "pl" w0
    = Ok tt {| ncalls := 1;
               trace := trace after_one_read ++ [EvPrint MsgNoDuplicates] |}.
Proof.
  split.
  - destruct (dedupe_collects_repeats
                (paged_client example_playlist 100) 1 "pl" w0 after_one_read
                (Clean.track_refs_of example_playlist) eq_refl)
      as (_ & _ & _ & Hsome & _).
    destruct Hsome as (delta & Hrun & Hbatches & _).
    + discriminate.
    + intros n b. reflexivity.
    + exists delta. split; [exact Hrun | exact Hbatches].
  - destruct (dedupe_collects_repeats
                (paged_client three_entries 100) 1 "pl" w0 after_one_read
                (Clean.track_refs_of three_entries) eq_refl)
      as (_ & _ & Hnone & _).
    destruct Hnone as [Hrun _]; [reflexivity | exact Hrun].
Defined.

(** *** What the removal calls leave of the playlist *)

Lemma track_refs_of_entries ids :
  Clean.track_refs_of (entry <$> ids)
  = (fun id => {| ref_id := id; ref_uri := "spotify:track:" +:+ id |}) <$> ids.
Proof.
  unfold Clean.track_refs_of.
  induction ids as [|id ids IH]; [reflexivity |].
  cbn [fmap list_fmap omap list_omap entry item_track]. by rewrite IH.
Qed.

(** The uri of a track is collected exactly when the track has an entry after
    its first one. *)
Lemma repeat_uris_of_entries ids id :
  "spotify:track:" +:+ id
    ∈ Clean.find_duplicates (Clean.track_refs_of (entry <$> ids))
  <-> exists i, ids !! i = Some id ∧ id ∈ take i ids.
Proof.
  rewrite find_duplicates_repeat_uris, track_refs_of_entries.
  unfold repeat_uris. rewrite list_elem_of_omap. split.
  - intros (i & _ & Hrep). exists i.
    unfold is_repeat in Hrep. rewrite list_lookup_fmap in Hrep.
    destruct (ids !! i) as [id'|] eqn:Hlook; cbn in Hrep; [| discriminate].
    destruct (bool_decide _) eqn:Hdec; [| discriminate].
    assert (id' = id) as ->.
    { apply (String.app_inj "spotify:track:"). congruence. }
    split; [reflexivity |].
    apply bool_decide_eq_true_1 in Hdec.
    rewrite <- fmap_take, <- list_fmap_compose in Hdec.
    apply list_elem_of_fmap in Hdec as (id' & Heq' & Hin).
    cbn in Heq'. by subst id.
  - intros (i & Hlook & Hin). exists i. split.
    + apply elem_of_seq. rewrite length_fmap.
      apply lookup_lt_Some in Hlook. lia.
    + unfold is_repeat. rewrite list_lookup_fmap, Hlook. cbn.
      rewrite bool_decide_eq_true_2; [reflexivity |].
      rewrite <- fmap_take, <- list_fmap_compose.
      apply list_elem_of_fmap. by exists id.
Qed.

(** General form of the effect: after deduplication an entry is left only if
    its track occurs once; every track that was repeated is gone, first entry
    included. *)
Lemma dedupe_removes_every_repeated_track ids id :
  entry id
    ∈ remove_all_occurrences
        (Clean.find_duplicates (Clean.track_refs_of (entry <$> ids)))
        (entry <$> ids)
  <-> id ∈ ids ∧ ¬ (exists i, ids !! i = Some id ∧ id ∈ take i ids).
Proof.
  unfold remove_all_occurrences.
  rewrite list_elem_of_In, List.filter_In, <- list_elem_of_In.
  cbn [entry item_track ref_uri]. rewrite negb_true_iff, bool_decide_eq_false.
  rewrite repeat_uris_of_entries. split; intros [Hin Hnot]; (split; [| exact Hnot]).
  - apply list_elem_of_fmap in Hin as (id' & Heq & Hin).
    injection Heq as Heq _. by subst id'.
  - apply list_elem_of_fmap. by exists id.
Qed.

(** C6.  The uris collected are sent to the endpoint that removes every
    occurrence of an item, and a track's uri is the same at each of its
    entries: for the playlist a, b, a, c, b the one removal call names the
    uris of a and b, which takes the first entries of a and b away with the
    repeats and leaves c alone, where the specified deduplication leaves
    a, b, c. *)
Theorem dedupe_removes_first_occurrences :
  exists delta,
    Clean.remove_duplicate_tracks (paged_client example_playlist 100) 1 "pl" w0
    = Ok tt {| ncalls := 2; trace := delta |}
    ∧ removed_batches delta = [["spotify:track:a"; "spotify:track:b"]]
    ∧ playlist_after delta example_playlist = [entry "c"]
    ∧ keep_first_occurrences_spec example_playlist
      = [entry "a"; entry "b"; entry "c"]
    ∧ playlist_after delta example_playlist
      ≠ keep_first_occurrences_spec example_playlist.
Proof.
  eexists. split; [vm_compute; reflexivity |].
  split; [reflexivity |]. split; [vm_compute; reflexivity |].
  split; [vm_compute; reflexivity |]. vm_compute. discriminate.
Qed.

(** ** Removal by id *)

(** The removal loop of [remove.py] issues one call per index whatever the
    calls answer: a failing batch is reported and the loop goes on. *)
Lemma remove_removal_loop sp playlist_id (uris : list string) :
  forall indices w,
  exists delta,
    for_each indices
      (fun i _ =>
         let batch := Py.slice uris i (i + 100) in
         try_except
           (Remove.sp_playlist_remove_all_occurrences_of_items sp playlist_id
              batch ;;;
            print (MsgRemovedBatch (i / 100 + 1) (length uris / 100 + 1)) ;;;
            sleep Remove.RATE_LIMIT_DELAY)
           (fun e => print (MsgErrorRemovingBatch e)))
      tt w
    = Ok tt {| ncalls := ncalls w + length indices; trace := trace w ++ delta |}
    ∧ removed_batches delta = (fun i => Py.slice uris i (i + 100)) <$> indices.
Proof.
  induction indices as [|i indices IH]; intros w.
  - exists []. cbn [for_each length]. unfold ret.
    rewrite Nat.add_0_r, app_nil_r, world_eta. done.
  - cbn [for_each length]. unfold bind at 1. cbv zeta.
    unfold try_except, bind at 1.
    unfold Remove.sp_playlist_remove_all_occurrences_of_items, call.
    destruct (playlist_remove_all_occurrences_of_items sp (ncalls w) playlist_id
                (Py.slice uris i (i + 100))) as [[] | e].
    + unfold bind at 1, print at 1, emit at 1. unfold sleep, emit.
      cbn [ncalls trace].
      edestruct IH as (delta & -> & Hdelta).
      eexists. split.
      * cbn [ncalls trace]. f_equal. f_equal; [lia |].
        rewrite <- !app_assoc. reflexivity.
      * rewrite !removed_batches_app, Hdelta. reflexivity.
    + unfold print, emit. cbn [ncalls trace].
      edestruct IH as (delta & -> & Hdelta).
      eexists. split.
      * cbn [ncalls trace]. f_equal. f_equal; [lia |].
        rewrite <- !app_assoc. reflexivity.
      * rewrite !removed_batches_app, Hdelta. reflexivity.
Qed.



(** ** A failing removal batch *)

(** In [clean.py] the removal call sits in no [try]: when the first batch
    fails, the exception leaves [remove_duplicate_tracks] and the remaining
    batches are never sent. *)
Lemma clean_removal_failure_aborts
    (sp : Client) (fuel : nat) (playlist_id : string) (w w1 : World)
    (tracks : list TrackRef) (e : exn) :
  Clean.get_playlist_tracks sp fuel playlist_id w = Ok tracks w1 ->
  repeat_uris tracks ≠ [] ->
  playlist_remove_all_occurrences_of_items sp (ncalls w1) playlist_id
    (Py.slice (repeat_uris tracks) 0 100) = Raises e ->
  Clean.remove_duplicate_tracks sp fuel playlist_id w
  = Raise e
      {| ncalls := S (ncalls w1);
         trace := trace w1
                  ++ [EvPrint (MsgFoundDuplicates (length (repeat_uris tracks)));
                      EvCall (CallPlaylistRemoveAll playlist_id
                                (Py.slice (repeat_uris tracks) 0 100))] |}.
Proof.
  intros Hfetch Hsome Hraise. unfold Clean.remove_duplicate_tracks.
  unfold bind at 1. rewrite Hfetch, find_duplicates_repeat_uris.
  destruct (repeat_uris tracks) as [|u us] eqn:Hdups; [done |].
  rewrite <- Hdups in *.
  unfold bind at 1, print at 1, emit at 1. unfold bind at 1.
  assert (Py.range 0 (length (repeat_uris tracks)) 100
          = 0 :: ((fun k => 0 + k * 100)
                    <$> seq 1 ((length (repeat_uris tracks) - 0 + 100 - 1) / 100 - 1)))
    as ->.
  { unfold Py.range.
    destruct ((length (repeat_uris tracks) - 0 + 100 - 1) / 100) as [|n] eqn:Hn.
    - rewrite Hdups in Hn. cbn [length] in Hn.
      rewrite Nat.div_small_iff in Hn; lia.
    - rewrite Nat.sub_succ, Nat.sub_0_r. reflexivity. }
  cbn [for_each]. unfold bind at 1. unfold bind at 1.
  unfold Clean.sp_playlist_remove_all_occurrences_of_items, call.
  cbn [ncalls trace]. change (0 + 100) with 100. rewrite Hraise.
  rewrite <- app_assoc. reflexivity.
Qed.

(** C2 (the code departs from the claim).  A playlist holding one track 102
    times has 101 duplicates, hence two removal batches.  When the removal
    endpoint answers with a server error, [clean.py] raises out of
    [remove_duplicate_tracks] after the first batch and never sends the
    second, whereas [remove.py], whose loop wraps the same call in a [try],
    reports the failure, sends both batches and returns. *)
Theorem dedupe_batch_failure_aborts_run :
  length (batches 100
            (Clean.find_duplicates (Clean.track_refs_of duplicated_playlist))) = 2
  ∧ (exists w',
        Clean.remove_duplicate_tracks
          (failing_removal_client duplicated_playlist) 3 "pl" w0
        = Raise server_error w'
        ∧ removed_batches (trace w') = [replicate 100 "spotify:track:a"]
        ∧ prints (trace w') = [MsgFoundDuplicates 101])
  ∧ (exists w',
        Remove.remove_tracks_from_playlist
          (failing_removal_client duplicated_playlist) 3 "pl"
          (replicate 101 "a") w0
        = Ok tt w'
        ∧ removed_batches (trace w')
          = [replicate 100 "spotify:track:a"; ["spotify:track:a"]]
        ∧ prints (trace w')
          = [MsgRemoving 101; MsgErrorRemovingBatch server_error;
             MsgErrorRemovingBatch server_error; MsgRemoved 101]).
Proof.
  split; [by vm_compute |].
  split; eexists; (split; [vm_compute; reflexivity |]);
    split; vm_compute; reflexivity.
Qed.

(* ================================================================== *)
(** * Further properties of the scripts *)
(* ================================================================== *)

(** ** The retry wrappers under arbitrary failures *)

(** X1.  Whatever the remote answers, each retry wrapper ends after at least
    one and at most three attempts of its own call, having slept at most once
    per attempt.  It ends by returning ([_process_track_with_retry] yields the
    id it was given or [None]) or by an exception raised in the handler of a
    rate-limit response; it returns whenever the rate-limit responses to its
    call carry a plain wait. *)
Theorem retry_wrappers_bounded (sp : Client) (w : World) :
  (forall track_id exclude_keyword,
      exists delta n,
        let run := Spotify._process_track_with_retry sp track_id exclude_keyword w in
        let w' := {| ncalls := ncalls w + n; trace := trace w ++ delta |} in
        calls delta = replicate n (CallTrack track_id)
        ∧ 1 ≤ n ≤ 3
        ∧ length (sleeps delta) ≤ n
        ∧ ((exists r, run = Ok r w' ∧ (r = None ∨ r = Some track_id))
           ∨ (exists e, run = Raise e w'))
        ∧ ((forall i e,
               track sp (ncalls w + i) track_id = Raises (Spotify e) ->
               http_status e = 429 -> plain_wait e = true) ->
           exists r, run = Ok r w'))
  ∧ (forall playlist_id batch batch_number total_batches,
        exists delta n,
          let run := Spotify._add_batch_with_retry sp playlist_id batch
                       batch_number total_batches w in
          let w' := {| ncalls := ncalls w + n; trace := trace w ++ delta |} in
          calls delta = replicate n (CallPlaylistAddItems playlist_id batch)
          ∧ 1 ≤ n ≤ 3
          ∧ length (sleeps delta) ≤ n
          ∧ ((exists success : bool, run = Ok success w')
             ∨ (exists e, run = Raise e w'))
          ∧ ((forall i e,
                 playlist_add_items sp (ncalls w + i) playlist_id batch
                 = Raises (Spotify e) ->
                 http_status e = 429 -> plain_wait e = true) ->
             exists success : bool, run = Ok success w')).
Proof.
  split.
  - intros track_id kw.
    destruct (process_track_bounded sp track_id kw w)
      as (delta & n & Hc & Hn & Hs & Hend).
    exists delta, n. cbv zeta.
    split; [exact Hc |]. split; [exact Hn |]. split; [exact Hs |].
    destruct Hend as [(r & Hrun & Hr) | (e & e0 & i & Hrun & He0 & Hst & Hpl)].
    + split; [left; by exists r |]. intros _. by exists r.
    + split; [right; by exists e |]. intros Hplain.
      rewrite (Hplain _ _ He0 Hst) in Hpl. discriminate.
  - intros playlist_id batch bn tb. unfold Spotify._add_batch_with_retry.
    destruct (add_loop_bounded sp playlist_id batch bn tb 4 0 3 w)
      as (delta & n & Hc & _ & Hn & Hpos & Hs & Hend); [lia |].
    exists delta, n. cbv zeta.
    split; [exact Hc |]. split; [lia |]. split; [exact Hs |].
    destruct Hend as [(success & Hrun) | (e & e0 & i & Hrun & He0 & Hst & Hpl)].
    + split; [left; by exists success |]. intros _. by exists success.
    + split; [right; by exists e |]. intros Hplain.
      rewrite (Hplain _ _ He0 Hst) in Hpl. discriminate.
Qed.

Lemma retry_wrappers_bounded_witness :
  (exists r w',
      Spotify._process_track_with_retry (flaky_client 2) "t1" "lofi" w0 = Ok r w')
  ∧ (exists success w',
        Spotify._add_batch_with_retry (flaky_client 2) "pl" ["t1"] 1 1 w0
        = Ok success w').
Proof.
  destruct (retry_wrappers_bounded (flaky_client 2) w0) as [Hprocess Hadd].
  split.
  - destruct (Hprocess "t1" "lofi") as (delta & n & _ & _ & _ & _ & Hreturns).
    destruct Hreturns as [r Hrun].
    + intros [|[|i]] e Hraise _; [| | discriminate Hraise];
        injection Hraise as <-; reflexivity.
    + by exists r, {| ncalls := ncalls w0 + n; trace := trace w0 ++ delta |}.
  - destruct (Hadd "pl" ["t1"] 1 1) as (delta & n & _ & _ & _ & _ & Hreturns).
    destruct Hreturns as [success Hrun].
    + intros [|[|i]] e Hraise _; [| | discriminate Hraise];
        injection Hraise as <-; reflexivity.
    + by exists success, {| ncalls := ncalls w0 + n; trace := trace w0 ++ delta |}.
Defined.

(** A [Retry-After] header that is no numeral: the exception raised by its
    conversion leaves the wrapper after one call, without any sleep. *)
Example process_track_unreadable_wait :
  Spotify._process_track_with_retry (rude_client "soon") "t1" "lofi" w0
  = Raise (ValueError "invalid literal for int() with base 10")
      {| ncalls := 1; trace := [EvCall (CallTrack "t1")] |}.
Proof. reflexivity. Qed.

(** A negative wait: the wait is announced, then [time.sleep] raises. *)
Example add_batch_negative_wait :
  Spotify._add_batch_with_retry (rude_client "-5") "pl" ["t1"] 1 1 w0
  = Raise (ValueError "sleep length must be non-negative")
      {| ncalls := 1;
         trace := [EvCall (CallPlaylistAddItems "pl" ["t1"]);
                   EvPrint (MsgRateLimit (-5) 1 3)] |}.
Proof. reflexivity. Qed.

(** ** Adding in batches under arbitrary failures *)

Lemma add_tracks_loop_attempts sp playlist_id track_ids total_batches indices :
  (forall n b e, playlist_add_items sp n playlist_id b = Raises (Spotify e) ->
     http_status e = 429 -> plain_wait e = true) ->
  forall w,
  exists delta reps,
    for_each indices
      (fun i _ =>
         success <- Spotify._add_batch_with_retry sp playlist_id
                      (Py.slice track_ids i (i + Spotify.BATCH_SIZE))
                      (i / Spotify.BATCH_SIZE + 1) total_batches ;;
         if success && (i / Spotify.BATCH_SIZE + 1 <? total_batches)
         then sleep Spotify.RATE_LIMIT_DELAY
         else ret tt)
      tt w
    = Ok tt {| ncalls := ncalls w + sum_list reps; trace := trace w ++ delta |}
    ∧ length reps = length indices
    ∧ Forall (fun r => 1 ≤ r ≤ 3) reps
    ∧ added_batches delta
      = concat (zip_with replicate reps
                  ((fun i => Py.slice track_ids i (i + Spotify.BATCH_SIZE))
                     <$> indices)).
Proof.
  intros Hplain. induction indices as [|i indices IH]; intros w.
  - exists [], []. cbn [for_each]. unfold ret. simpl.
    rewrite Nat.add_0_r, app_nil_r, world_eta. repeat split. constructor.
  - cbn [for_each]. unfold bind at 1. unfold bind at 1.
    unfold Spotify._add_batch_with_retry.
    destruct (add_loop_plain sp playlist_id
                (Py.slice track_ids i (i + Spotify.BATCH_SIZE))
                (i / Spotify.BATCH_SIZE + 1) total_batches 4 0 3 w)
      as (success & d1 & n & -> & _ & Ha & Hn & Hpos & _);
      [lia | intros n e; apply Hplain |].
    assert (exists d2,
      (if success && (i / Spotify.BATCH_SIZE + 1 <? total_batches)
       then sleep Spotify.RATE_LIMIT_DELAY else ret tt)
        {| ncalls := ncalls w + n; trace := trace w ++ d1 |}
      = Ok tt {| ncalls := ncalls w + n; trace := (trace w ++ d1) ++ d2 |}
      ∧ added_batches d2 = []) as (d2 & -> & Hd2).
    { destruct (success && _).
      - exists [EvSleep Spotify.RATE_LIMIT_DELAY]. done.
      - exists []. unfold ret. by rewrite app_nil_r. }
    edestruct IH as (delta & reps & -> & Hlen & Hall & Hadded).
    exists (d1 ++ d2 ++ delta), (n :: reps). cbn [ncalls trace].
    split; [f_equal; f_equal; [simpl; lia | by rewrite !app_assoc] |].
    split; [simpl; by rewrite Hlen |].
    split; [constructor; [lia | exact Hall] |].
    rewrite !added_batches_app, Ha, Hd2, Hadded. reflexivity.
Qed.

(** X2.  When the rate-limit responses to the add calls carry a plain wait,
    [add_tracks_to_playlist] returns, and a batch that fails does not stop
    the batches after it: whatever else the remote answers, every chunk of
    100 ids is attempted, in order, at least once and at most three times,
    and nothing else is sent. *)
Theorem add_tracks_attempts_every_batch
    (sp : Client) (playlist_id : string) (track_ids : list string) (w : World) :
  (forall n b e, playlist_add_items sp n playlist_id b = Raises (Spotify e) ->
     http_status e = 429 -> plain_wait e = true) ->
  exists delta reps,
    Spotify.add_tracks_to_playlist sp playlist_id track_ids w
    = Ok tt {| ncalls := ncalls w + sum_list reps; trace := trace w ++ delta |}
    ∧ length reps = length (batches Spotify.BATCH_SIZE track_ids)
    ∧ Forall (fun r => 1 ≤ r ≤ 3) reps
    ∧ added_batches delta
      = concat (zip_with replicate reps (batches Spotify.BATCH_SIZE track_ids)).
Proof.
  intros Hplain. unfold Spotify.add_tracks_to_playlist, batches. cbv zeta.
  unfold bind at 1, print at 1, emit at 1.
  destruct (add_tracks_loop_attempts sp playlist_id track_ids
              ((length track_ids + Spotify.BATCH_SIZE - 1) / Spotify.BATCH_SIZE)
              (Py.range 0 (length track_ids) Spotify.BATCH_SIZE) Hplain
              {| ncalls := ncalls w;
                 trace := trace w
                   ++ [EvPrint (MsgAddingTracks
                                  ((length track_ids + Spotify.BATCH_SIZE - 1)
                                   / Spotify.BATCH_SIZE))] |})
    as (delta & reps & -> & Hlen & Hall & Hadded).
  eexists (_ :: delta), reps. cbn [ncalls trace].
  split; [by rewrite <- app_assoc |].
  split; [by rewrite length_fmap |].
  split; [exact Hall |].
  exact Hadded.
Qed.

Lemma add_tracks_attempts_every_batch_witness :
  exists delta reps,
    Spotify.add_tracks_to_playlist (flaky_client 2) "pl" (replicate 150 "t") w0
    = Ok tt {| ncalls := sum_list reps; trace := delta |}
    ∧ length reps = 2
    ∧ Forall (fun r => 1 ≤ r ≤ 3) reps.
Proof.
  destruct (add_tracks_attempts_every_batch (flaky_client 2) "pl"
              (replicate 150 "t") w0)
    as (delta & reps & Hrun & Hlen & Hall & _).
  - intros [|[|n]] b e Hraise _; [| | discriminate Hraise];
      injection Hraise as <-; reflexivity.
  - exists delta, reps. split; [exact Hrun | split; [exact Hlen | exact Hall]].
Defined.




(** ** Filtering: calls and pacing *)

Lemma count_multiples_of_ten n :
  length (List.filter (fun i => i mod 10 =? 0) (seq 1 n)) = n / 10.
Proof.
  induction n as [|n IH]; [reflexivity |].
  rewrite seq_S, List.filter_app, length_app, IH.
  cbn [List.filter]. change (1 + n) with (S n).
  pose proof (Nat.div_mod_eq n 10) as Hn.
  pose proof (Nat.div_mod_eq (S n) 10) as HSn.
  pose proof (Nat.mod_upper_bound n 10 ltac:(lia)) as Hr.
  pose proof (Nat.mod_upper_bound (S n) 10 ltac:(lia)) as Hr'.
  destruct (S n mod 10 =? 0) eqn:Hz.
  - apply Nat.eqb_eq in Hz. simpl length. lia.
  - apply Nat.eqb_neq in Hz. simpl length. lia.
Qed.

(** X4.  When the rate-limit responses to the track calls carry a plain
    wait, [filter_tracks] returns, whatever else the remote answers, after
    spending at least one and at most three API calls on each track id:
    between [L] and [3 * L] calls for [L] ids. *)
Theorem filter_tracks_call_budget
    (sp : Client) (track_ids : list string) (exclude_keyword : string)
    (w : World) :
  (forall n track_id e,
      track sp n track_id = Raises (Spotify e) ->
      http_status e = 429 -> plain_wait e = true) ->
  exists kept w',
    Spotify.filter_tracks sp track_ids exclude_keyword w = Ok kept w'
    ∧ ncalls w + length track_ids ≤ ncalls w'
    ∧ ncalls w' ≤ ncalls w + 3 * length track_ids.
Proof.
  intros Hplain.
  destruct (filter_tracks_outcome sp track_ids exclude_keyword w)
    as [(kept & w1 & Hrun & _ & Hcalls)
       | (e & w1 & n & id & e0 & _ & He0 & Hst & Hpl)].
  - by exists kept, w1.
  - rewrite (Hplain _ _ _ He0 Hst) in Hpl. discriminate.
Qed.

Lemma filter_tracks_call_budget_witness :
  exists kept w',
    Spotify.filter_tracks (flaky_client 2) ["t1"; "t2"] "lofi" w0 = Ok kept w'
    ∧ 2 ≤ ncalls w' ≤ 6.
Proof.
  destruct (filter_tracks_call_budget (flaky_client 2) ["t1"; "t2"] "lofi" w0)
    as (kept & w' & Hrun & Hmin & Hmax).
  - intros [|[|n]] track_id e Hraise _; [| | discriminate Hraise];
      injection Hraise as <-; reflexivity.
  - exists kept, w'. split; [exact Hrun |]. cbn in Hmin, Hmax. lia.
Defined.

Lemma kept_ids_cons catalog exclude_keyword track_id track_ids :
  kept_ids catalog exclude_keyword (track_id :: track_ids)
  = kept_ids catalog exclude_keyword [track_id]
    ++ kept_ids catalog exclude_keyword track_ids.
Proof.
  unfold kept_ids. cbn [List.filter].
  destruct (Py.truthy track_id && _); reflexivity.
Qed.

Lemma filter_body_fetched sp catalog exclude_keyword total_tracks i track_id
    acc w :
  track sp (ncalls w) track_id = Returns (catalog track_id) ->
  Spotify.filter_tracks_body sp exclude_keyword total_tracks (i, track_id) acc w
  = Ok (acc ++ kept_ids catalog exclude_keyword [track_id])
       {| ncalls := S (ncalls w);
          trace := trace w
                   ++ [EvCall (CallTrack track_id)]
                   ++ (if i mod 50 =? 0
                       then [EvPrint (MsgProcessed i total_tracks)] else [])
                   ++ (if i mod 10 =? 0
                       then [EvSleep Spotify.RATE_LIMIT_DELAY] else []) |}.
Proof.
  intros Hfetch. unfold Spotify.filter_tracks_body. unfold bind at 1.
  unfold Spotify._process_track_with_retry.
  rewrite (process_loop_success sp track_id exclude_keyword 3 0 3
             (catalog track_id)) by (lia || exact Hfetch).
  unfold kept_ids. cbn [List.filter].
  destruct (Spotify.should_exclude_track (catalog track_id) exclude_keyword);
    destruct (Py.truthy track_id) eqn:Htruthy; cbn [negb andb];
    try rewrite Htruthy;
    unfold bind, print, sleep, emit, ret;
    destruct (i mod 50 =? 0), (i mod 10 =? 0); cbn [ncalls trace];
    rewrite <- ?app_assoc, ?app_nil_r; reflexivity.
Qed.

Lemma filter_loop_all_fetched sp catalog exclude_keyword total_tracks :
  (forall n track_id, track sp n track_id = Returns (catalog track_id)) ->
  forall track_ids start acc w,
  exists delta,
    for_each (zip (seq start (length track_ids)) track_ids)
      (Spotify.filter_tracks_body sp exclude_keyword total_tracks) acc w
    = Ok (acc ++ kept_ids catalog exclude_keyword track_ids)
         {| ncalls := ncalls w + length track_ids; trace := trace w ++ delta |}
    ∧ calls delta = CallTrack <$> track_ids
    ∧ sleeps delta
      = (fun _ => Spotify.RATE_LIMIT_DELAY)
          <$> List.filter (fun i => i mod 10 =? 0) (seq start (length track_ids)).
Proof.
  intros Hfetch.
  induction track_ids as [|track_id track_ids IH]; intros start acc w.
  - exists []. cbn [length seq zip zip_with for_each]. unfold ret, kept_ids.
    simpl. rewrite Nat.add_0_r, !app_nil_r, world_eta. done.
  - cbn [length seq zip zip_with for_each]. unfold bind at 1.
    rewrite (filter_body_fetched sp catalog) by apply Hfetch.
    edestruct (IH (S start)) as (delta & -> & Hcalls & Hsleeps).
    eexists. split; [| split].
    + cbn [ncalls trace]. f_equal.
      * rewrite <- app_assoc. f_equal. symmetry. apply kept_ids_cons.
      * f_equal; [lia |]. rewrite <- app_assoc. reflexivity.
    + rewrite !calls_app, Hcalls.
      destruct (start mod 50 =? 0), (start mod 10 =? 0); reflexivity.
    + rewrite !sleeps_app, Hsleeps. cbn [List.filter].
      destruct (start mod 50 =? 0), (start mod 10 =? 0); reflexivity.
Qed.

(** X5.  When every track fetch succeeds, [filter_tracks] makes exactly one
    call per id, in order, keeps exactly the non-empty ids whose record is not
    excluded, and pauses for the pacing delay once after every tenth id. *)
Theorem filter_tracks_all_fetched
    (sp : Client) (catalog : string -> Track) (track_ids : list string)
    (exclude_keyword : string) (w : World) :
  (forall n track_id, track sp n track_id = Returns (catalog track_id)) ->
  exists delta,
    Spotify.filter_tracks sp track_ids exclude_keyword w
    = Ok (kept_ids catalog exclude_keyword track_ids)
         {| ncalls := ncalls w + length track_ids; trace := trace w ++ delta |}
    ∧ calls delta = CallTrack <$> track_ids
    ∧ sleeps delta
      = replicate (length track_ids / 10) Spotify.RATE_LIMIT_DELAY.
Proof.
  intros Hfetch. unfold Spotify.filter_tracks, Py.enumerate. cbv zeta.
  unfold bind at 1, print at 1, emit at 1. unfold bind at 1.
  edestruct (filter_loop_all_fetched sp catalog exclude_keyword
               (length track_ids) Hfetch track_ids 1 [])
    as (delta & -> & Hcalls & Hsleeps).
  unfold bind, print, emit, ret. cbn [ncalls trace].
  eexists. split; [rewrite <- !app_assoc; reflexivity |].
  rewrite !calls_app, !sleeps_app, Hcalls, Hsleeps. simpl.
  rewrite !app_nil_r. split; [reflexivity |].
  rewrite (const_fmap _ _ Spotify.RATE_LIMIT_DELAY) by reflexivity.
  by rewrite count_multiples_of_ten.
Qed.

Lemma filter_tracks_all_fetched_witness :
  exists delta,
    Spotify.filter_tracks (catalog_client demo_catalog)
      ["rock1"; "lofi1"; ""; "rock2"] "lofi" w0
    = Ok ["rock1"; "rock2"] {| ncalls := 4; trace := delta |}
    ∧ sleeps delta = [].
Proof.
  destruct (filter_tracks_all_fetched (catalog_client demo_catalog) demo_catalog
              ["rock1"; "lofi1"; ""; "rock2"] "lofi" w0)
    as (delta & Hrun & _ & Hsleeps).
  - intros n track_id. reflexivity.
  - exists delta. split; [exact Hrun | exact Hsleeps].
Defined.

(** ** Fetching track details in batches *)

Lemma fetched_batches_calls batch : forall cur tr,
  fetched_batches_from cur (((fun id => EvCall (CallTrack id)) <$> batch) ++ tr)
  = fetched_batches_from (cur ++ batch) tr.
Proof.
  induction batch as [|id batch IH]; intros cur tr.
  - by rewrite app_nil_r.
  - cbn [fmap list_fmap app fetched_batches_from]. rewrite IH, <- app_assoc.
    reflexivity.
Qed.

Section TrackDetails.
Variable sp : Client.
Variable catalog : string -> Track.

Local Abbreviation fetch_batch :=
  (fun batch => for_each batch
     (fun id acc => t <- Analyzer.sp_track sp id ;; ret (acc ++ [t]))).

Lemma fetch_batch_success batch : forall acc w,
  (forall i id, batch !! i = Some id ->
     track sp (ncalls w + i) id = Returns (catalog id)) ->
  fetch_batch batch acc w
  = Ok (acc ++ (catalog <$> batch))
       {| ncalls := ncalls w + length batch;
          trace := trace w ++ ((fun id => EvCall (CallTrack id)) <$> batch) |}.
Proof.
  induction batch as [|id batch IH]; intros acc w Hfetch.
  - cbn [for_each fmap list_fmap length]. unfold ret.
    by rewrite Nat.add_0_r, !app_nil_r, world_eta.
  - cbn [for_each]. unfold bind at 1. unfold bind at 1.
    unfold Analyzer.sp_track, call.
    pose proof (Hfetch 0 id eq_refl) as H0. rewrite Nat.add_0_r in H0.
    rewrite H0. unfold ret at 1. rewrite IH.
    + cbn [ncalls trace length fmap list_fmap]. f_equal.
      * by rewrite <- app_assoc.
      * f_equal; [lia | by rewrite <- app_assoc].
    + intros i id' Hi. cbn [ncalls].
      rewrite <- (Hfetch (S i) id' Hi). f_equal. lia.
Qed.

Lemma fetch_batch_failure batch : forall j bad e acc w,
  (forall i id, batch !! i = Some id -> i < j ->
     track sp (ncalls w + i) id = Returns (catalog id)) ->
  batch !! j = Some bad ->
  track sp (ncalls w + j) bad = Raises e ->
  fetch_batch batch acc w
  = Raise e
      {| ncalls := ncalls w + S j;
         trace := trace w
                  ++ ((fun id => EvCall (CallTrack id)) <$> take (S j) batch) |}.
Proof.
  induction batch as [|id batch IH]; intros j bad e acc w Hfetch Hbad Hraise;
    [discriminate |].
  cbn [for_each]. unfold bind at 1. unfold bind at 1.
  unfold Analyzer.sp_track, call.
  destruct j as [|j].
  - injection Hbad as ->. rewrite Nat.add_0_r in Hraise. rewrite Hraise.
    cbn [take fmap list_fmap]. f_equal. f_equal. lia.
  - pose proof (Hfetch 0 id eq_refl ltac:(lia)) as H0.
    rewrite Nat.add_0_r in H0. rewrite H0. unfold ret at 1.
    rewrite (IH j bad e).
    + cbn [ncalls trace take fmap list_fmap]. f_equal.
      f_equal; [lia | by rewrite <- app_assoc].
    + intros i id' Hi Hlt. cbn [ncalls].
      rewrite <- (Hfetch (S i) id' Hi ltac:(lia)). f_equal. lia.
    + exact Hbad.
    + cbn [ncalls]. rewrite <- Hraise. f_equal. lia.
Qed.

Local Abbreviation details_body track_ids :=
  (fun i details =>
     let batch := Py.slice track_ids i (i + Analyzer.BATCH_SIZE) in
     let batch_number := i / Analyzer.BATCH_SIZE + 1 in
     let total_batches :=
       (length track_ids + Analyzer.BATCH_SIZE - 1) / Analyzer.BATCH_SIZE in
     print (MsgFetchingDetails batch_number total_batches) ;;;
     batch_tracks <-
       for_each batch
         (fun id acc => t <- Analyzer.sp_track sp id ;; ret (acc ++ [t])) [] ;;
     sleep Analyzer.RATE_LIMIT_DELAY ;;;
     ret (details ++ batch_tracks)).

Lemma details_loop_success (track_ids : list string) indices :
  forall details w,
  let flat :=
    concat ((fun i => Py.slice track_ids i (i + Analyzer.BATCH_SIZE)) <$> indices) in
  (forall i id, flat !! i = Some id ->
     track sp (ncalls w + i) id = Returns (catalog id)) ->
  exists delta,
    for_each indices (details_body track_ids) details w
    = Ok (details ++ (catalog <$> flat))
         {| ncalls := ncalls w + length flat; trace := trace w ++ delta |}
    ∧ calls delta = CallTrack <$> flat
    ∧ sleeps delta = replicate (length indices) Analyzer.RATE_LIMIT_DELAY
    ∧ fetched_batches delta
      = (fun i => Py.slice track_ids i (i + Analyzer.BATCH_SIZE)) <$> indices.
Proof.
  induction indices as [|i0 indices IH]; intros details w flat Hfetch.
  - exists []. subst flat. cbn [for_each fmap list_fmap concat length].
    unfold ret. by rewrite Nat.add_0_r, !app_nil_r, world_eta.
  - subst flat. cbn [fmap list_fmap concat] in *.
    set (batch := Py.slice track_ids i0 (i0 + Analyzer.BATCH_SIZE)) in *.
    set (rest := concat _) in *.
    cbn [for_each]. unfold bind at 1. cbv zeta.
    unfold bind at 1, print at 1, emit at 1. unfold bind at 1.
    fold batch.
    rewrite (fetch_batch_success batch).
    2: { intros i id Hi. cbn [ncalls]. apply Hfetch.
         rewrite lookup_app_l; [exact Hi |]. by eapply lookup_lt_Some. }
    unfold bind at 1, sleep at 1, emit at 1. unfold ret at 1.
    cbn [ncalls trace].
    edestruct (IH (details ++ [] ++ (catalog <$> batch)))
      as (delta & -> & Hc & Hs & Hg).
    { intros i id Hi. cbn [ncalls].
      rewrite <- (Hfetch (length batch + i) id).
      - f_equal. lia.
      - rewrite lookup_app_r by lia.
        replace (length batch + i - length batch) with i by lia. exact Hi. }
    eexists. split; [| split; [| split]].
    + cbn [ncalls trace]. f_equal.
      * rewrite fmap_app, app_nil_l, <- app_assoc. reflexivity.
      * f_equal; [rewrite length_app; lia |].
        rewrite <- !app_assoc. reflexivity.
    + rewrite !calls_app, Hc, fmap_app. cbn [calls omap list_omap app].
      f_equal. clear. induction batch as [|id batch IHb]; [reflexivity |].
      cbn. unfold calls in IHb. by rewrite IHb.
    + rewrite !sleeps_app, Hs. cbn [sleeps omap list_omap app length replicate].
      assert (sleeps ((fun id => EvCall (CallTrack id)) <$> batch) = []) as ->;
        [| reflexivity].
      clear. induction batch as [|id batch IHb]; [reflexivity | exact IHb].
    + unfold fetched_batches in *. cbn [app fetched_batches_from].
      rewrite fetched_batches_calls. cbn [app fetched_batches_from].
      by rewrite Hg.
Qed.

Lemma details_loop_failure (track_ids : list string) indices :
  forall j bad e details w,
  let flat :=
    concat ((fun i => Py.slice track_ids i (i + Analyzer.BATCH_SIZE)) <$> indices) in
  (forall i id, flat !! i = Some id -> i < j ->
     track sp (ncalls w + i) id = Returns (catalog id)) ->
  flat !! j = Some bad ->
  track sp (ncalls w + j) bad = Raises e ->
  exists delta,
    for_each indices (details_body track_ids) details w
    = Raise e {| ncalls := ncalls w + S j; trace := trace w ++ delta |}
    ∧ calls delta = CallTrack <$> take (S j) flat.
Proof.
  induction indices as [|i0 indices IH];
    intros j bad e details w flat Hfetch Hbad Hraise; [discriminate |].
  subst flat. cbn [fmap list_fmap concat] in *.
  set (batch := Py.slice track_ids i0 (i0 + Analyzer.BATCH_SIZE)) in *.
  set (rest := concat _) in *.
  cbn [for_each]. unfold bind at 1. cbv zeta.
  unfold bind at 1, print at 1, emit at 1. unfold bind at 1.
  fold batch.
  assert (forall b : list string,
            calls ((fun id => EvCall (CallTrack id)) <$> b) = CallTrack <$> b)
    as Hcalls_batch.
  { clear. induction b as [|id b IHb]; [reflexivity |].
    cbn. unfold calls in IHb. by rewrite IHb. }
  destruct (decide (j < length batch)) as [Hin | Hout].
  - rewrite (fetch_batch_failure batch j bad e).
    + eexists. cbn [ncalls trace]. split.
      * rewrite <- app_assoc. reflexivity.
      * rewrite calls_app, Hcalls_batch. cbn [calls omap list_omap app].
        rewrite take_app_le by lia. reflexivity.
    + intros i id Hi Hlt. cbn [ncalls]. apply Hfetch; [| exact Hlt].
      rewrite lookup_app_l; [exact Hi |]. by eapply lookup_lt_Some.
    + rewrite lookup_app_l in Hbad by lia. exact Hbad.
    + exact Hraise.
  - rewrite (fetch_batch_success batch).
    2: { intros i id Hi. cbn [ncalls].
         assert (i < length batch) by (by eapply lookup_lt_Some).
         apply Hfetch; [| lia]. rewrite lookup_app_l; [exact Hi | lia]. }
    unfold bind at 1, sleep at 1, emit at 1. unfold ret at 1.
    cbn [ncalls trace].
    edestruct (IH (j - length batch) bad e (details ++ [] ++ (catalog <$> batch)))
      as (delta & -> & Hc).
    { intros i id Hi Hlt. cbn [ncalls].
      rewrite <- (Hfetch (length batch + i) id).
      - f_equal. lia.
      - rewrite lookup_app_r by lia.
        replace (length batch + i - length batch) with i by lia. exact Hi.
      - lia. }
    { rewrite lookup_app_r in Hbad by lia. exact Hbad. }
    { cbn [ncalls]. rewrite <- Hraise. f_equal. lia. }
    eexists. split.
    + cbn [ncalls trace]. f_equal. f_equal; [lia |].
      rewrite <- !app_assoc. reflexivity.
    + rewrite !calls_app, Hc, Hcalls_batch. cbn [calls omap list_omap app].
      rewrite take_app_ge by lia. rewrite fmap_app. do 3 f_equal. lia.
Qed.

End TrackDetails.

(** C5.  The batcher is the idiom
    [for i in range(0, len(l), B): batch = l[i:i + B]] of
    [add_tracks_to_playlist] ([B] = 100) and [get_track_details] ([B] = 50).
    For every sequence and every positive [B] its chunks are contiguous
    slices of the input taken in order (chunk [i] is [l[i*B : i*B + B]]), none
    is empty or longer than [B], every chunk but the last has exactly [B]
    elements, and their concatenation is the input: every element is covered
    exactly once.  These chunks are what the two functions work through: when
    its calls succeed, [add_tracks_to_playlist] sends exactly the chunks of
    its input, one call each, in order, and [get_track_details] fetches its
    input chunk by chunk, pausing after each. *)
Theorem batcher_chunks_cover_input :
  (forall (A : Type) (B : nat) (l : list A),
      0 < B ->
      concat (batches B l) = l
      ∧ length (batches B l) = (length l + B - 1) / B
      ∧ (forall i chunk,
            batches B l !! i = Some chunk ->
            chunk = Py.slice l (i * B) (i * B + B)
            ∧ 0 < length chunk ≤ B
            ∧ (S i < length (batches B l) -> length chunk = B)))
  ∧ (forall (sp : Client) (playlist_id : string) (track_ids : list string)
            (w : World),
        (forall n b, playlist_add_items sp n playlist_id b = Returns tt) ->
        exists delta,
          Spotify.add_tracks_to_playlist sp playlist_id track_ids w
          = Ok tt {| ncalls := ncalls w
                               + length (batches Spotify.BATCH_SIZE track_ids);
                     trace := trace w ++ delta |}
          ∧ added_batches delta = batches Spotify.BATCH_SIZE track_ids)
  ∧ (forall (sp : Client) (catalog : string -> Track)
            (track_ids : list string) (w : World),
        (forall n track_id, track sp n track_id = Returns (catalog track_id)) ->
        exists delta,
          Analyzer.get_track_details sp track_ids w
          = Ok (catalog <$> track_ids)
               {| ncalls := ncalls w + length track_ids;
                  trace := trace w ++ delta |}
          ∧ fetched_batches delta = batches Analyzer.BATCH_SIZE track_ids).
Proof.
  split; [| split].
  - intros A B l HB. split; [apply batches_concat, HB |].
    split; [apply batches_length |].
    intros i chunk Hi. rewrite batches_length.
    apply batches_lookup in Hi as [Hlt ->].
    assert (0 < length l) as Hpos.
    { destruct l; simpl; [|lia]. simpl in Hlt.
      rewrite Nat.div_small in Hlt; lia. }
    pose proof (ceil_div_tight (length l) B HB Hpos) as Htight.
    set (n := (length l + B - 1) / B) in *.
    assert (i * B ≤ (n - 1) * B) as Hle by (apply Nat.mul_le_mono_r; lia).
    split.
    { unfold Py.slice. f_equal. lia. }
    rewrite length_take, length_drop. split; [lia |].
    intros Hnext.
    assert (S i * B ≤ (n - 1) * B) as Hle' by (apply Nat.mul_le_mono_r; lia).
    simpl in Hle'. lia.
  - intros sp playlist_id track_ids w Hok.
    apply add_tracks_sends_batches, Hok.
  - intros sp catalog track_ids w Hfetch. unfold Analyzer.get_track_details.
    destruct (details_loop_success sp catalog track_ids
                (Py.range 0 (length track_ids) Analyzer.BATCH_SIZE) [] w)
      as (delta & Hrun & _ & _ & Hgroups).
    { intros i id _. apply Hfetch. }
    fold (batches Analyzer.BATCH_SIZE track_ids) in *.
    rewrite batches_concat in * by (unfold Analyzer.BATCH_SIZE; lia).
    exists delta. split; [exact Hrun | exact Hgroups].
Qed.

Lemma batcher_chunks_cover_input_witness :
  concat (batches 2 [10; 20; 30; 40; 50]) = [10; 20; 30; 40; 50]
  ∧ (exists delta,
        Spotify.add_tracks_to_playlist steady_client "pl" (replicate 250 "t") w0
        = Ok tt {| ncalls := 3; trace := delta |}
        ∧ added_batches delta
          = [replicate 100 "t"; replicate 100 "t"; replicate 50 "t"])
  ∧ (exists delta,
        Analyzer.get_track_details (catalog_client demo_catalog)
          (replicate 120 "rock") w0
        = Ok (replicate 120 rock_track) {| ncalls := 120; trace := delta |}
        ∧ fetched_batches delta
          = [replicate 50 "rock"; replicate 50 "rock"; replicate 20 "rock"]).
Proof.
  destruct batcher_chunks_cover_input as (Hchunks & Hadd & Hfetch).
  split; [| split].
  - apply (Hchunks nat 2 [10; 20; 30; 40; 50]). lia.
  - destruct (Hadd steady_client "pl" (replicate 250 "t") w0)
      as (delta & Hrun & Hadded).
    + intros n b. reflexivity.
    + exists delta. split; [exact Hrun | exact Hadded].
  - destruct (Hfetch (catalog_client demo_catalog) demo_catalog
                (replicate 120 "rock") w0) as (delta & Hrun & Hgroups).
    + intros n track_id. reflexivity.
    + exists delta. split; [exact Hrun | exact Hgroups].
Defined.

(** X6.  When every fetch succeeds, [get_track_details] returns the record of
    every id, in order, after exactly one call per id, and sleeps once after
    each batch of 50, the last one included. *)
Theorem get_track_details_all_fetched
    (sp : Client) (catalog : string -> Track) (track_ids : list string)
    (w : World) :
  (forall n track_id, track sp n track_id = Returns (catalog track_id)) ->
  exists delta,
    Analyzer.get_track_details sp track_ids w
    = Ok (catalog <$> track_ids)
         {| ncalls := ncalls w + length track_ids; trace := trace w ++ delta |}
    ∧ calls delta = CallTrack <$> track_ids
    ∧ sleeps delta
      = replicate (ceil_div (length track_ids) Analyzer.BATCH_SIZE)
          Analyzer.RATE_LIMIT_DELAY.
Proof.
  intros Hfetch. unfold Analyzer.get_track_details.
  destruct (details_loop_success sp catalog track_ids
              (Py.range 0 (length track_ids) Analyzer.BATCH_SIZE) [] w)
    as (delta & Hrun & Hc & Hs & _).
  { intros i id _. apply Hfetch. }
  fold (batches Analyzer.BATCH_SIZE track_ids) in *.
  rewrite batches_concat in * by (unfold Analyzer.BATCH_SIZE; lia).
  exists delta. split; [exact Hrun | split; [exact Hc |]].
  rewrite Hs. f_equal. unfold Py.range. rewrite length_fmap, length_seq.
  unfold ceil_div. f_equal. lia.
Qed.

Lemma get_track_details_all_fetched_witness :
  exists delta,
    Analyzer.get_track_details (catalog_client demo_catalog)
      (replicate 60 "rock") w0
    = Ok (replicate 60 rock_track) {| ncalls := 60; trace := delta |}
    ∧ sleeps delta = [1; 1].
Proof.
  destruct (get_track_details_all_fetched (catalog_client demo_catalog)
              demo_catalog (replicate 60 "rock") w0)
    as (delta & Hrun & _ & Hs).
  - intros n track_id. reflexivity.
  - exists delta. split; [exact Hrun | exact Hs].
Defined.

(** X7.  [get_track_details] has no error handling: when the fetch of the
    [j]-th id fails, all earlier ones having succeeded, the exception leaves
    the function after exactly [j + 1] calls; the records gathered so far are
    lost and no later id is tried. *)
Theorem get_track_details_aborts_on_failure
    (sp : Client) (catalog : string -> Track) (track_ids : list string)
    (j : nat) (bad : string) (e : exn) (w : World) :
  (forall i id, track_ids !! i = Some id -> i < j ->
     track sp (ncalls w + i) id = Returns (catalog id)) ->
  track_ids !! j = Some bad ->
  track sp (ncalls w + j) bad = Raises e ->
  exists delta,
    Analyzer.get_track_details sp track_ids w
    = Raise e {| ncalls := ncalls w + S j; trace := trace w ++ delta |}
    ∧ calls delta = CallTrack <$> take (S j) track_ids.
Proof.
  intros Hfetch Hbad Hraise. unfold Analyzer.get_track_details.
  pose proof (details_loop_failure sp catalog track_ids
                (Py.range 0 (length track_ids) Analyzer.BATCH_SIZE)
                j bad e [] w) as Hloop.
  fold (batches Analyzer.BATCH_SIZE track_ids) in Hloop.
  rewrite batches_concat in Hloop by (unfold Analyzer.BATCH_SIZE; lia).
  apply Hloop; assumption.
Qed.

Lemma get_track_details_aborts_on_failure_witness :
  exists delta,
    Analyzer.get_track_details (failing_track_client "x")
      ["a"; "b"; "x"; "c"] w0
    = Raise timeout_error {| ncalls := 3; trace := delta |}
    ∧ calls delta = [CallTrack "a"; CallTrack "b"; CallTrack "x"].
Proof.
  destruct (get_track_details_aborts_on_failure (failing_track_client "x")
              demo_catalog ["a"; "b"; "x"; "c"] 2 "x" timeout_error w0)
    as (delta & Hrun & Hc).
  - intros i id Hi Hlt. destruct i as [|[|i]]; [| | lia];
      injection Hi as <-; reflexivity.
  - reflexivity.
  - reflexivity.
  - exists delta. split; [exact Hrun | exact Hc].
Defined.

(** ** The exclusion predicate: which keywords can match *)

Lemma lower_char_idempotent c : Py.lower_char (Py.lower_char c) = Py.lower_char c.
Proof. destruct c as [[] [] [] [] [] [] [] []]; reflexivity. Qed.

Lemma lower_idempotent s : Py.lower (Py.lower s) = Py.lower s.
Proof.
  induction s as [|c s IH]; [reflexivity |].
  simpl. by rewrite lower_char_idempotent, IH.
Qed.

Lemma lower_length s : String.length (Py.lower s) = String.length s.
Proof. induction s as [|c s IH]; [reflexivity | simpl; by rewrite IH]. Qed.

Lemma string_app_inj_length (a a' b b' : string) :
  String.length a = String.length a' ->
  a +:+ b = a' +:+ b' -> a = a' ∧ b = b'.
Proof.
  revert a'. induction a as [|c a IH]; intros [|c' a'] Hlen Heq;
    try discriminate Hlen.
  - done.
  - change (String c (a +:+ b) = String c' (a' +:+ b')) in Heq.
    injection Heq as -> Heq. injection Hlen as Hlen.
    destruct (IH a' Hlen Heq) as [-> ->]. done.
Qed.

Lemma string_app_length (a b : string) :
  String.length (a +:+ b) = String.length a + String.length b.
Proof. induction a as [|c a IH]; [reflexivity | simpl; by rewrite IH]. Qed.

(** Whatever occurs in a lower-cased text is itself in lower case. *)
Lemma contains_lower_is_lower keyword field :
  Py.contains keyword (Py.lower field) = true -> Py.lower keyword = keyword.
Proof.
  rewrite contains_spec. intros (pre & post & Hsplit).
  pose proof (f_equal Py.lower Hsplit) as Hlow.
  rewrite lower_idempotent, !lower_app, Hsplit in Hlow.
  apply string_app_inj_length in Hlow as [_ Hrest];
    [| by rewrite lower_length].
  symmetry in Hrest.
  apply string_app_inj_length in Hrest as [Hkw _];
    [exact Hkw | by rewrite lower_length].
Qed.

(** X8.  A keyword that is not already in lower case excludes no track at
    all: [should_exclude_track] compares it, unchanged, with lower-cased
    fields. *)
Theorem should_exclude_track_needs_lowercase_keyword
    (t : Track) (keyword : string) :
  Py.lower keyword ≠ keyword ->
  Spotify.should_exclude_track t keyword = false.
Proof.
  intros Hcase. apply not_true_is_false. intros Hexcl. apply Hcase.
  rewrite should_exclude_track_fields, !orb_true_iff in Hexcl.
  destruct Hexcl as [[[H | H] | H] | H];
    exact (contains_lower_is_lower _ _ H).
Qed.

Lemma should_exclude_track_needs_lowercase_keyword_witness :
  Spotify.should_exclude_track lofi_track "LOFI" = false.
Proof.
  apply should_exclude_track_needs_lowercase_keyword. discriminate.
Defined.

Lemma contains_empty s : Py.contains "" s = true.
Proof. destruct s; reflexivity. Qed.

(** X9.  The empty keyword excludes every track, and a keyword that matches
    keeps matching when it is shortened to any of its substrings: shorter
    keywords exclude more. *)
Theorem should_exclude_track_shorter_keyword
    (t : Track) (keyword shorter : string) :
  Py.contains shorter keyword = true ->
  Spotify.should_exclude_track t keyword = true ->
  Spotify.should_exclude_track t "" = true
  ∧ Spotify.should_exclude_track t shorter = true.
Proof.
  intros Hsub Hexcl. split.
  - rewrite should_exclude_track_fields, contains_empty. reflexivity.
  - rewrite should_exclude_track_fields, !orb_true_iff in *.
    destruct Hexcl as [[[H | H] | H] | H];
      pose proof (contains_trans _ _ _ Hsub H); tauto.
Qed.

Lemma should_exclude_track_shorter_keyword_witness :
  Spotify.should_exclude_track lofi_track "" = true
  ∧ Spotify.should_exclude_track lofi_track "fi b" = true.
Proof.
  apply (should_exclude_track_shorter_keyword lofi_track "lofi beats" "fi b");
    reflexivity.
Defined.

(** ** Playlist id extraction: round trips and the shape of the result *)

Lemma split_go_absent sep : forall s cur,
  Py.contains sep s = false ->
  Py.split_go sep 0 cur s = [String.rev_app cur s].
Proof.
  induction s as [|c s IH]; intros cur Habsent; [reflexivity |].
  change (Py.contains sep (String c s))
    with (String.prefix sep (String c s) || Py.contains sep s) in Habsent.
  apply orb_false_iff in Habsent as [Hhere Hlater].
  cbn [Py.split_go]. rewrite Hhere. by rewrite IH.
Qed.

Lemma split_absent_whole s sep :
  Py.contains sep s = false -> Py.split s sep = [s].
Proof. intros Habsent. unfold Py.split. by rewrite split_go_absent. Qed.

(** One-character separators. *)
Lemma prefix_char a c s :
  String.prefix (String a "") (String c s) = bool_decide (a = c).
Proof.
  simpl. destruct (ascii_dec a c) as [-> | Hne].
  - rewrite bool_decide_eq_true_2 by done. by destruct s.
  - by rewrite bool_decide_eq_false_2.
Qed.

Lemma contains_char_cons a c s :
  Py.contains (String a "") (String c s)
  = bool_decide (a = c) || Py.contains (String a "") s.
Proof.
  change (Py.contains (String a "") (String c s))
    with (String.prefix (String a "") (String c s)
          || Py.contains (String a "") s).
  by rewrite prefix_char.
Qed.

Lemma contains_char_rev_app a cur s :
  Py.contains (String a "") (String.rev_app cur s)
  = Py.contains (String a "") cur || Py.contains (String a "") s.
Proof.
  revert s. induction cur as [|c cur IH]; intros s; [reflexivity |].
  cbn [String.rev_app]. rewrite IH, !contains_char_cons.
  destruct (bool_decide (a = c)), (Py.contains (String a "") cur),
    (Py.contains (String a "") s); reflexivity.
Qed.

(** No piece of a split by one character holds that character. *)
Lemma split_go_char_pieces a : forall s cur,
  Py.contains (String a "") cur = false ->
  Forall (fun piece => Py.contains (String a "") piece = false)
         (Py.split_go (String a "") 0 cur s).
Proof.
  induction s as [|c s IH]; intros cur Hcur.
  - cbn [Py.split_go]. constructor; [| constructor].
    unfold String.rev. rewrite contains_char_rev_app, Hcur. reflexivity.
  - cbn [Py.split_go]. rewrite prefix_char.
    destruct (bool_decide (a = c)) eqn:Hac.
    + constructor.
      * unfold String.rev. rewrite contains_char_rev_app, Hcur. reflexivity.
      * apply IH. reflexivity.
    + apply IH. rewrite contains_char_cons, Hac, Hcur. reflexivity.
Qed.

Lemma split_char_pieces a s :
  Forall (fun piece => Py.contains (String a "") piece = false)
         (Py.split s (String a "")).
Proof. apply split_go_char_pieces. reflexivity. Qed.

(** The first piece of a split of [id ++ sep ++ rest] by a character that
    does not occur in [id]. *)
Lemma split_go_char_first a rest : forall id cur,
  Py.contains (String a "") id = false ->
  Py.first_item (Py.split_go (String a "") 0 cur (id +:+ String a rest))
  = String.rev_app cur id.
Proof.
  induction id as [|c id IH]; intros cur Hid.
  - change ("" +:+ String a rest) with (String a rest).
    cbn [Py.split_go]. rewrite prefix_char, bool_decide_eq_true_2 by done.
    reflexivity.
  - rewrite contains_char_cons in Hid.
    apply orb_false_iff in Hid as [Hac Hid].
    change (String c id +:+ String a rest)
      with (String c (id +:+ String a rest)).
    cbn [Py.split_go]. rewrite prefix_char, Hac. by rewrite IH.
Qed.

Lemma last_item_in l : l ≠ [] -> Py.last_item l ∈ l.
Proof.
  intros Hne. unfold Py.last_item.
  induction l as [|x l IH]; [done |].
  destruct l as [|y l]; [by left |].
  right. apply IH. done.
Qed.

Lemma first_item_in l : l ≠ [] -> Py.first_item l ∈ l.
Proof. intros Hne. destruct l; [done | by left]. Qed.

Lemma prefix_empty s : String.prefix "" s = true.
Proof. by destruct s. Qed.

Lemma split_go_miss sep c s cur :
  String.prefix sep (String c s) = false ->
  Py.split_go sep 0 cur (String c s) = Py.split_go sep 0 (String c cur) s.
Proof. intros Hmiss. cbn [Py.split_go]. by rewrite Hmiss. Qed.

Lemma split_go_hit sep c s cur :
  String.prefix sep (String c s) = true ->
  Py.split_go sep 0 cur (String c s)
  = String.rev cur :: Py.split_go sep (String.length sep - 1) "" s.
Proof. intros Hhit. cbn [Py.split_go]. by rewrite Hhit. Qed.

Lemma split_go_skip sep k c s cur :
  Py.split_go sep (S k) cur (String c s) = Py.split_go sep k cur s.
Proof. reflexivity. Qed.

Lemma split_playlist_link rest :
  Py.contains "playlist/" rest = false ->
  Py.last_item (Py.split ("https://open.spotify.com/playlist/" +:+ rest) "playlist/")
  = rest.
Proof.
  intros Hrest. unfold Py.split.
  change ("https://open.spotify.com/playlist/" +:+ rest)
    with (String.rev_app "/tsilyalp/moc.yfitops.nepo//:sptth" rest).
  cbn [String.rev_app].
  do 25 (rewrite split_go_miss by reflexivity).
  rewrite split_go_hit by (apply prefix_spec; by exists rest).
  change (String.length "playlist/" - 1) with 8.
  do 8 rewrite split_go_skip.
  rewrite split_go_absent by exact Hrest. reflexivity.
Qed.

(** X10.  The URI form round-trips: for every identifier without a colon,
    [spotify:playlist:<id>] is mapped back to [<id>]. *)
Theorem extract_playlist_id_uri_round_trip (id : string) :
  Py.contains ":" id = false ->
  Analyzer.extract_playlist_id ("spotify:playlist:" +:+ id) = Returns id.
Proof.
  intros Hid. rewrite extract_playlist_id_uri.
  - f_equal. unfold Py.split.
    change ("spotify:playlist:" +:+ id)
      with (String.rev_app ":tsilyalp:yfitops" id).
    cbn [String.rev_app].
    do 7 (rewrite split_go_miss by reflexivity).
    rewrite split_go_hit by reflexivity.
    change (String.length ":" - 1) with 0.
    do 8 (rewrite split_go_miss by reflexivity).
    rewrite split_go_hit by (by rewrite prefix_char).
    change (String.length ":" - 1) with 0.
    rewrite split_go_absent by exact Hid. reflexivity.
  - unfold Py.startswith. apply prefix_spec. by exists id.
Qed.

Lemma extract_playlist_id_uri_round_trip_witness :
  Analyzer.extract_playlist_id ("spotify:playlist:" +:+ "37i9dQZF1DXcBWIGoYBM5M")
  = Returns "37i9dQZF1DXcBWIGoYBM5M".
Proof. apply extract_playlist_id_uri_round_trip. reflexivity. Defined.

Lemma contains_app_r sub s t :
  Py.contains sub s = true -> Py.contains sub (s +:+ t) = true.
Proof.
  rewrite !contains_spec. intros (pre & post & ->).
  exists pre, (post +:+ t). by rewrite !string_app_assoc.
Qed.

(** X11.  The link form round-trips: for a non-empty identifier without a
    question mark, the link [https://open.spotify.com/playlist/<id>], with or
    without a query [?<query>], is mapped back to [<id>], provided the text
    after the host holds no further [playlist/]. *)
Theorem extract_playlist_id_link_round_trip (id query : string) :
  id ≠ "" ->
  Py.contains "?" id = false ->
  Py.contains "playlist/" (id +:+ "?" +:+ query) = false ->
  Analyzer.extract_playlist_id
    ("https://open.spotify.com/playlist/" +:+ id +:+ "?" +:+ query)
  = Returns id
  ∧ Analyzer.extract_playlist_id ("https://open.spotify.com/playlist/" +:+ id)
    = Returns id.
Proof.
  intros Hne Hq Hpl.
  assert (Py.truthy id = true) as Htruthy by (by destruct id).
  assert (Py.contains "playlist/" id = false) as Hpl'.
  { apply not_true_is_false. intros Hin.
    apply (contains_app_r _ _ ("?" +:+ query)) in Hin. congruence. }
  assert (forall rest,
            Py.contains "open.spotify.com"
              ("https://open.spotify.com/playlist/" +:+ rest) = true) as Hweb.
  { intros rest. apply contains_spec.
    by exists "https://", ("/playlist/" +:+ rest). }
  split.
  - rewrite extract_playlist_id_link; [| reflexivity | apply Hweb].
    cbv zeta. rewrite split_playlist_link by exact Hpl.
    unfold Py.split. change ("?" +:+ query) with (String "?" query).
    rewrite split_go_char_first by exact Hq.
    cbn [String.rev_app]. by rewrite Htruthy.
  - rewrite extract_playlist_id_link; [| reflexivity | apply Hweb].
    cbv zeta. rewrite split_playlist_link by exact Hpl'.
    rewrite split_absent_whole by exact Hq.
    cbn [Py.first_item hd]. by rewrite Htruthy.
Qed.

Lemma extract_playlist_id_link_round_trip_witness :
  Analyzer.extract_playlist_id
    ("https://open.spotify.com/playlist/" +:+ "37i9dQZF1DXcBWIGoYBM5M"
     +:+ "?" +:+ "si=abc&nd=1")
  = Returns "37i9dQZF1DXcBWIGoYBM5M".
Proof.
  apply (extract_playlist_id_link_round_trip "37i9dQZF1DXcBWIGoYBM5M"
           "si=abc&nd=1"); [discriminate | reflexivity | reflexivity].
Defined.

(** X12.  What [extract_playlist_id] can return.  For the URI form the
    result holds no colon (it may be empty); otherwise it is never empty: for
    a link it holds no question mark, and for a bare identifier it is the
    input stripped of blanks, 22 characters long. *)
Theorem extract_playlist_id_result_shape (url id : string) :
  Analyzer.extract_playlist_id url = Returns id ->
  if Py.startswith url "spotify:playlist:"
  then Py.contains ":" id = false
  else id ≠ ""
       ∧ (if Py.contains "open.spotify.com" url
          then Py.contains "?" id = false
          else id = Py.strip url ∧ Py.len id = 22).
Proof.
  intros Hret.
  destruct (Py.startswith url "spotify:playlist:") eqn:Huri.
  { rewrite extract_playlist_id_uri in Hret by exact Huri.
    injection Hret as <-.
    pose proof (split_char_pieces ":" url) as Hpieces.
    rewrite Forall_forall in Hpieces. apply Hpieces.
    apply last_item_in, split_nonempty. }
  destruct (Py.contains "open.spotify.com" url) eqn:Hweb.
  { rewrite extract_playlist_id_link in Hret by assumption.
    cbv zeta in Hret.
    set (target := Py.last_item (Py.split url "playlist/")) in *.
    destruct (Py.truthy (Py.first_item (Py.split target "?"))) eqn:Htruthy;
      [| discriminate].
    injection Hret as <-. split.
    - intros Hempty. rewrite Hempty in Htruthy. discriminate.
    - pose proof (split_char_pieces "?" target) as Hpieces.
      rewrite Forall_forall in Hpieces. apply Hpieces.
      apply first_item_in, split_nonempty. }
  destruct (decide (url = "")) as [-> | Hne]; [discriminate |].
  destruct (decide (Py.len (Py.strip url) = 22)) as [Hlen | Hlen].
  - rewrite extract_playlist_id_bare in Hret by assumption.
    injection Hret as <-. repeat split; [| exact Hlen].
    intros Hempty. rewrite Hempty in Hlen. discriminate.
  - rewrite extract_playlist_id_rejects in Hret by assumption. discriminate.
Qed.

Lemma extract_playlist_id_result_shape_witness :
  Py.contains "?" "37i9dQZF1DXcBWIGoYBM5M" = false.
Proof.
  apply (extract_playlist_id_result_shape
           "https://open.spotify.com/playlist/37i9dQZF1DXcBWIGoYBM5M?si=x"
           "37i9dQZF1DXcBWIGoYBM5M" eq_refl).
Defined.

(** ** Deduplication: how many entries are collected *)

Lemma find_duplicates_snoc tracks t :
  Clean.find_duplicates (tracks ++ [t])
  = Clean.find_duplicates tracks
    ++ (if bool_decide (ref_id t ∈ ref_id <$> tracks) then [ref_uri t] else []).
Proof. rewrite !find_duplicates_repeat_uris. apply repeat_uris_snoc. Qed.

(** X13.  The scan collects as many uris as there are entries beyond the
    first of each id: their number is the number of entries minus the number
    of distinct ids, and nothing is collected exactly when all ids are
    distinct. *)
Theorem find_duplicates_count (tracks : list TrackRef) :
  length (Clean.find_duplicates tracks)
  + size (list_to_set (ref_id <$> tracks) : gset string)
  = length tracks
  ∧ (Clean.find_duplicates tracks = [] <-> NoDup (ref_id <$> tracks)).
Proof.
  induction tracks as [|t tracks [IHn IHd]] using rev_ind.
  - split; [reflexivity |]. split; [intros _; constructor | reflexivity].
  - rewrite find_duplicates_snoc, fmap_app, list_to_set_app_L, !length_app.
    cbn [fmap list_fmap length list_to_set foldr].
    rewrite union_empty_r_L.
    destruct (bool_decide (ref_id t ∈ ref_id <$> tracks)) eqn:Hseen.
    + apply bool_decide_eq_true in Hseen. split.
      * replace (list_to_set (ref_id <$> tracks) ∪ {[ref_id t]})
          with (list_to_set (ref_id <$> tracks) : gset string).
        { simpl. lia. }
        apply leibniz_equiv. intros x.
        rewrite elem_of_union, elem_of_singleton, elem_of_list_to_set.
        split; [by left | intros [Hx | ->]; assumption].
      * split.
        -- intros Hnil. by apply app_eq_nil in Hnil as [_ ?].
        -- intros Hnodup. apply NoDup_app in Hnodup as (_ & Hfresh & _).
           exfalso. apply (Hfresh (ref_id t) Hseen). by left.
    + apply bool_decide_eq_false in Hseen. split.
      * rewrite size_union, size_singleton by
          (apply disjoint_singleton_r; by rewrite elem_of_list_to_set).
        simpl. lia.
      * rewrite app_nil_r, IHd. split.
        -- intros Hnodup. apply NoDup_app. split; [exact Hnodup |].
           split; [| apply NoDup_singleton].
           intros x Hx Hx'. apply list_elem_of_singleton in Hx' as ->. done.
        -- intros Hnodup. by apply NoDup_app in Hnodup as (? & _ & _).
Qed.

(** ** The workflows against an honest source *)

Lemma remove_loop_honest sp remote playlist_id fuel : forall offset acc w,
  serves sp remote 100 ->
  offset ≤ length remote ->
  (length remote - offset) / 100 < fuel ->
  exists w',
    Remove.get_playlist_tracks_loop sp fuel playlist_id acc offset w
    = Ok (acc ++ Remove.track_ids_of (drop offset remote)) w'
    ∧ ncalls w' = ncalls w + ((length remote - offset) / 100 + 1).
Proof.
  induction fuel as [|fuel IH]; intros offset acc w Hserves Hoff Hfuel; [lia |].
  simpl Remove.get_playlist_tracks_loop.
  unfold bind at 1, Remove.sp_playlist_tracks, call. rewrite Hserves.
  unfold page_of. cbn [items]. rewrite length_take, length_drop.
  destruct (decide (length remote - offset < 100)) as [Hshort | Hfull].
  - rewrite (proj2 (Nat.ltb_lt _ _)) by lia.
    rewrite take_ge by (rewrite length_drop; lia).
    rewrite Nat.div_small by lia.
    eexists. split; [reflexivity | cbn [ncalls]; lia].
  - rewrite (proj2 (Nat.ltb_ge _ _)) by lia.
    rewrite (div_step (length remote - offset) 100) in * by lia.
    destruct (IH (offset + 100)
                (acc ++ Remove.track_ids_of (take 100 (drop offset remote)))
                {| ncalls := S (ncalls w);
                   trace := trace w
                            ++ [EvCall (CallPlaylistTracks playlist_id offset)] |}
                Hserves)
      as (w' & -> & Hn); [lia | |].
    { replace (length remote - (offset + 100))
        with (length remote - offset - 100) by lia. lia. }
    exists w'. split.
    + rewrite <- app_assoc. do 2 f_equal. unfold Remove.track_ids_of.
      rewrite <- omap_app. f_equal.
      rewrite <- drop_drop. apply take_drop.
    + cbn [ncalls] in Hn.
      replace (length remote - (offset + 100))
        with (length remote - offset - 100) in Hn by lia. lia.
Qed.

(** X14.  Deduplication end to end.  Against a source that serves the
    playlist honestly in pages of 100 and accepts the removals, the workflow
    reads the playlist in [T / 100 + 1] calls and then sends, in batches of at
    most 100 and in playlist order, exactly the uris of the entries whose id
    occurred earlier in the playlist. *)
Theorem dedupe_end_to_end
    (sp : Client) (remote : list Item) (playlist_id : string) (fuel : nat)
    (w : World) :
  serves sp remote 100 ->
  (forall n b,
     playlist_remove_all_occurrences_of_items sp n playlist_id b = Returns tt) ->
  length remote / 100 < fuel ->
  let duplicates := repeat_uris (Clean.track_refs_of remote) in
  exists w',
    Clean.remove_duplicate_tracks sp fuel playlist_id w = Ok tt w'
    ∧ ncalls w'
      = ncalls w + (length remote / 100 + 1) + length (batches 100 duplicates)
    ∧ removed_batches (trace w')
      = removed_batches (trace w) ++ batches 100 duplicates
    ∧ concat (batches 100 duplicates) = duplicates.
Proof.
  intros Hserves Hok Hfuel duplicates.
  destruct (clean_loop_honest sp remote playlist_id fuel 0 [] w Hserves)
    as (w1 & Hfetch & Hn1); [lia | by rewrite Nat.sub_0_r |].
  rewrite Nat.sub_0_r in Hn1. rewrite drop_0, app_nil_l in Hfetch.
  pose proof (clean_loop_keeps_removals sp playlist_id fuel [] 0 w) as Hkeep.
  rewrite Hfetch in Hkeep. cbn [keeps_removals] in Hkeep.
  unfold Clean.remove_duplicate_tracks, Clean.get_playlist_tracks.
  unfold bind at 1. rewrite Hfetch, find_duplicates_repeat_uris.
  fold duplicates.
  assert (concat (batches 100 duplicates) = duplicates) as Hconcat
    by (apply batches_concat; lia).
  destruct duplicates as [|u us] eqn:Hdups.
  - eexists. split; [reflexivity |]. cbn [ncalls trace].
    change (batches 100 []) with (@nil (list string)).
    rewrite removed_batches_app, Hkeep.
    cbn [removed_batches omap list_omap length]. rewrite !app_nil_r.
    repeat split. lia.
  - rewrite <- Hdups in *.
    unfold bind at 1, print at 1, emit at 1. unfold bind at 1.
    edestruct (clean_removal_loop_success sp playlist_id duplicates Hok)
      as (delta & -> & Hdelta).
    unfold print, emit. cbn [ncalls trace].
    eexists. split; [reflexivity |]. cbn [ncalls trace].
    rewrite !removed_batches_app, Hkeep, Hdelta.
    cbn [removed_batches omap list_omap app]. rewrite !app_nil_r.
    split; [| split; [reflexivity | exact Hconcat]].
    unfold batches. rewrite length_fmap. lia.
Qed.

Lemma dedupe_end_to_end_witness :
  exists w',
    Clean.remove_duplicate_tracks (paged_client example_playlist 100) 1 "pl" w0
    = Ok tt w'
    ∧ ncalls w' = 2
    ∧ removed_batches (trace w') = [["spotify:track:a"; "spotify:track:b"]].
Proof.
  destruct (dedupe_end_to_end (paged_client example_playlist 100)
              example_playlist "pl" 1 w0)
    as (w' & Hrun & Hn & Hremoved & _).
  - intros n p o. reflexivity.
  - intros n b. reflexivity.
  - vm_compute. lia.
  - exists w'. split; [exact Hrun | split; [exact Hn | exact Hremoved]].
Defined.

(** X15.  Removal by id end to end.  Against a source that serves the
    playlist honestly in pages of 100, and whatever the removal calls answer,
    the workflow returns; it reads the playlist in [T / 100 + 1] calls and
    then sends, in batches of at most 100 and in request order, exactly the
    uris [spotify:track:<id>] of the requested ids that occur in the
    playlist. *)
Theorem remove_by_id_end_to_end
    (sp : Client) (remote : list Item) (playlist_id : string)
    (track_ids_to_remove : list string) (fuel : nat) (w : World) :
  serves sp remote 100 ->
  length remote / 100 < fuel ->
  let uris :=
    Remove.track_uri
      <$> filter (fun track_id => track_id ∈ ids_of remote) track_ids_to_remove in
  exists w',
    Remove.remove_tracks_from_playlist sp fuel playlist_id track_ids_to_remove w
    = Ok tt w'
    ∧ ncalls w' = ncalls w + (length remote / 100 + 1) + length (batches 100 uris)
    ∧ removed_batches (trace w')
      = removed_batches (trace w) ++ batches 100 uris
    ∧ concat (batches 100 uris) = uris.
Proof.
  intros Hserves Hfuel uris.
  destruct (remove_loop_honest sp remote playlist_id fuel 0 [] w Hserves)
    as (w1 & Hfetch & Hn1); [lia | by rewrite Nat.sub_0_r |].
  rewrite Nat.sub_0_r in Hn1. rewrite drop_0, app_nil_l in Hfetch.
  pose proof (remove_loop_keeps_removals sp playlist_id fuel [] 0 w) as Hkeep.
  rewrite Hfetch in Hkeep. cbn [keeps_removals] in Hkeep.
  unfold Remove.remove_tracks_from_playlist, Remove.get_playlist_tracks.
  unfold bind at 1. rewrite Hfetch. cbv zeta.
  assert (Remove.tracks_to_remove
            (list_to_set (Remove.track_ids_of remote)) track_ids_to_remove
          = uris) as ->.
  { unfold Remove.tracks_to_remove, uris. f_equal.
    apply list_filter_iff. intros x. apply elem_of_list_to_set. }
  assert (concat (batches 100 uris) = uris) as Hconcat
    by (apply batches_concat; lia).
  destruct uris as [|u us] eqn:Huris.
  - eexists. split; [reflexivity |]. cbn [ncalls trace].
    change (batches 100 []) with (@nil (list string)).
    rewrite removed_batches_app, Hkeep.
    cbn [removed_batches omap list_omap length]. rewrite !app_nil_r.
    repeat split. lia.
  - rewrite <- Huris in *.
    unfold bind at 1, print at 1, emit at 1. unfold bind at 1.
    edestruct (remove_removal_loop sp playlist_id uris) as (delta & -> & Hdelta).
    unfold print, emit. cbn [ncalls trace].
    eexists. split; [reflexivity |]. cbn [ncalls trace].
    rewrite !removed_batches_app, Hkeep, Hdelta.
    cbn [removed_batches omap list_omap app]. rewrite !app_nil_r.
    split; [| split; [reflexivity | exact Hconcat]].
    unfold batches. rewrite length_fmap. lia.
Qed.

Lemma remove_by_id_end_to_end_witness :
  exists w',
    Remove.remove_tracks_from_playlist (failing_removal_client abc_playlist) 1
      "pl" ["b"; "d"; "a"] w0
    = Ok tt w'
    ∧ ncalls w' = 2
    ∧ removed_batches (trace w') = [["spotify:track:b"; "spotify:track:a"]].
Proof.
  destruct (remove_by_id_end_to_end (failing_removal_client abc_playlist)
              abc_playlist "pl" ["b"; "d"; "a"] 1 w0)
    as (w' & Hrun & Hn & Hremoved & _).
  - intros n p o. reflexivity.
  - vm_compute. lia.
  - exists w'. split; [exact Hrun | split; [exact Hn | exact Hremoved]].
Defined.

(** X16.  The page size 100 is built into the paginators of [clean.py] and
    [remove.py]: against a source that serves fewer than 100 entries per page
    they stop after the first page, whatever the size of the playlist, and
    return only the entries of that page. *)
Theorem short_pages_read_once
    (sp : Client) (remote : list Item) (limit : nat) (playlist_id : string)
    (fuel : nat) (w : World) :
  serves sp remote limit ->
  limit < 100 ->
  0 < fuel ->
  let w' := {| ncalls := S (ncalls w);
               trace := trace w ++ [EvCall (CallPlaylistTracks playlist_id 0)] |} in
  Clean.get_playlist_tracks sp fuel playlist_id w
  = Ok (Clean.track_refs_of (take limit remote)) w'
  ∧ Remove.get_playlist_tracks sp fuel playlist_id w
    = Ok (Remove.track_ids_of (take limit remote)) w'.
Proof.
  intros Hserves Hlimit Hfuel w'.
  destruct fuel as [|fuel]; [lia |].
  assert ((length (take limit (drop 0 remote)) <? 100) = true) as Hshort.
  { apply Nat.ltb_lt. rewrite length_take. lia. }
  split.
  - unfold Clean.get_playlist_tracks. simpl Clean.get_playlist_tracks_loop.
    unfold bind, Clean.sp_playlist_tracks, call. rewrite Hserves.
    unfold page_of. cbn [items]. rewrite Hshort. reflexivity.
  - unfold Remove.get_playlist_tracks. simpl Remove.get_playlist_tracks_loop.
    unfold bind, Remove.sp_playlist_tracks, call. rewrite Hserves.
    unfold page_of. cbn [items]. rewrite Hshort. reflexivity.
Qed.

Lemma short_pages_read_once_witness :
  Remove.get_playlist_tracks (paged_client example_playlist 2) 5 "pl" w0
  = Ok ["a"; "b"] after_one_read.
Proof.
  apply (short_pages_read_once (paged_client example_playlist 2)
           example_playlist 2 "pl" 5 w0); [intros n p o; reflexivity | lia | lia].
Defined.

(* ================================================================== *)
(** * Properties of the account functions and of the analysis workflow *)
(* ================================================================== *)

Lemma xworld_eta w : {| xncalls := xncalls w; xtrace := xtrace w |} = w.
Proof. by destruct w. Qed.

Lemma account_calls_app tr1 tr2 :
  account_calls (tr1 ++ tr2) = account_calls tr1 ++ account_calls tr2.
Proof. apply omap_app. Qed.

Lemma created_playlists_app tr1 tr2 :
  created_playlists (tr1 ++ tr2) = created_playlists tr1 ++ created_playlists tr2.
Proof. apply omap_app. Qed.

Lemma written_tables_app tr1 tr2 :
  written_tables (tr1 ++ tr2) = written_tables tr1 ++ written_tables tr2.
Proof. apply omap_app. Qed.

(** ** Listing the user's playlists *)

(** The copies of the listing loop in [clean.py] and [remove.py] are the loop
    of [get_all_playlists]. *)
Lemma clean_lookup_loop_same acct fuel playlists offset :
  CleanLookup.get_playlist_id_loop acct fuel playlists offset
  = SpotifyAccount.get_all_playlists_loop acct fuel playlists offset.
Proof. reflexivity. Qed.

Lemma remove_lookup_loop_same acct fuel playlists offset :
  RemoveLookup.get_playlist_id_loop acct fuel playlists offset
  = SpotifyAccount.get_all_playlists_loop acct fuel playlists offset.
Proof. reflexivity. Qed.

Lemma playlists_loop_honest acct listing fuel : forall offset acc w,
  serves_playlists acct listing ->
  offset ≤ length listing ->
  (length listing - offset) / 50 < fuel ->
  exists delta,
    SpotifyAccount.get_all_playlists_loop acct fuel acc offset w
    = XOk (acc ++ drop offset listing)
          {| xncalls := xncalls w + ((length listing - offset) / 50 + 1);
             xtrace := xtrace w ++ delta |}
    ∧ account_calls delta
      = (fun k => CallCurrentUserPlaylists (offset + k * 50))
          <$> seq 0 ((length listing - offset) / 50 + 1)
    ∧ created_playlists delta = [].
Proof.
  induction fuel as [|fuel IH]; intros offset acc w Hserves Hoff Hfuel; [lia |].
  simpl SpotifyAccount.get_all_playlists_loop.
  unfold xbind at 1, SpotifyAccount.sp_current_user_playlists, xcall.
  rewrite Hserves. rewrite length_take, length_drop.
  destruct (decide (length listing - offset < 50)) as [Hshort | Hfull].
  - rewrite (proj2 (Nat.ltb_lt _ _)) by lia.
    rewrite take_ge by (rewrite length_drop; lia).
    rewrite Nat.div_small by lia.
    exists [XCall (CallCurrentUserPlaylists offset)]. unfold xret.
    split; [| split]; [| | reflexivity].
    + f_equal. f_equal. lia.
    + cbn. do 2 f_equal. lia.
  - rewrite (proj2 (Nat.ltb_ge _ _)) by lia.
    rewrite (div_step (length listing - offset) 50) in * by lia.
    edestruct (IH (offset + 50) (acc ++ take 50 (drop offset listing)))
      as (delta & -> & Hcalls & Hcreated); [exact Hserves | lia | |].
    { replace (length listing - (offset + 50))
        with (length listing - offset - 50) by lia. lia. }
    replace (length listing - (offset + 50))
      with (length listing - offset - 50) in * by lia.
    exists (XCall (CallCurrentUserPlaylists offset) :: delta).
    split; [| split].
    + cbn [xncalls xtrace]. f_equal.
      * rewrite <- app_assoc. f_equal. rewrite <- drop_drop. apply take_drop.
      * f_equal; [lia |]. rewrite <- app_assoc. reflexivity.
    + change (account_calls (XCall (CallCurrentUserPlaylists offset) :: delta))
        with (CallCurrentUserPlaylists offset :: account_calls delta).
      rewrite Hcalls.
      set (n := (length listing - offset - 50) / 50 + 1).
      replace (n + 1) with (S n) by lia. cbn [seq fmap list_fmap].
      f_equal; [f_equal; lia |].
      rewrite <- fmap_S_seq, <- list_fmap_compose. apply list_fmap_ext.
      intros _ k _. simpl. f_equal. lia.
    + exact Hcreated.
Qed.

(** X17.  Against an account that serves its [T] playlists honestly, 50 per
    page, [get_all_playlists] returns all of them in order after
    [T / 50 + 1] requests, at the offsets 0, 50, 100, ... *)
Theorem get_all_playlists_honest
    (acct : Account) (listing : list Playlist) (fuel : nat) (w : XWorld) :
  serves_playlists acct listing ->
  length listing / 50 < fuel ->
  exists delta,
    SpotifyAccount.get_all_playlists acct fuel w
    = XOk listing
          {| xncalls := xncalls w + (length listing / 50 + 1);
             xtrace := xtrace w ++ delta |}
    ∧ account_calls delta
      = (fun k => CallCurrentUserPlaylists (k * 50))
          <$> seq 0 (length listing / 50 + 1).
Proof.
  intros Hserves Hfuel. unfold SpotifyAccount.get_all_playlists.
  destruct (playlists_loop_honest acct listing fuel 0 [] w Hserves)
    as (delta & Hrun & Hcalls & _); [lia | by rewrite Nat.sub_0_r |].
  rewrite Nat.sub_0_r, drop_0, app_nil_l in Hrun. rewrite Nat.sub_0_r in Hcalls.
  exists delta. split; [exact Hrun | exact Hcalls].
Qed.

Lemma get_all_playlists_honest_witness :
  exists delta,
    SpotifyAccount.get_all_playlists (demo_account demo_listing "" "") 1 xw0
    = XOk demo_listing {| xncalls := 1; xtrace := delta |}
    ∧ account_calls delta = [CallCurrentUserPlaylists 0].
Proof.
  destruct (get_all_playlists_honest (demo_account demo_listing "" "")
              demo_listing 1 xw0)
    as (delta & Hrun & Hcalls).
  - intros n offset. reflexivity.
  - vm_compute. lia.
  - exists delta. split; [exact Hrun | exact Hcalls].
Defined.

(** ** Looking a playlist up by name *)

Lemma first_named_none playlists name :
  SpotifyAccount.first_named playlists name = None
  <-> forall p, p ∈ playlists -> pl_name p ≠ name.
Proof.
  unfold SpotifyAccount.first_named.
  induction playlists as [|q playlists IH]; cbn [List.find].
  - split; [intros _ p Hp; by apply elem_of_nil in Hp | reflexivity].
  - destruct (String.eqb (pl_name q) name) eqn:Hq.
    + apply String.eqb_eq in Hq. split; [discriminate |].
      intros Hall. exfalso. apply (Hall q); [by left | exact Hq].
    + apply String.eqb_neq in Hq. rewrite IH. split.
      * intros Hall p Hp. apply elem_of_cons in Hp as [-> | Hp]; auto.
      * intros Hall p Hp. apply Hall. by right.
Qed.

Lemma first_named_first pre p post name :
  (forall q, q ∈ pre -> pl_name q ≠ name) ->
  pl_name p = name ->
  SpotifyAccount.first_named (pre ++ p :: post) name = Some (pl_id p).
Proof.
  intros Hpre Hp. unfold SpotifyAccount.first_named.
  induction pre as [|q pre IH]; cbn [app List.find].
  - rewrite (proj2 (String.eqb_eq _ _) Hp). reflexivity.
  - rewrite (proj2 (String.eqb_neq _ _)) by (apply Hpre; by left).
    apply IH. intros r Hr. apply Hpre. by right.
Qed.

(** X18.  Against an account that serves its playlists honestly, the three
    lookups ([find_playlist_by_name] of [spotify.py], [get_playlist_id] of
    [clean.py] and of [remove.py]) agree: they return the id of the first
    playlist, in listing order, that bears exactly the given name, and [None]
    exactly when no playlist bears it. *)
Theorem playlist_lookup_first_match
    (acct : Account) (listing : list Playlist) (name : string) (fuel : nat)
    (w : XWorld) :
  serves_playlists acct listing ->
  length listing / 50 < fuel ->
  let found := SpotifyAccount.first_named listing name in
  (exists w',
      SpotifyAccount.find_playlist_by_name acct fuel name w = XOk found w'
      ∧ CleanLookup.get_playlist_id acct fuel name w = XOk found w'
      ∧ RemoveLookup.get_playlist_id acct fuel name w = XOk found w'
      ∧ xncalls w' = xncalls w + (length listing / 50 + 1))
  ∧ (found = None <-> forall p, p ∈ listing -> pl_name p ≠ name)
  ∧ (forall pre p post,
        listing = pre ++ p :: post ->
        (forall q, q ∈ pre -> pl_name q ≠ name) ->
        pl_name p = name ->
        found = Some (pl_id p)).
Proof.
  intros Hserves Hfuel found. split; [| split].
  - destruct (playlists_loop_honest acct listing fuel 0 [] w Hserves)
      as (delta & Hrun & _ & _); [lia | by rewrite Nat.sub_0_r |].
    rewrite Nat.sub_0_r, drop_0, app_nil_l in Hrun.
    eexists. unfold SpotifyAccount.find_playlist_by_name,
      SpotifyAccount.get_all_playlists, CleanLookup.get_playlist_id,
      RemoveLookup.get_playlist_id.
    unfold xbind.
    change (CleanLookup.get_playlist_id_loop acct fuel [] 0 w)
      with (SpotifyAccount.get_all_playlists_loop acct fuel [] 0 w).
    change (RemoveLookup.get_playlist_id_loop acct fuel [] 0 w)
      with (SpotifyAccount.get_all_playlists_loop acct fuel [] 0 w).
    rewrite Hrun. unfold xret.
    repeat split; reflexivity.
  - apply first_named_none.
  - intros pre p post -> Hpre Hp. by apply first_named_first.
Qed.

Lemma playlist_lookup_first_match_witness :
  exists w',
    CleanLookup.get_playlist_id (demo_account demo_listing "" "") 1 "Focus" xw0
    = XOk (Some "id1") w'.
Proof.
  destruct (playlist_lookup_first_match (demo_account demo_listing "" "")
              demo_listing "Focus" 1 xw0)
    as ((w' & _ & Hclean & _) & _).
  - intros n offset. reflexivity.
  - vm_compute. lia.
  - exists w'. exact Hclean.
Defined.

(** ** Getting or creating a playlist *)

Lemma find_playlist_honest acct listing name fuel w :
  serves_playlists acct listing ->
  length listing / 50 < fuel ->
  exists delta,
    SpotifyAccount.find_playlist_by_name acct fuel name w
    = XOk (SpotifyAccount.first_named listing name)
          {| xncalls := xncalls w + (length listing / 50 + 1);
             xtrace := xtrace w ++ delta |}
    ∧ created_playlists delta = [].
Proof.
  intros Hserves Hfuel.
  destruct (playlists_loop_honest acct listing fuel 0 [] w Hserves)
    as (delta & Hrun & _ & Hcreated); [lia | by rewrite Nat.sub_0_r |].
  rewrite Nat.sub_0_r, drop_0, app_nil_l in Hrun.
  exists delta. split; [| exact Hcreated].
  unfold SpotifyAccount.find_playlist_by_name, SpotifyAccount.get_all_playlists,
    xbind.
  by rewrite Hrun.
Qed.

(** X19.  Against an account that serves its playlists honestly,
    [get_or_create_playlist] creates nothing when the first playlist of that
    name has a non-empty id, and returns that id.  When no playlist bears the
    name, or the first one that does has the empty id, it sends exactly one
    creation request, for a private playlist of that name and description,
    and returns the id of the playlist created (or raises what the request
    raises). *)
Theorem get_or_create_playlist_creates_at_most_once
    (acct : Account) (user_id : string) (listing : list Playlist)
    (name description : string) (fuel : nat) (w : XWorld) :
  serves_playlists acct listing ->
  length listing / 50 < fuel ->
  let n := xncalls w + (length listing / 50 + 1) in
  let run := SpotifyAccount.get_or_create_playlist acct user_id fuel name
               description w in
  let request := CallUserPlaylistCreate user_id name false description in
  match SpotifyAccount.first_named listing name with
  | Some (String c id) =>
      exists delta,
        run = XOk (String c id) {| xncalls := n; xtrace := xtrace w ++ delta |}
        ∧ created_playlists delta = []
  | _ =>
      exists delta,
        created_playlists delta = [request]
        ∧ match user_playlist_create acct n user_id name false description with
          | Returns playlist =>
              run = XOk (pl_id playlist)
                        {| xncalls := S n; xtrace := xtrace w ++ delta |}
          | Raises e =>
              run = XRaise e {| xncalls := S n; xtrace := xtrace w ++ delta |}
          end
  end.
Proof.
  intros Hserves Hfuel n run request.
  destruct (find_playlist_honest acct listing name fuel w Hserves Hfuel)
    as (delta & Hfind & Hcreated).
  assert (Hnew : exists delta',
    created_playlists delta' = [request]
    ∧ match user_playlist_create acct n user_id name false description with
      | Returns playlist =>
          (xprint (NoteCreating name) ;;;;
           SpotifyAccount.create_playlist acct user_id name description false)
            {| xncalls := n; xtrace := xtrace w ++ delta |}
          = XOk (pl_id playlist)
                {| xncalls := S n; xtrace := xtrace w ++ delta' |}
      | Raises e =>
          (xprint (NoteCreating name) ;;;;
           SpotifyAccount.create_playlist acct user_id name description false)
            {| xncalls := n; xtrace := xtrace w ++ delta |}
          = XRaise e {| xncalls := S n; xtrace := xtrace w ++ delta' |}
      end).
  { exists (delta ++ [XNote (NoteCreating name); XCall request]). split.
    - rewrite created_playlists_app, Hcreated. reflexivity.
    - unfold xbind, xprint, xemit, SpotifyAccount.create_playlist,
        SpotifyAccount.sp_user_playlist_create, xcall, xbind, xret.
      cbn [xncalls xtrace].
      destruct (user_playlist_create acct n user_id name false description);
        rewrite <- !app_assoc; reflexivity. }
  assert (Hrun : run
    = match SpotifyAccount.first_named listing name with
      | Some id =>
          if Py.truthy id then xprint (NoteFoundExisting name) ;;;; xret id
          else xprint (NoteCreating name) ;;;;
               SpotifyAccount.create_playlist acct user_id name description false
      | None =>
          xprint (NoteCreating name) ;;;;
          SpotifyAccount.create_playlist acct user_id name description false
      end {| xncalls := n; xtrace := xtrace w ++ delta |}).
  { subst run. unfold SpotifyAccount.get_or_create_playlist, xbind at 1.
    by rewrite Hfind. }
  clearbody run. subst run.
  destruct (SpotifyAccount.first_named listing name) as [[|c id]|].
  - cbn [Py.truthy]. exact Hnew.
  - cbn [Py.truthy].
    exists (delta ++ [XNote (NoteFoundExisting name)]). split.
    + unfold xbind, xprint, xemit, xret. cbn [xncalls xtrace].
      by rewrite <- app_assoc.
    + rewrite created_playlists_app, Hcreated. reflexivity.
  - exact Hnew.
Qed.

Lemma get_or_create_playlist_creates_at_most_once_witness :
  (exists delta,
      SpotifyAccount.get_or_create_playlist (demo_account demo_listing "" "")
        "me" 1 "Focus" "" xw0
      = XOk "id1" {| xncalls := 1; xtrace := delta |}
      ∧ created_playlists delta = [])
  ∧ (exists delta,
      created_playlists delta = [CallUserPlaylistCreate "me" "Gym" false "d"]
      ∧ SpotifyAccount.get_or_create_playlist (demo_account demo_listing "" "")
          "me" 1 "Gym" "d" xw0
        = XOk "new-Gym" {| xncalls := 2; xtrace := delta |}).
Proof.
  split.
  - apply (get_or_create_playlist_creates_at_most_once
             (demo_account demo_listing "" "") "me" demo_listing "Focus" "" 1 xw0).
    + intros n offset. reflexivity.
    + vm_compute. lia.
  - apply (get_or_create_playlist_creates_at_most_once
             (demo_account demo_listing "" "") "me" demo_listing "Gym" "d" 1 xw0).
    + intros n offset. reflexivity.
    + vm_compute. lia.
Defined.

(** ** The analysis workflow *)

Lemma enumerate_cons {A} (x : A) l start :
  Py.enumerate (x :: l) start = (start, x) :: Py.enumerate l (S start).
Proof. reflexivity. Qed.

Lemma fetched_rows_length acct track_ids : forall n,
  length (fetched_rows acct n track_ids) ≤ length track_ids.
Proof.
  induction track_ids as [|track_id rest IH]; intros n; cbn [fetched_rows length].
  - lia.
  - rewrite length_app. specialize (IH (S n)).
    destruct (track_detail acct n track_id); cbn [length]; lia.
Qed.

Lemma analyze_loop_rows acct total : forall track_ids start export_data w,
  exists delta,
    xfor_each (Py.enumerate track_ids start)
      (AnalyzerReport.analyze_playlist_body acct total) export_data w
    = XOk (export_data ++ fetched_rows acct (xncalls w) track_ids)
          {| xncalls := xncalls w + length track_ids;
             xtrace := xtrace w ++ delta |}
    ∧ account_calls delta = CallTrackDetail <$> track_ids
    ∧ written_tables delta = [].
Proof.
  induction track_ids as [|track_id rest IH]; intros start export_data w.
  - exists []. cbn [Py.enumerate length seq zip zip_with xfor_each fetched_rows].
    unfold Py.enumerate. cbn [length seq zip zip_with xfor_each].
    unfold xret. rewrite !app_nil_r, Nat.add_0_r, xworld_eta. by repeat split.
  - rewrite enumerate_cons. cbn [xfor_each fetched_rows length].
    unfold xbind at 1.
    unfold AnalyzerReport.analyze_playlist_body, xtry_except,
      AnalyzerReport.sp_track, xcall, xbind at 1.
    destruct (track_detail acct (xncalls w) track_id) as [track | e].
    + destruct (start mod 20 =? 0).
      * unfold xbind, xprint, xsleep, xemit, xret. cbn [xncalls xtrace].
        edestruct (IH (S start) (export_data ++ [AnalyzerReport.track_data track]))
          as (delta & -> & Hcalls & Htables).
        cbn [xncalls xtrace].
        exists ([XCall (CallTrackDetail track_id);
                 XNote (NoteProcessedTracks start total);
                 XBase (EvSleep AnalyzerReport.RATE_LIMIT_DELAY)] ++ delta).
        rewrite account_calls_app, written_tables_app, Hcalls, Htables.
        split; [| by split].
        rewrite <- !app_assoc. do 2 f_equal. lia.
      * unfold xbind, xret. cbn [xncalls xtrace].
        edestruct (IH (S start) (export_data ++ [AnalyzerReport.track_data track]))
          as (delta & -> & Hcalls & Htables).
        cbn [xncalls xtrace].
        exists ([XCall (CallTrackDetail track_id)] ++ delta).
        rewrite account_calls_app, written_tables_app, Hcalls, Htables.
        split; [| by split].
        rewrite <- !app_assoc. do 2 f_equal. lia.
    + unfold xbind, xprint, xemit, xret. cbn [xncalls xtrace].
      edestruct (IH (S start) export_data) as (delta & -> & Hcalls & Htables).
      cbn [xncalls xtrace].
      exists ([XCall (CallTrackDetail track_id);
               XNote (NoteTrackError track_id e)] ++ delta).
      rewrite account_calls_app, written_tables_app, Hcalls, Htables.
      split; [| by split].
      rewrite <- !app_assoc. do 2 f_equal. lia.
Qed.

Lemma account_calls_base tr : account_calls (XBase <$> tr) = [].
Proof. induction tr as [|ev tr IH]; [reflexivity | exact IH]. Qed.

Lemma written_tables_base tr : written_tables (XBase <$> tr) = [].
Proof. induction tr as [|ev tr IH]; [reflexivity | exact IH]. Qed.

Lemma analyze_after_read sp acct fuel playlist_id output_file w track_ids w1 :
  Analyzer.get_playlist_tracks sp fuel playlist_id
    {| ncalls := xncalls w; trace := [] |} = Ok track_ids w1 ->
  let rows := fetched_rows acct (ncalls w1) track_ids in
  exists delta,
    account_calls delta = CallTrackDetail <$> track_ids
    ∧ written_tables delta = []
    ∧ AnalyzerReport.analyze_playlist sp acct fuel playlist_id output_file w
      = match to_csv acct output_file rows with
        | Returns _ =>
            XOk tt {| xncalls := ncalls w1 + length track_ids;
                      xtrace := xtrace w ++ delta
                        ++ [XWriteCsv output_file rows;
                            XNote (NoteAnalysisComplete output_file)] |}
        | Raises e =>
            XRaise e {| xncalls := ncalls w1 + length track_ids;
                        xtrace := xtrace w ++ delta |}
        end.
Proof.
  intros Hread rows.
  destruct (analyze_loop_rows acct (length track_ids) track_ids 1 []
              {| xncalls := ncalls w1;
                 xtrace := xtrace w ++ XNote NoteStartingAnalysis
                   :: XNote NoteFetchingPlaylistTracks
                   :: (XBase <$> trace w1)
                   ++ [XNote (NoteFoundTracks (length track_ids));
                       XNote NoteFetchingTrackDetails] |})
    as (delta & Hloop & Hcalls & Htables).
  cbn [xncalls xtrace app] in Hloop. fold rows in Hloop.
  exists ([XNote NoteStartingAnalysis; XNote NoteFetchingPlaylistTracks]
            ++ (XBase <$> trace w1)
            ++ [XNote (NoteFoundTracks (length track_ids));
                XNote NoteFetchingTrackDetails]
            ++ delta).
  split; [| split].
  - rewrite !account_calls_app, account_calls_base, Hcalls. reflexivity.
  - rewrite !written_tables_app, written_tables_base, Htables. reflexivity.
  - unfold AnalyzerReport.analyze_playlist, xbind, xprint, xemit, lift.
    cbn [xncalls xtrace]. rewrite Hread. cbn [xncalls xtrace].
    rewrite <- !app_assoc. cbn [app]. rewrite Hloop.
    unfold AnalyzerReport.df_to_csv.
    destruct (to_csv acct output_file rows); cbn [xncalls xtrace];
      repeat (first [rewrite <- app_assoc | progress (cbn [app])]);
      reflexivity.
Qed.

(** X20.  When reading the playlist yields the ids [track_ids] and the table
    can be written, [analyze_playlist] returns after one track request per id,
    in order, and writes exactly one table to [output_file]: the rows of the
    tracks whose request succeeded, in playlist order.  A track whose request
    raises (whatever the exception) is reported and left out; it never stops
    the run. *)
Theorem analyze_playlist_exports_fetched_rows
    (sp : Client) (acct : Account) (fuel : nat)
    (playlist_id output_file : string) (w : XWorld)
    (track_ids : list string) (w1 : World) :
  Analyzer.get_playlist_tracks sp fuel playlist_id
    {| ncalls := xncalls w; trace := [] |} = Ok track_ids w1 ->
  let rows := fetched_rows acct (ncalls w1) track_ids in
  to_csv acct output_file rows = Returns tt ->
  exists delta,
    AnalyzerReport.analyze_playlist sp acct fuel playlist_id output_file w
    = XOk tt {| xncalls := ncalls w1 + length track_ids;
                xtrace := xtrace w ++ delta |}
    ∧ written_tables delta = [(output_file, rows)]
    ∧ account_calls delta = CallTrackDetail <$> track_ids
    ∧ length rows ≤ length track_ids.
Proof.
  intros Hread rows Hcsv.
  destruct (analyze_after_read sp acct fuel playlist_id output_file w
              track_ids w1 Hread) as (delta & Hcalls & Htables & Hrun).
  fold rows in Hrun. rewrite Hcsv in Hrun.
  exists (delta ++ [XWriteCsv output_file rows;
                    XNote (NoteAnalysisComplete output_file)]).
  split; [exact Hrun | split; [| split]].
  - rewrite written_tables_app, Htables. reflexivity.
  - rewrite account_calls_app, Hcalls. cbn [account_calls omap list_omap].
    by rewrite app_nil_r.
  - apply fetched_rows_length.
Qed.

Lemma analyze_playlist_exports_fetched_rows_witness :
  exists delta,
    AnalyzerReport.analyze_playlist (paged_client three_entries 100)
      (demo_account [] "b" "") 1 "pl" "out.csv" xw0
    = XOk tt {| xncalls := 4; xtrace := delta |}
    ∧ written_tables delta
      = [("out.csv", [AnalyzerReport.track_data (demo_detail "a");
                      AnalyzerReport.track_data (demo_detail "c")])].
Proof.
  edestruct (analyze_playlist_exports_fetched_rows
               (paged_client three_entries 100) (demo_account [] "b" "") 1
               "pl" "out.csv" xw0)
    as (delta & Hrun & Htables & _).
  - vm_compute. reflexivity.
  - reflexivity.
  - exists delta. split; [exact Hrun | exact Htables].
Defined.



(** ** Audio features *)

Lemma features_body_step acct total i track_id features w :
  exists delta,
    account_calls delta = [CallAudioFeatures track_id]
    ∧ AnalyzerReport.get_audio_features_body acct total (i, track_id) features w
      = match audio_features acct (xncalls w) track_id with
        | Returns (Some first :: _) =>
            XOk (features ++ [first])
                {| xncalls := S (xncalls w); xtrace := xtrace w ++ delta |}
        | Returns _ | Raises (Spotify _) =>
            XOk features
                {| xncalls := S (xncalls w); xtrace := xtrace w ++ delta |}
        | Raises e =>
            XRaise e {| xncalls := S (xncalls w); xtrace := xtrace w ++ delta |}
        end.
Proof.
  unfold AnalyzerReport.get_audio_features_body, xtry_except, xbind at 1,
    xprint at 1, xemit at 1, xbind at 1, AnalyzerReport.sp_audio_features, xcall.
  cbn [xncalls xtrace].
  destruct (audio_features acct (xncalls w) track_id) as [[|[first|] rest]|e].
  - destruct (i mod 10 =? 0).
    + exists [XNote (NoteProcessingTrack i total); XCall (CallAudioFeatures track_id);
              XNote (NoteNoFeatures track_id);
              XBase (EvSleep AnalyzerReport.RATE_LIMIT_DELAY)].
      split; [reflexivity |].
      unfold xbind, xprint, xsleep, xemit, xret. cbn [xncalls xtrace].
      by rewrite <- !app_assoc.
    + exists [XNote (NoteProcessingTrack i total); XCall (CallAudioFeatures track_id);
              XNote (NoteNoFeatures track_id)].
      split; [reflexivity |].
      unfold xbind, xprint, xsleep, xemit, xret. cbn [xncalls xtrace].
      by rewrite <- !app_assoc.
  - destruct (i mod 10 =? 0).
    + exists [XNote (NoteProcessingTrack i total); XCall (CallAudioFeatures track_id);
              XBase (EvSleep AnalyzerReport.RATE_LIMIT_DELAY)].
      split; [reflexivity |].
      unfold xbind, xprint, xsleep, xemit, xret. cbn [xncalls xtrace].
      by rewrite <- !app_assoc.
    + exists [XNote (NoteProcessingTrack i total); XCall (CallAudioFeatures track_id)].
      split; [reflexivity |].
      unfold xbind, xprint, xsleep, xemit, xret. cbn [xncalls xtrace].
      by rewrite <- !app_assoc.
  - destruct (i mod 10 =? 0).
    + exists [XNote (NoteProcessingTrack i total); XCall (CallAudioFeatures track_id);
              XNote (NoteNoFeatures track_id);
              XBase (EvSleep AnalyzerReport.RATE_LIMIT_DELAY)].
      split; [reflexivity |].
      unfold xbind, xprint, xsleep, xemit, xret. cbn [xncalls xtrace].
      by rewrite <- !app_assoc.
    + exists [XNote (NoteProcessingTrack i total); XCall (CallAudioFeatures track_id);
              XNote (NoteNoFeatures track_id)].
      split; [reflexivity |].
      unfold xbind, xprint, xsleep, xemit, xret. cbn [xncalls xtrace].
      by rewrite <- !app_assoc.
  - destruct e as [e' | msg | msg].
    + exists [XNote (NoteProcessingTrack i total); XCall (CallAudioFeatures track_id);
              XNote (NoteFeaturesError track_id e')].
      split; [reflexivity |].
      unfold xbind, xprint, xemit, xret. cbn [xncalls xtrace].
      by rewrite <- !app_assoc.
    + exists [XNote (NoteProcessingTrack i total); XCall (CallAudioFeatures track_id)].
      split; [reflexivity |]. by rewrite <- !app_assoc.
    + exists [XNote (NoteProcessingTrack i total); XCall (CallAudioFeatures track_id)].
      split; [reflexivity |]. by rewrite <- !app_assoc.
Qed.

Lemma features_loop_skips acct total : forall track_ids start features w,
  (forall j track_id e,
      track_ids !! j = Some track_id ->
      audio_features acct (xncalls w + j) track_id = Raises e ->
      exists e', e = Spotify e') ->
  exists delta,
    xfor_each (Py.enumerate track_ids start)
      (AnalyzerReport.get_audio_features_body acct total) features w
    = XOk (features ++ fetched_features acct (xncalls w) track_ids)
          {| xncalls := xncalls w + length track_ids;
             xtrace := xtrace w ++ delta |}
    ∧ account_calls delta = CallAudioFeatures <$> track_ids.
Proof.
  induction track_ids as [|track_id rest IH]; intros start features w Hmild.
  - exists []. unfold Py.enumerate.
    cbn [length seq zip zip_with xfor_each fetched_rows fetched_features].
    unfold xret. rewrite !app_nil_r, Nat.add_0_r, xworld_eta. by split.
  - rewrite enumerate_cons. cbn [xfor_each fetched_features length].
    unfold xbind at 1.
    destruct (features_body_step acct total start track_id features w)
      as (d & Hd & ->).
    assert (Hrest : forall features',
      exists delta,
        xfor_each (Py.enumerate rest (S start))
          (AnalyzerReport.get_audio_features_body acct total) features'
          {| xncalls := S (xncalls w); xtrace := xtrace w ++ d |}
        = XOk (features' ++ fetched_features acct (S (xncalls w)) rest)
              {| xncalls := xncalls w + S (length rest);
                 xtrace := xtrace w ++ d ++ delta |}
        ∧ account_calls (d ++ delta)
          = CallAudioFeatures <$> (track_id :: rest)).
    { intros features'.
      destruct (IH (S start) features'
                  {| xncalls := S (xncalls w); xtrace := xtrace w ++ d |})
        as (delta & Hrun & Hcalls).
      - cbn [xncalls]. intros j id e Hj He.
        apply (Hmild (S j) id e); [exact Hj |].
        by rewrite Nat.add_succ_r.
      - exists delta. cbn [xncalls xtrace] in Hrun. split.
        + rewrite Hrun, <- app_assoc. do 2 f_equal. lia.
        + rewrite account_calls_app, Hd, Hcalls. reflexivity. }
    destruct (audio_features acct (xncalls w) track_id)
      as [[|[first|] tail]|e] eqn:Hanswer.
    + destruct (Hrest features) as (delta & Hrun & Hcalls).
      exists (d ++ delta). by split.
    + destruct (Hrest (features ++ [first])) as (delta & Hrun & Hcalls).
      exists (d ++ delta). rewrite Hrun, <- app_assoc. by split.
    + destruct (Hrest features) as (delta & Hrun & Hcalls).
      exists (d ++ delta). by split.
    + destruct (Hmild 0 track_id e) as [e' ->];
        [reflexivity | by rewrite Nat.add_0_r |].
      destruct (Hrest features) as (delta & Hrun & Hcalls).
      exists (d ++ delta). by split.
Qed.

Lemma features_loop_aborts acct total : forall track_ids j start features w track_id e,
  track_ids !! j = Some track_id ->
  audio_features acct (xncalls w + j) track_id = Raises e ->
  (forall e', e ≠ Spotify e') ->
  (forall i track_id' e',
      i < j -> track_ids !! i = Some track_id' ->
      audio_features acct (xncalls w + i) track_id' = Raises e' ->
      exists e'', e' = Spotify e'') ->
  exists delta,
    xfor_each (Py.enumerate track_ids start)
      (AnalyzerReport.get_audio_features_body acct total) features w
    = XRaise e {| xncalls := xncalls w + S j; xtrace := xtrace w ++ delta |}
    ∧ account_calls delta = CallAudioFeatures <$> take (S j) track_ids.
Proof.
  induction track_ids as [|first_id rest IH];
    intros j start features w track_id e Hj He Hfatal Hmild; [done |].
  rewrite enumerate_cons. cbn [xfor_each]. unfold xbind at 1.
  destruct (features_body_step acct total start first_id features w)
    as (d & Hd & ->).
  destruct j as [|j].
  - injection Hj as ->. rewrite Nat.add_0_r in He. rewrite He.
    exists d. split.
    + destruct e as [e' | msg | msg]; [by destruct (Hfatal e') | |];
        do 2 f_equal; lia.
    + rewrite Hd. cbn [take fmap list_fmap]. by rewrite take_0.
  - cbn [lookup list_lookup] in Hj.
    assert (Hrest : forall features',
      exists delta,
        xfor_each (Py.enumerate rest (S start))
          (AnalyzerReport.get_audio_features_body acct total) features'
          {| xncalls := S (xncalls w); xtrace := xtrace w ++ d |}
        = XRaise e {| xncalls := xncalls w + S (S j);
                      xtrace := xtrace w ++ d ++ delta |}
        ∧ account_calls (d ++ delta)
          = CallAudioFeatures <$> take (S (S j)) (first_id :: rest)).
    { intros features'.
      destruct (IH j (S start) features'
                  {| xncalls := S (xncalls w); xtrace := xtrace w ++ d |}
                  track_id e Hj) as (delta & Hrun & Hcalls).
      - cbn [xncalls]. by rewrite Nat.add_succ_comm.
      - exact Hfatal.
      - cbn [xncalls]. intros i id' e' Hi Hlook He'.
        apply (Hmild (S i) id' e'); [lia | exact Hlook |].
        by rewrite <- Nat.add_succ_comm.
      - exists delta. cbn [xncalls xtrace] in Hrun. split.
        + rewrite Hrun, <- app_assoc. do 2 f_equal. lia.
        + rewrite account_calls_app, Hd, Hcalls. reflexivity. }
    destruct (audio_features acct (xncalls w) first_id)
      as [[|[first|] tail]|e0] eqn:Hanswer.
    + destruct (Hrest features) as (delta & Hrun & Hcalls).
      exists (d ++ delta). by split.
    + destruct (Hrest (features ++ [first])) as (delta & Hrun & Hcalls).
      exists (d ++ delta). by split.
    + destruct (Hrest features) as (delta & Hrun & Hcalls).
      exists (d ++ delta). by split.
    + destruct (Hmild 0 first_id e0) as [e' ->];
        [lia | reflexivity | by rewrite Nat.add_0_r |].
      destruct (Hrest features) as (delta & Hrun & Hcalls).
      exists (d ++ delta). by split.
Qed.

Lemma fetched_features_length acct track_ids : forall n,
  length (fetched_features acct n track_ids) ≤ length track_ids.
Proof.
  induction track_ids as [|track_id rest IH]; intros n;
    cbn [fetched_features length].
  - lia.
  - rewrite length_app. specialize (IH (S n)).
    destruct (audio_features acct n track_id) as [[|[first|] tail]|e];
      cbn [length]; lia.
Qed.

(** X22.  [get_audio_features] asks for the features of every id, one request
    per id, in order.  As long as the only exceptions raised are
    [SpotifyException]s it returns: the result lists, in order, the first
    element of every answer that is a non-empty list starting with a non-null
    element; the ids whose request raised, or whose answer is empty or starts
    with null, are left out.  The first exception of another kind leaves the
    function at once: no later id is requested and nothing is returned. *)
Theorem get_audio_features_skips_spotify_errors_only
    (acct : Account) (track_ids : list string) (w : XWorld) :
  ((forall j track_id e,
       track_ids !! j = Some track_id ->
       audio_features acct (xncalls w + j) track_id = Raises e ->
       exists e', e = Spotify e') ->
   exists delta,
     AnalyzerReport.get_audio_features acct track_ids w
     = XOk (fetched_features acct (xncalls w) track_ids)
           {| xncalls := xncalls w + length track_ids;
              xtrace := xtrace w ++ delta |}
     ∧ account_calls delta = CallAudioFeatures <$> track_ids
     ∧ length (fetched_features acct (xncalls w) track_ids) ≤ length track_ids)
  ∧ (forall j track_id e,
        track_ids !! j = Some track_id ->
        audio_features acct (xncalls w + j) track_id = Raises e ->
        (forall e', e ≠ Spotify e') ->
        (forall i track_id' e',
            i < j -> track_ids !! i = Some track_id' ->
            audio_features acct (xncalls w + i) track_id' = Raises e' ->
            exists e'', e' = Spotify e'') ->
        exists delta,
          AnalyzerReport.get_audio_features acct track_ids w
          = XRaise e {| xncalls := xncalls w + S j;
                        xtrace := xtrace w ++ delta |}
          ∧ account_calls delta = CallAudioFeatures <$> take (S j) track_ids).
Proof.
  split.
  - intros Hmild.
    destruct (features_loop_skips acct (length track_ids) track_ids 1 []
                {| xncalls := xncalls w;
                   xtrace := xtrace w
                     ++ [XNote (NoteFetchingFeatures (length track_ids))] |}
                Hmild) as (delta & Hrun & Hcalls).
    cbn [xncalls xtrace app] in Hrun.
    exists (XNote (NoteFetchingFeatures (length track_ids)) :: delta).
    split; [| split].
    + unfold AnalyzerReport.get_audio_features, xbind, xprint, xemit.
      rewrite Hrun, <- app_assoc. reflexivity.
    + exact Hcalls.
    + apply fetched_features_length.
  - intros j track_id e Hj He Hfatal Hmild.
    destruct (features_loop_aborts acct (length track_ids) track_ids j 1 []
                {| xncalls := xncalls w;
                   xtrace := xtrace w
                     ++ [XNote (NoteFetchingFeatures (length track_ids))] |}
                track_id e Hj He Hfatal Hmild) as (delta & Hrun & Hcalls).
    cbn [xncalls xtrace] in Hrun.
    exists (XNote (NoteFetchingFeatures (length track_ids)) :: delta).
    split; [| exact Hcalls].
    unfold AnalyzerReport.get_audio_features, xbind, xprint, xemit.
    rewrite Hrun, <- app_assoc. reflexivity.
Qed.

Lemma get_audio_features_skips_spotify_errors_only_witness :
  (exists delta,
      AnalyzerReport.get_audio_features (demo_account [] "" "d")
        ["a"; "d"; "c"] xw0
      = XOk [ {| features_track_id := "a" |}; {| features_track_id := "c" |} ]
            {| xncalls := 3; xtrace := delta |})
  ∧ (exists delta,
      AnalyzerReport.get_audio_features (demo_account [] "b" "")
        ["a"; "b"; "c"] xw0
      = XRaise timeout_error {| xncalls := 2; xtrace := delta |}
      ∧ account_calls delta = [CallAudioFeatures "a"; CallAudioFeatures "b"]).
Proof.
  split.
  - destruct (proj1 (get_audio_features_skips_spotify_errors_only
                       (demo_account [] "" "d") ["a"; "d"; "c"] xw0))
      as (delta & Hrun & _).
    + intros [|[|[|j]]] track_id e Hj He; [| | | discriminate Hj];
        injection Hj as <-; vm_compute in He; discriminate He.
    + exists delta. exact Hrun.
  - destruct (proj2 (get_audio_features_skips_spotify_errors_only
                       (demo_account [] "b" "") ["a"; "b"; "c"] xw0)
                1 "b" timeout_error)
      as (delta & Hrun & Hcalls).
    + reflexivity.
    + reflexivity.
    + intros e'. discriminate.
    + intros [|i] track_id' e' Hi Hlook He; [| lia].
      injection Hlook as <-. vm_compute in He. discriminate He.
    + exists delta. split; [exact Hrun | exact Hcalls].
Defined.
